(** * serverless-step-functions: compileStateMachines

    A shallow embedding of [lib/deploy/stepFunctions/compileStateMachines.js]
    and the properties its specification states about it.

    Conventions of the embedding.
    - A JavaScript string is a list of 8-bit code units ([list ascii]).
    - A JavaScript number is an integer ([Z]); fractional numbers, [NaN], the
      infinities and integers of magnitude [10^21] and more (which
      [Number.prototype.toString] prints with an exponent) are outside the
      model.
    - An object is the list of its own enumerable properties in the order
      [for ... in], [Object.keys] and [JSON.stringify] enumerate them; keys
      are unique in a JavaScript object.
    - A document is a tree: no node is shared between two positions.
    - [undefined] is [None] in an [option].
    - Exceptions are the left summand of a result; the random name generator
      is an oracle read through a counter that is threaded as state. *)

From Stdlib Require Import List String Ascii ZArith Lia Bool Arith Permutation.
From Stdlib Require Import Decimal DecimalString DecimalZ DecimalN DecimalPos.
Import ListNotations.

Open Scope string_scope.
Open Scope list_scope.

(* ================================================================== *)
(** ** Strings *)

Definition str : Type := list ascii.

Coercion list_ascii_of_string : string >-> list.

Definition dquote : ascii := "034"%char.
Definition bslash : ascii := "092"%char.
Definition LF : ascii := "010"%char.
Definition CR : ascii := "013"%char.

Definition str_eqb (a b : str) : bool :=
  if list_eq_dec ascii_dec a b then true else false.

Fixpoint join (sep : str) (parts : list str) : str :=
  match parts with
  | [] => []
  | [p] => p
  | p :: rest => p ++ sep ++ join sep rest
  end.

(** [needle] occurs in [hay] as a contiguous run of code units. *)
Definition occurs (needle hay : str) : Prop :=
  exists pre post, hay = pre ++ needle ++ post.

Fixpoint starts_with (p s : str) : bool :=
  match p, s with
  | [], _ => true
  | a :: p', b :: s' => if ascii_dec a b then starts_with p' s' else false
  | _ :: _, [] => false
  end.

Fixpoint occursb (needle hay : str) : bool :=
  starts_with needle hay ||
  match hay with
  | [] => false
  | _ :: hay' => occursb needle hay'
  end.

(* ================================================================== *)
(** ** JSON-like values *)

#[local] Unset Elimination Schemes.
Inductive json : Type :=
| JNull
| JBool (b : bool)
| JNum (z : Z)
| JStr (s : str)
| JArr (elems : list json)
| JObj (props : list (str * json)).
#[local] Set Elimination Schemes.

Section JsonInduction.
Variable P : json -> Prop.
Hypothesis Hnull : P JNull.
Hypothesis Hbool : forall b, P (JBool b).
Hypothesis Hnum : forall z, P (JNum z).
Hypothesis Hstr : forall s, P (JStr s).
Hypothesis Harr : forall l, Forall P l -> P (JArr l).
Hypothesis Hobj : forall kvs, Forall (fun kv => P (snd kv)) kvs -> P (JObj kvs).

Fixpoint json_ind (v : json) : P v :=
  match v with
  | JNull => Hnull
  | JBool b => Hbool b
  | JNum z => Hnum z
  | JStr s => Hstr s
  | JArr l =>
      Harr l ((fix go (l : list json) : Forall P l :=
                 match l with
                 | [] => Forall_nil _
                 | x :: l' => Forall_cons x (json_ind x) (go l')
                 end) l)
  | JObj kvs =>
      Hobj kvs ((fix go (l : list (str * json)) : Forall (fun kv => P (snd kv)) l :=
                   match l with
                   | [] => Forall_nil _
                   | x :: l' => Forall_cons x (json_ind (snd x)) (go l')
                   end) kvs)
  end.
End JsonInduction.

(** JavaScript truthiness ([ToBoolean]). *)
Definition truthy (v : json) : bool :=
  match v with
  | JNull => false
  | JBool b => b
  | JNum z => negb (z =? 0)%Z
  | JStr s => match s with [] => false | _ => true end
  | JArr _ | JObj _ => true
  end.

Definition truthyOpt (o : option json) : bool :=
  match o with
  | None => false
  | Some v => truthy v
  end.

Fixpoint lookup (k : str) (kvs : list (str * json)) : option json :=
  match kvs with
  | [] => None
  | (k', v) :: rest => if str_eqb k k' then Some v else lookup k rest
  end.

Definition hasKey (k : str) (kvs : list (str * json)) : bool :=
  match lookup k kvs with
  | Some _ => true
  | None => false
  end.

(** [obj[k] = v] on an object: an existing property keeps its place, a new
    one goes last. (JavaScript enumerates the keys that are array indices,
    such as [3000000000], before the others and in ascending order; the
    association list keeps them where they were inserted, so its order is
    the order of enumeration for the other keys only.) *)
Fixpoint setProp (k : str) (v : json) (kvs : list (str * json)) : list (str * json) :=
  match kvs with
  | [] => [(k, v)]
  | (k', v') :: rest =>
      if str_eqb k k' then (k', v) :: rest else (k', v') :: setProp k v rest
  end.

(** lodash [_.fromPairs] *)
Definition fromPairs (pairs : list (str * json)) : list (str * json) :=
  fold_left (fun acc kv => setProp (fst kv) (snd kv) acc) pairs [].

(** [Number.prototype.toString] on an integer of the modelled range. *)
Definition numberToString (z : Z) : str :=
  list_ascii_of_string (NilZero.string_of_int (Z.to_int z)).

(* ================================================================== *)
(** ** Exceptions *)

Inductive exn : Type :=
| ServerlessError (message : str)   (* new this.serverless.classes.Error(message) *)
| TypeError                          (* raised by the JavaScript runtime *)
| Thrown (detail : str).             (* raised by a collaborator *)

Definition result (A : Type) : Type := (exn + A)%type.

Definition rbind {A B} (r : result A) (k : A -> result B) : result B :=
  match r with
  | inl e => inl e
  | inr a => k a
  end.

Fixpoint rmap {A B} (f : A -> result B) (l : list A) : result (list B) :=
  match l with
  | [] => inr []
  | a :: l' => rbind (f a) (fun b => rbind (rmap f l') (fun bs => inr (b :: bs)))
  end.

(* ================================================================== *)
(** ** toTags *)

(** [Value.toString()] for a value read from a YAML or JSON document.
    [null.toString()] is a [TypeError]; an array joins its elements with a
    comma ([null] elements print as the empty string); a plain object prints
    as [[object Object]] unless an own property hides [toString]. *)
Fixpoint toString (v : json) : result str :=
  match v with
  | JNull => inl TypeError
  | JBool true => inr ("true" : str)
  | JBool false => inr ("false" : str)
  | JNum z => inr (numberToString z)
  | JStr s => inr s
  | JArr l =>
      rbind (rmap (fun e => match e with
                            | JNull => inr []
                            | _ => toString e
                            end) l)
            (fun parts => inr (join ("," : str) parts))
  | JObj kvs =>
      if hasKey ("toString" : str) kvs then inl TypeError
      else inr ("[object Object]" : str)
  end.

Definition toStringOpt (o : option json) : result str :=
  match o with
  | None => inl TypeError            (* undefined.toString() *)
  | Some v => toString v
  end.

Record Tag : Type := mkTag { Key : json; Value : str }.

(** lodash [isLength]: a number that is a non-negative integer no larger
    than [Number.MAX_SAFE_INTEGER]. *)
Definition isLength (v : json) : bool :=
  match v with
  | JNum n => ((0 <=? n) && (n <=? 9007199254740991))%Z
  | _ => false
  end.

(** lodash [_.forEach(obj, (Value, Key) => tags.push({ Key, Value: Value.toString() }))].
    lodash iterates arrays, strings and every object with a [length]
    property that [isLength] accepts by index, from [0] to [length - 1];
    other objects by own enumerable key; other primitives not at all. *)
Definition byIndex (get : nat -> option json) (len : nat) : result (list Tag) :=
  rmap (fun i => rbind (toStringOpt (get i))
                       (fun s => inr (mkTag (JNum (Z.of_nat i)) s)))
       (seq 0 len).

Definition forEachTag (obj : json) : result (list Tag) :=
  match obj with
  | JArr l => byIndex (fun i => nth_error l i) (List.length l)
  | JStr s => byIndex (fun i => option_map (fun c => JStr [c]) (nth_error s i)) (List.length s)
  | JObj kvs =>
      match lookup ("length" : str) kvs with
      | Some (JNum n) =>
          if isLength (JNum n)
          then byIndex (fun i => lookup (numberToString (Z.of_nat i)) kvs) (Z.to_nat n)
          else rmap (fun kv => rbind (toString (snd kv))
                                     (fun s => inr (mkTag (JStr (fst kv)) s))) kvs
      | _ => rmap (fun kv => rbind (toString (snd kv))
                                   (fun s => inr (mkTag (JStr (fst kv)) s))) kvs
      end
  | _ => inr []
  end.

Definition toTags (obj : option json) : result (list Tag) :=
  match obj with
  | None => inr []
  | Some o => if truthy o then forEachTag o else inr []
  end.

(* ================================================================== *)
(** ** JSON.stringify *)

Definition hexDigit (n : nat) : ascii :=
  nth n (list_ascii_of_string "0123456789abcdef") "0"%char.

(** One code unit of [QuoteJSONString]. *)
Definition escapeChar (c : ascii) : str :=
  let n := nat_of_ascii c in
  if (n =? 34)%nat then [bslash; dquote]
  else if (n =? 92)%nat then [bslash; bslash]
  else if (n =? 8)%nat then [bslash; "b"%char]
  else if (n =? 12)%nat then [bslash; "f"%char]
  else if (n =? 10)%nat then [bslash; "n"%char]
  else if (n =? 13)%nat then [bslash; "r"%char]
  else if (n =? 9)%nat then [bslash; "t"%char]
  else if (n <? 32)%nat then
    [bslash; "u"%char; "0"%char; "0"%char; hexDigit (n / 16); hexDigit (n mod 16)]
  else [c].

Definition QuoteJSONString (s : str) : str :=
  dquote :: flat_map escapeChar s ++ [dquote].

(** The common part of [SerializeJSONObject] and [SerializeJSONArray]: the
    serialized members between the brackets, each on a line of its own at
    the new indentation when there is a gap. *)
Definition bracket (gap indent opening closing : str) (parts : list str) : str :=
  match parts with
  | [] => opening ++ closing
  | _ =>
      match gap with
      | [] => opening ++ join ("," : str) parts ++ closing
      | _ =>
          let inner := indent ++ gap in
          opening ++ [LF] ++ inner
          ++ join (("," : str) ++ [LF] ++ inner) parts
          ++ [LF] ++ indent ++ closing
      end
  end.

Definition colon (gap : str) : str :=
  match gap with
  | [] => ":" : str
  | _ => ": " : str
  end.

(** [SerializeJSONProperty] with the gap string [gap] at the current
    indentation [indent]. *)
Fixpoint serialize (gap indent : str) (v : json) {struct v} : str :=
  match v with
  | JNull => "null" : str
  | JBool true => "true" : str
  | JBool false => "false" : str
  | JNum z => numberToString z
  | JStr s => QuoteJSONString s
  | JArr l =>
      bracket gap indent ("[" : str) ("]" : str)
        (map (serialize gap (indent ++ gap)) l)
  | JObj kvs =>
      bracket gap indent ("{" : str) ("}" : str)
        (map (fun kv => QuoteJSONString (fst kv) ++ colon gap
                        ++ serialize gap (indent ++ gap) (snd kv)) kvs)
  end.

(** [JSON.stringify(v)] *)
Definition JSON_stringify (v : json) : str := serialize [] [] v.

(** [JSON.stringify(v, undefined, 2)] *)
Definition JSON_stringify2 (v : json) : str := serialize ("  " : str) [] v.

(** [String.prototype.replace(/\\n|\\r|\\n\\r/g, '')]: every occurrence of a
    backslash followed by [n] or by [r] is removed, scanning left to right
    (the third alternative of the pattern can never be chosen, its prefix
    being the first alternative). *)
Fixpoint stripEscapes (s : str) : str :=
  match s with
  | [] => []
  | a :: t =>
      match t with
      | [] => [a]
      | c :: rest =>
          if Ascii.eqb a bslash && (Ascii.eqb c "n"%char || Ascii.eqb c "r"%char)
          then stripEscapes rest
          else a :: stripEscapes t
      end
  end.

(* ================================================================== *)
(** ** The state machine entry and the compiled records *)

(** One entry of [stepFunctions.stateMachines] in the service file; an
    absent field is [None]. *)
Record StateMachine : Type := mkStateMachine {
  definition : option json;
  role : option json;
  dependsOn : option json;
  tags : option json;
  name : option json;
  useExactVersion : option json
}.

(** The value of [DefinitionString]: a string, or
    [{ 'Fn::Sub': [definitionString, params] }]. *)
Inductive DefString : Type :=
| Text (s : str)
| FnSub (definitionString : str) (params : list (str * json)).

Record ResourceRecord : Type := mkResource {
  Type_ : str;
  DefinitionString : option DefString;
  RoleArn : json;
  Tags : list Tag;
  StateMachineName : option json;
  DependsOn : list json
}.

Record OutputRecord : Type := mkOutput {
  Description : str;
  OutputValue : json
}.

(** The collaborators reached through [this] and through the modules the
    file requires, for a shared template of type [Template]. *)
Record Env (Template : Type) : Type := mkEnv {
  (** the shape test of [utils/aws.isIntrinsic] on the keys of a mapping *)
  intrinsicKeys : list str -> bool;
  (** the successive results of [chance.string({ length: 10, pool })] *)
  chance : nat -> str;
  translateLocalFunctionNames : json -> json;
  convertToFunctionVersion : json -> result json;
  (** [Joi.validate(obj, schema, { allowUnknown: false }).error], rendered *)
  joiValidate : StateMachine -> option str;
  (** [aslValidator(definition)]: [isValid] and [errors] *)
  aslValidator : json -> bool * json;
  (** [this.serverless.service.stepFunctions.validate] *)
  validate : option json;
  (** [this.serverless.service.provider.tags] *)
  providerTags : option json;
  isStateMachines : bool;
  getAllStateMachines : list str;
  getStateMachine : str -> StateMachine;
  getStateMachineLogicalId : str -> StateMachine -> str;
  getStateMachineOutputLogicalId : str -> StateMachine -> str;
  (** [_.merge(template.Resources, { [id]: record })] *)
  mergeResources : Template -> str -> ResourceRecord -> Template;
  (** [_.merge(template.Outputs, { [id]: record })] *)
  mergeOutputs : Template -> str -> OutputRecord -> Template
}.

Arguments intrinsicKeys {Template}.
Arguments chance {Template}.
Arguments translateLocalFunctionNames {Template}.
Arguments convertToFunctionVersion {Template}.
Arguments joiValidate {Template}.
Arguments aslValidator {Template}.
Arguments validate {Template}.
Arguments providerTags {Template}.
Arguments isStateMachines {Template}.
Arguments getAllStateMachines {Template}.
Arguments getStateMachine {Template}.
Arguments getStateMachineLogicalId {Template}.
Arguments getStateMachineOutputLogicalId {Template}.
Arguments mergeResources {Template}.
Arguments mergeOutputs {Template}.

(** The pool of [randomName]. *)
Definition pool : str :=
  "abcdefghijklmnopqrstufwxyzABCDEFGHIJKLMNOPQRSTUFWXYZ1234567890".

(** The template literal [`\${${paramName}}`]. *)
Definition marker (paramName : str) : str :=
  ("${" : str) ++ paramName ++ ("}" : str).

(* ================================================================== *)
(** ** getIntrinsicFunctions *)

(** A generator body: it reads the name counter, yields pairs and returns the
    value that the position it worked on holds afterwards (the in-place
    mutation of the source made explicit). *)
Definition Gen (A : Type) : Type := nat -> A * list (str * json) * nat.

Definition gret {A} (a : A) : Gen A := fun n => (a, [], n).

Definition gbind {A B} (m : Gen A) (k : A -> Gen B) : Gen B :=
  fun n =>
    let '(a, p1, n1) := m n in
    let '(b, p2, n2) := k a n1 in
    (b, p1 ++ p2, n2).

Section Traverse.
Context {A B : Type}.
Variable f : A -> Gen B.

(** A loop over the elements of a list, in order. *)
Fixpoint traverse (l : list A) : Gen (list B) :=
  match l with
  | [] => gret []
  | a :: l' => gbind (f a) (fun b => gbind (traverse l') (fun bs => gret (b :: bs)))
  end.
End Traverse.

Section Compile.
Context {Template : Type}.
Variable this : Env Template.

(** Modelled from the spec: [isIntrinsic] of [utils/aws] is not part of
    the sources at hand. The specification describes an intrinsic reference
    node as a mapping recognised by a predicate on its structural shape
    (such as a single well-known key naming a platform function): a value
    is intrinsic when it is a mapping whose keys pass the shape test. *)
Definition isIntrinsic (v : json) : bool :=
  match v with
  | JObj kvs => intrinsicKeys this (map fst kvs)
  | _ => false
  end.

(** [randomName()] *)
Definition randomName : nat -> str * nat :=
  fun n => (chance this n, S n).

(** The body of the loop of [getIntrinsicFunctions] for one property
    [value = obj[key]], given the function itself for the recursive calls;
    the result is what [obj[key]] holds afterwards. *)
Definition visit (self : json -> Gen json) (value : json) : Gen json :=
  match value with
  | JArr elems =>
      (* for (const idx in value) ... getIntrinsicFunctions(value[idx]) *)
      gbind (traverse self elems) (fun elems' => gret (JArr elems'))
  | _ =>
      if isIntrinsic value then
        fun n =>
          let '(paramName, n') := randomName n in
          (JStr (marker paramName), [(paramName, value)], n')
      else
        match value with
        | JObj _ | JNull => self value          (* typeof value === 'object' *)
        | _ => gret value
        end
  end.

Fixpoint getIntrinsicFunctions (obj : json) {struct obj} : Gen json :=
  match obj with
  | JObj kvs =>
      gbind (traverse (fun kv =>
               gbind (visit getIntrinsicFunctions (snd kv))
                     (fun v' => gret (fst kv, v'))) kvs)
            (fun kvs' => gret (JObj kvs'))
  | JArr l =>
      gbind (traverse (visit getIntrinsicFunctions) l)
            (fun l' => gret (JArr l'))
  | _ =>
      (* a string enumerates its characters, which are neither arrays nor
         objects; the other primitives enumerate nothing *)
      gret obj
  end.

(* ---------------------------------------------------------------- *)
(** *** compileStateMachines, one entry *)

Definition malformedMessage (stateMachineName error : str) : str :=
  ("State machine [" : str) ++ stateMachineName ++ ("] is malformed. " : str)
  ++ ("Please check the README for more info. " : str)
  ++ error.

Definition invalidMessage (stateMachineName : str) (errors : json) : str :=
  join [LF]
    [ ("✕ State machine " : str) ++ [dquote] ++ stateMachineName ++ [dquote]
        ++ (" definition is invalid:" : str);
      JSON_stringify errors ].

(** Lines 84-95: the optional check of the definition by [aslValidator]. *)
Definition lintDefinition (stateMachineName : str) (d : json) : result unit :=
  if truthyOpt (validate this) then
    let '(isValid, errors) := aslValidator this d in
    if isValid then inr tt
    else inl (ServerlessError (invalidMessage stateMachineName errors))
  else inr tt.

(** Lines 96-115: the value of [DefinitionString] for a truthy definition. *)
Definition assemble (d : json) (n : nat) : DefString * nat :=
  match d with
  | JStr s => (Text (stripEscapes (QuoteJSONString s)), n)
  | _ =>
      let '(d', functionMappings, n') := getIntrinsicFunctions d n in
      let definitionString := JSON_stringify2 d' in
      match functionMappings with
      | [] => (Text definitionString, n')
      | _ =>
          let params :=
            fromPairs (map (fun kv => (fst kv, translateLocalFunctionNames this (snd kv)))
                           functionMappings) in
          (FnSub definitionString params, n')
      end
  end.

(** Lines 83-116. *)
Definition compileDefinition (stateMachineName : str) (stateMachineObj : StateMachine)
    (n : nat) : result (option DefString) * nat :=
  match definition stateMachineObj with
  | None => (inr None, n)
  | Some d =>
      if truthy d then
        match lintDefinition stateMachineName d with
        | inl e => (inl e, n)
        | inr _ => let '(ds, n') := assemble d n in (inr (Some ds), n')
        end
      else (inr None, n)
  end.

(** Lines 118-123. Reading ['Fn::Sub'] of a string gives [undefined]; of
    [undefined] it is a [TypeError]. *)
Definition pinVersions (stateMachineObj : StateMachine) (ds : option DefString)
    : result (option DefString) :=
  match useExactVersion stateMachineObj with
  | Some (JBool true) =>
      match ds with
      | None => inl TypeError
      | Some (Text s) => inr (Some (Text s))
      | Some (FnSub definitionString params) =>
          rbind (rmap (fun kv => rbind (convertToFunctionVersion this (snd kv))
                                       (fun v => inr (fst kv, v))) params)
                (fun converted => inr (Some (FnSub definitionString converted)))
      end
  | _ => inr ds
  end.

Definition executionRole : str := "IamRoleStateMachineExecution".

Definition defaultRoleArn : json :=
  JObj [("Fn::GetAtt" : str, JArr [JStr executionRole; JStr ("Arn" : str)])].

(** Lines 125-135: [RoleArn] and the initial [DependsOn]. *)
Definition resolveRole (stateMachineObj : StateMachine) : json * list json :=
  match role stateMachineObj with
  | Some r => if truthy r then (r, []) else (defaultRoleArn, [JStr executionRole])
  | None => (defaultRoleArn, [JStr executionRole])
  end.

(** Lines 137-145. *)
Definition resolveDependsOn (stateMachineObj : StateMachine) (DependsOn : list json)
    : list json :=
  match dependsOn stateMachineObj with
  | Some d =>
      if truthy d then
        match d with
        | JArr l => DependsOn ++ l          (* _.concat(DependsOn, dependsOn) *)
        | _ => DependsOn ++ [d]             (* DependsOn.push(dependsOn) *)
        end
      else DependsOn
  | None => DependsOn
  end.

(** Lines 147-150. *)
Definition resolveTags (stateMachineObj : StateMachine) (Tags : list Tag)
    : result (list Tag) :=
  if truthyOpt (tags stateMachineObj) then
    rbind (toTags (tags stateMachineObj)) (fun stateMachineTags => inr (Tags ++ stateMachineTags))
  else inr Tags.

Definition resourceType : str := "AWS::StepFunctions::StateMachine".

(** Lines 69-173: the resource record of one entry. *)
Definition compileRecord (stateMachineName : str) (stateMachineObj : StateMachine)
    (n : nat) : result ResourceRecord * nat :=
  match toTags (providerTags this) with
  | inl e => (inl e, n)
  | inr Tags0 =>
      match joiValidate this stateMachineObj with
      | Some error => (inl (ServerlessError (malformedMessage stateMachineName error)), n)
      | None =>
          match compileDefinition stateMachineName stateMachineObj n with
          | (inl e, n') => (inl e, n')
          | (inr ds, n') =>
              match pinVersions stateMachineObj ds with
              | inl e => (inl e, n')
              | inr ds' =>
                  let '(RoleArn, DependsOn0) := resolveRole stateMachineObj in
                  let DependsOn := resolveDependsOn stateMachineObj DependsOn0 in
                  match resolveTags stateMachineObj Tags0 with
                  | inl e => (inl e, n')
                  | inr Tags =>
                      (inr (mkResource resourceType ds' RoleArn Tags
                              (if truthyOpt (name stateMachineObj)
                               then name stateMachineObj else None)
                              DependsOn), n')
                  end
              end
          end
      end
  end.

Definition outputRecord (stateMachineLogicalId : str) : OutputRecord :=
  mkOutput ("Current StateMachine Arn" : str)
           (JObj [("Ref" : str, JStr stateMachineLogicalId)]).

(** The callback of [forEach]: the record, then the two merges. *)
Definition compileStateMachine (stateMachineName : str) (tpl : Template) (n : nat)
    : result unit * Template * nat :=
  let stateMachineObj := getStateMachine this stateMachineName in
  match compileRecord stateMachineName stateMachineObj n with
  | (inl e, n') => (inl e, tpl, n')
  | (inr stateMachineTemplate, n') =>
      let stateMachineLogicalId :=
        getStateMachineLogicalId this stateMachineName stateMachineObj in
      let stateMachineOutputLogicalId :=
        getStateMachineOutputLogicalId this stateMachineName stateMachineObj in
      let tpl1 := mergeResources this tpl stateMachineLogicalId stateMachineTemplate in
      let tpl2 := mergeOutputs this tpl1 stateMachineOutputLogicalId
                    (outputRecord stateMachineLogicalId) in
      (inr tt, tpl2, n')
  end.

(** [names.forEach(...)]: an exception ends the loop and leaves the
    template as the earlier iterations made it. *)
Fixpoint forEachStateMachine (names : list str) (tpl : Template) (n : nat)
    : result unit * Template * nat :=
  match names with
  | [] => (inr tt, tpl, n)
  | stateMachineName :: rest =>
      match compileStateMachine stateMachineName tpl n with
      | (inl e, tpl', n') => (inl e, tpl', n')
      | (inr _, tpl', n') => forEachStateMachine rest tpl' n'
      end
  end.

Definition compileStateMachines (tpl : Template) (n : nat)
    : result unit * Template * nat :=
  if isStateMachines this
  then forEachStateMachine (getAllStateMachines this) tpl n
  else (inr tt, tpl, n).
End Compile.

(* ================================================================== *)
(** ** Notions the specification uses to state its properties *)

(** The entries of a tag mapping; an absent mapping has none. *)
Definition tagEntries (o : option json) : list (str * json) :=
  match o with
  | Some (JObj kvs) => kvs
  | _ => []
  end.

(** The pair [{key, value}] of one entry, the value coerced to a string. *)
Definition tagOf (kv : str * json) (t : Tag) : Prop :=
  Key t = JStr (fst kv) /\ toString (snd kv) = inr (Value t).

(** A tag mapping that lodash iterates by key: absent, or a mapping with no
    [length] entry that [isLength] accepts. *)
Definition plainTags (o : option json) : bool :=
  match o with
  | None => true
  | Some (JObj kvs) =>
      match lookup ("length" : str) kvs with
      | Some v => negb (isLength v)
      | None => true
      end
  | Some _ => false
  end.

(** The dependencies an entry declares: a sequence, or a single value. *)
Definition declaredDependencies (o : option json) : list json :=
  match o with
  | Some (JArr l) => l
  | Some d => if truthy d then [d] else []
  | None => []
  end.

(** The input string with the escape sequences for newline and carriage
    return removed. *)
Definition withoutEscapeSequences (s : str) : str := stripEscapes s.

(** [s] without its newline and carriage-return characters. *)
Definition dropNewlines (s : str) : str :=
  filter (fun c => negb (Ascii.eqb c LF || Ascii.eqb c CR)) s.

(** No backslash of [s] is directly followed by [n] or by [r]. *)
Fixpoint noEscapeLookalike (s : str) : bool :=
  match s with
  | [] => true
  | a :: t =>
      match t with
      | [] => true
      | c :: _ =>
          negb (Ascii.eqb a bslash && (Ascii.eqb c "n"%char || Ascii.eqb c "r"%char))
          && noEscapeLookalike t
      end
  end.

(** [env] with another version-resolution collaborator. *)
Definition withConvert {Template} (this : Env Template) (f : json -> result json)
    : Env Template :=
  mkEnv Template
    (intrinsicKeys this) (chance this) (translateLocalFunctionNames this) f
    (joiValidate this) (aslValidator this) (validate this) (providerTags this)
    (isStateMachines this) (getAllStateMachines this) (getStateMachine this)
    (getStateMachineLogicalId this) (getStateMachineOutputLogicalId this)
    (mergeResources this) (mergeOutputs this).

(* ================================================================== *)
(** ** A concrete environment for examples *)

Module Sample.
(** The shape test of the examples: a key [Ref], or a key that starts
    with [Fn::]. *)
Definition awsKeys (ks : list str) : bool :=
  existsb (fun k => str_eqb k ("Ref" : str) || starts_with ("Fn::" : str) k) ks.

(** A pinned sequence of names: [aaaaaaaaaa], [bbbbbbbbbb], ... *)
Definition names (n : nat) : str :=
  repeat (nth (n mod 26) pool "a"%char) 10.

Definition noMachine : StateMachine :=
  mkStateMachine None None None None None None.

(** A template that records the merges in order. *)
Definition Template : Type := list (str * (ResourceRecord + OutputRecord)).

Definition env : Env Template :=
  mkEnv Template awsKeys names
    (fun v => v)
    (fun v => inr (JObj [("Fn::Version" : str, v)]))
    (fun _ => None)
    (fun _ => (true, JArr []))
    None None
    true [] (fun _ => noMachine)
    (fun n _ => n) (fun n _ => n ++ ("Arn" : str))
    (fun t id r => t ++ [(id, inl r)])
    (fun t id r => t ++ [(id, inr r)]).

Definition withProviderTags (this : Env Template) (t : option json) : Env Template :=
  mkEnv Template
    (intrinsicKeys this) (chance this) (translateLocalFunctionNames this)
    (convertToFunctionVersion this)
    (joiValidate this) (aslValidator this) (validate this) t
    (isStateMachines this) (getAllStateMachines this) (getStateMachine this)
    (getStateMachineLogicalId this) (getStateMachineOutputLogicalId this)
    (mergeResources this) (mergeOutputs this).

Definition withMachines (this : Env Template) (ms : list (str * StateMachine))
    : Env Template :=
  mkEnv Template
    (intrinsicKeys this) (chance this) (translateLocalFunctionNames this)
    (convertToFunctionVersion this)
    (joiValidate this) (aslValidator this) (validate this) (providerTags this)
    true (map fst ms)
    (fun n => match find (fun m => str_eqb n (fst m)) ms with
              | Some m => snd m
              | None => noMachine
              end)
    (getStateMachineLogicalId this) (getStateMachineOutputLogicalId this)
    (mergeResources this) (mergeOutputs this).

Definition withValidation (this : Env Template)
    (joi : StateMachine -> option str) (asl : json -> bool * json) (flag : option json)
    : Env Template :=
  mkEnv Template
    (intrinsicKeys this) (chance this) (translateLocalFunctionNames this)
    (convertToFunctionVersion this)
    joi asl flag (providerTags this)
    (isStateMachines this) (getAllStateMachines this) (getStateMachine this)
    (getStateMachineLogicalId this) (getStateMachineOutputLogicalId this)
    (mergeResources this) (mergeOutputs this).

(** The end-to-end example of the specification. *)
Definition helloDefinition : json :=
  JObj [("StartAt" : str, JStr "X");
        ("States" : str,
         JObj [("X" : str,
                JObj [("Type" : str, JStr "Task");
                      ("Resource" : str,
                       JObj [("Fn::GetAtt" : str, JArr [JStr "Fn1"; JStr "Arn"])]);
                      ("End" : str, JBool true)])])].

Definition hello : StateMachine :=
  mkStateMachine (Some helloDefinition) None None None None None.

Definition helloExact : StateMachine :=
  mkStateMachine (Some helloDefinition) None None None None (Some (JBool true)).

(** [useExactVersion: 'true'], a string. *)
Definition helloQuoted : StateMachine :=
  mkStateMachine (Some helloDefinition) None None None None (Some (JStr "true")).

(** [useExactVersion: 1] *)
Definition helloOne : StateMachine :=
  mkStateMachine (Some helloDefinition) None None None None (Some (JNum 1)).

(** No definition, [useExactVersion: true]. *)
Definition bare : StateMachine :=
  mkStateMachine None None None None None (Some (JBool true)).

(** A role of its own and two declared dependencies, one of them twice. *)
Definition withRole : StateMachine :=
  mkStateMachine (Some helloDefinition)
    (Some (JStr "arn:aws:iam::1:role/r"))
    (Some (JArr [JStr "B"; JStr "A"; JStr "B"])) None None None.

(** No role and a single declared dependency. *)
Definition withDependency : StateMachine :=
  mkStateMachine (Some helloDefinition) None (Some (JStr "Topic")) None None None.

Definition tagsA : json := JObj [("a" : str, JNum 1)].
Definition tagsB : json := JObj [("b" : str, JNum 2)].

(** [tags: { length: 0 }] *)
Definition tagsLength : json := JObj [("length" : str, JNum 0)].

Definition tagged : StateMachine :=
  mkStateMachine (Some helloDefinition) None None (Some tagsB) None None.

(** A definition given as a string. *)
Definition literal : StateMachine :=
  mkStateMachine (Some (JStr "abc")) None None None None None.

Definition twoLines : StateMachine :=
  mkStateMachine (Some (JStr ["{"%char; LF; CR; "}"%char])) None None None None None.

(** A schema that refuses entries with a [name], and a linter that
    refuses every definition. *)
Definition strict : Env Template :=
  withValidation env
    (fun obj => match name obj with
                | Some _ => Some ("name is not allowed" : str)
                | None => None
                end)
    (fun _ => (false, JArr [JStr "no StartAt"]))
    None.

Definition linting : Env Template :=
  withValidation env (fun _ => None) (fun _ => (false, JArr [JStr "no StartAt"]))
    (Some (JBool true)).

Definition named : StateMachine :=
  mkStateMachine (Some helloDefinition) None None None (Some (JStr "n")) None.

(** An array of references under a key. *)
Definition refsInArray : json :=
  JObj [("Branches" : str, JArr [JObj [("Ref" : str, JStr "Topic")]])].

(** A reference as the whole document. *)
Definition refAtRoot : json := JObj [("Ref" : str, JStr "Topic")].

(** A definition without any reference. *)
Definition plainDefinition : json :=
  JObj [("StartAt" : str, JStr "X");
        ("States" : str,
         JObj [("X" : str,
                JObj [("Type" : str, JStr "Wait");
                      ("Seconds" : str, JNum 10);
                      ("Comment" : str, JStr ["a"%char; LF; dquote; "b"%char]);
                      ("Choices" : str, JArr [JNum (-1); JNull; JArr []; JObj []]);
                      ("End" : str, JBool true)])])].

(** A comment that already holds a marker, its name shaped like the names
    of [randomName]. *)
Definition ownMarker : json :=
  JObj [("Comment" : str, JStr "${Qm3kTz81Lp}");
        ("Resource" : str, JObj [("Ref" : str, JStr "Topic")])].
End Sample.

(* ================================================================== *)
(** ** Nodes, markers and documents *)

(** Every node reachable in a document, the root first. *)
Fixpoint nodes (v : json) : list json :=
  v :: match v with
       | JArr l => flat_map nodes l
       | JObj kvs => flat_map (fun kv => nodes (snd kv)) kvs
       | _ => []
       end.

(** Every value stored under a key of a mapping, anywhere in a document. *)
Fixpoint propertyValues (v : json) : list json :=
  match v with
  | JArr l => flat_map propertyValues l
  | JObj kvs => flat_map (fun kv => snd kv :: propertyValues (snd kv)) kvs
  | _ => []
  end.

Fixpoint distinct (l : list str) : bool :=
  match l with
  | [] => true
  | a :: r => negb (existsb (str_eqb a) r) && distinct r
  end.

(** Every mapping has pairwise different keys, as a JavaScript object has. *)
Fixpoint uniqueKeys (v : json) : bool :=
  match v with
  | JArr l => forallb uniqueKeys l
  | JObj kvs =>
      distinct (map fst kvs) && forallb (fun kv => uniqueKeys (snd kv)) kvs
  | _ => true
  end.

(** The text up to the first [c], and the text after it. *)
Fixpoint upto (c : ascii) (s : str) : option (str * str) :=
  match s with
  | [] => None
  | a :: r =>
      if Ascii.eqb a c then Some ([], r)
      else match upto c r with
           | Some (t, rest) => Some (a :: t, rest)
           | None => None
           end
  end.

(** The names [t] of the markers [${t}] of a text, in the order of their
    occurrence: after each [${], the text up to the next closing brace. *)
Fixpoint markers (text : str) : list str :=
  match text with
  | [] => []
  | _ :: rest =>
      (if starts_with ("${" : str) text
       then match upto "}"%char (skipn 2 text) with
            | Some (t, _) => [t]
            | None => []
            end
       else [])
      ++ markers rest
  end.

Definition textOf (ds : DefString) : str :=
  match ds with
  | Text s => s
  | FnSub definitionString _ => definitionString
  end.

(** The parameter map that accompanies a definition text; a plain string
    has none. *)
Definition paramsOf (ds : DefString) : list (str * json) :=
  match ds with
  | Text _ => []
  | FnSub _ params => params
  end.

(** A name that [randomName] can return: ten characters of the pool. *)
Definition poolName (s : str) : Prop :=
  List.length s = 10 /\ Forall (fun c => In c pool) s.

(** The values directly below a node: the elements of an array, the values
    of the properties of a mapping, in the order of enumeration. *)
Definition children (v : json) : list json :=
  match v with
  | JArr l => l
  | JObj kvs => map snd kvs
  | _ => []
  end.

(** The node at a position of a document: a position is the list of the
    indices to follow from the root, each among the children of the node
    before. *)
Fixpoint subtree (v : json) (p : list nat) : option json :=
  match p with
  | [] => Some v
  | i :: q =>
      match nth_error (children v) i with
      | Some c => subtree c q
      | None => None
      end
  end.

(** How [getIntrinsicFunctions] comes to a node: as the [obj] whose
    properties it enumerates, or as the [value = obj[key]] that the body of
    its loop tests. *)
Inductive arrival : Type := Enumerated | Tested.

Section Positions.
Context {Template : Type}.
Variable this : Env Template.

(** How the traversal, having come to [v] as [m], comes to the position [p]
    below [v]; [None] when it does not get there. Lines 38-40: every
    property of an enumerated node is tested. Lines 42-49: every element of
    a tested array is enumerated. Lines 50-54: a tested reference is
    replaced, and nothing below it is looked at. Lines 55-59: any other
    tested object is enumerated. *)
Fixpoint arrives (m : arrival) (v : json) (p : list nat) : option arrival :=
  match p with
  | [] => Some m
  | i :: q =>
      match nth_error (children v) i with
      | None => None
      | Some c =>
          match m, v with
          | Enumerated, _ => arrives Tested c q
          | Tested, JArr _ => arrives Enumerated c q
          | Tested, JObj _ => if isIntrinsic this v then None else arrives Tested c q
          | Tested, _ => None
          end
      end
  end.
End Positions.

Section Survivors.
Context {Template : Type}.
Variable this : Env Template.

Definition hasSubOpen (s : str) : bool := occursb ("${" : str) s.

(** The part of [freeOfMarkers] for one property value, following [visit]. *)
Definition freeValue (self : json -> bool) (value : json) : bool :=
  match value with
  | JArr elems => forallb self elems
  | JStr s => negb (hasSubOpen s)
  | JObj _ => if isIntrinsic this value then true else self value
  | _ => true
  end.

(** No key and no string value that extraction leaves in the document
    contains [${]; what lies inside a reference that extraction replaces
    is not looked at. *)
Fixpoint freeOfMarkers (obj : json) : bool :=
  match obj with
  | JObj kvs =>
      forallb (fun kv => negb (hasSubOpen (fst kv)) && freeValue freeOfMarkers (snd kv)) kvs
  | JArr l => forallb (freeValue freeOfMarkers) l
  | JStr s => negb (hasSubOpen s)
  | _ => true
  end.
End Survivors.

(* ================================================================== *)
(** ** Texts whose markers are known *)

(** A string of the document after extraction: free of [${], or the marker
    of one of the names [toks]. *)
Definition okStr (toks : list str) (s : str) : Prop :=
  hasSubOpen s = false \/ exists t, In t toks /\ s = marker t.

Definition okTree (toks : list str) (v : json) : Prop :=
  (forall s, In (JStr s) (nodes v) -> okStr toks s)
  /\ (forall kvs k, In (JObj kvs) (nodes v) -> In k (map fst kvs) -> hasSubOpen k = false).

(** Every [${] of the text opens the marker of one of the names [toks]. *)
Definition Guarded (toks : list str) (text : str) : Prop :=
  forall pre post,
    text = pre ++ "$"%char :: "{"%char :: post ->
    exists t rest, In t toks /\ post = t ++ "}"%char :: rest.

(** A guarded text that does not end in a dollar sign: such texts can be
    put one after the other. *)
Definition Safe (toks : list str) (text : str) : Prop :=
  Guarded toks text /\ forall pre, text <> pre ++ ["$"%char].

(* ================================================================== *)
(** ** JSON.parse *)

(** Modelled from the specification's words (the text, when parsed back):
    [JSON.parse] of ECMAScript on the values of the model. Numbers with a
    fraction or an exponent and code units above 255 have no value in the
    model and are refused. *)

Definition isWs (c : ascii) : bool :=
  let n := nat_of_ascii c in
  ((n =? 32) || (n =? 9) || (n =? 10) || (n =? 13))%nat.

Fixpoint skipWs (s : str) : str :=
  match s with
  | [] => []
  | c :: r => if isWs c then skipWs r else s
  end.

Definition isDigit (c : ascii) : bool :=
  let n := nat_of_ascii c in ((48 <=? n) && (n <=? 57))%nat.

Definition hexVal (c : ascii) : option nat :=
  let n := nat_of_ascii c in
  if ((48 <=? n) && (n <=? 57))%nat then Some (n - 48)
  else if ((97 <=? n) && (n <=? 102))%nat then Some (n - 87)
  else if ((65 <=? n) && (n <=? 70))%nat then Some (n - 55)
  else None.

(** The character an escape letter stands for. *)
Definition unescape (e : ascii) : option ascii :=
  let n := nat_of_ascii e in
  if (n =? 34)%nat then Some dquote
  else if (n =? 92)%nat then Some bslash
  else if (n =? 47)%nat then Some "/"%char
  else if (n =? 98)%nat then Some "008"%char
  else if (n =? 102)%nat then Some "012"%char
  else if (n =? 110)%nat then Some LF
  else if (n =? 114)%nat then Some CR
  else if (n =? 116)%nat then Some "009"%char
  else None.

(** The characters of a string literal after its opening quote, and the
    text after its closing quote. *)
Fixpoint parseChars (s : str) : option (str * str) :=
  match s with
  | [] => None
  | c :: r =>
      if Ascii.eqb c dquote then Some ([], r)
      else if Ascii.eqb c bslash then
        match r with
        | [] => None
        | e :: r1 =>
            if Ascii.eqb e "u"%char then
              match r1 with
              | h1 :: h2 :: h3 :: h4 :: r2 =>
                  match hexVal h1, hexVal h2, hexVal h3, hexVal h4 with
                  | Some a, Some b, Some c', Some d =>
                      let code := ((a * 16 + b) * 16 + c') * 16 + d in
                      if (code <? 256)%nat then
                        match parseChars r2 with
                        | Some (t, rest) => Some (ascii_of_nat code :: t, rest)
                        | None => None
                        end
                      else None
                  | _, _, _, _ => None
                  end
              | _ => None
              end
            else
              match unescape e with
              | Some ch =>
                  match parseChars r1 with
                  | Some (t, rest) => Some (ch :: t, rest)
                  | None => None
                  end
              | None => None
              end
        end
      else if (nat_of_ascii c <? 32)%nat then None
      else
        match parseChars r with
        | Some (t, rest) => Some (c :: t, rest)
        | None => None
        end
  end.

Fixpoint spanDigits (s : str) : str * str :=
  match s with
  | [] => ([], [])
  | c :: r =>
      if isDigit c then let '(ds, rest) := spanDigits r in (c :: ds, rest)
      else ([], s)
  end.

(** What may not follow the digits of an integer of the model. *)
Definition continuesNumber (rest : str) : bool :=
  match rest with
  | [] => false
  | c :: _ => isDigit c || Ascii.eqb c "."%char || Ascii.eqb c "e"%char || Ascii.eqb c "E"%char
  end.

(** The digits of an integer, after its sign. *)
Definition parseDigits (negative : bool) (s : str) : option (Z * str) :=
  let '(ds, rest) := spanDigits s in
  match ds with
  | [] => None
  | d :: more =>
      if Ascii.eqb d "0"%char && negb (match more with [] => true | _ => false end)
      then None                                   (* a leading zero *)
      else if continuesNumber rest then None
      else
        match NilEmpty.uint_of_string (string_of_list_ascii ds) with
        | Some u => Some (if negative then (- Z.of_uint u)%Z else Z.of_uint u, rest)
        | None => None
        end
  end.

Definition parseNumber (s : str) : option (Z * str) :=
  match s with
  | c :: r => if Ascii.eqb c "-"%char then parseDigits true r else parseDigits false s
  | [] => None
  end.

Fixpoint parseValue (fuel : nat) (s : str) {struct fuel} : option (json * str) :=
  match fuel with
  | O => None
  | S fuel' =>
      match skipWs s with
      | [] => None
      | c :: r =>
          if Ascii.eqb c "{"%char then
            match skipWs r with
            | c' :: r' =>
                if Ascii.eqb c' "}"%char then Some (JObj [], r')
                else match parseMembers fuel' r with
                     | Some (ms, rest) => Some (JObj (fromPairs ms), rest)
                     | None => None
                     end
            | [] => None
            end
          else if Ascii.eqb c "["%char then
            match skipWs r with
            | c' :: r' =>
                if Ascii.eqb c' "]"%char then Some (JArr [], r')
                else match parseElements fuel' r with
                     | Some (es, rest) => Some (JArr es, rest)
                     | None => None
                     end
            | [] => None
            end
          else if Ascii.eqb c dquote then
            match parseChars r with
            | Some (t, rest) => Some (JStr t, rest)
            | None => None
            end
          else if starts_with ("null" : str) (c :: r) then Some (JNull, skipn 4 (c :: r))
          else if starts_with ("true" : str) (c :: r) then Some (JBool true, skipn 4 (c :: r))
          else if starts_with ("false" : str) (c :: r) then Some (JBool false, skipn 5 (c :: r))
          else
            match parseNumber (c :: r) with
            | Some (z, rest) => Some (JNum z, rest)
            | None => None
            end
      end
  end

with parseElements (fuel : nat) (s : str) {struct fuel} : option (list json * str) :=
  match fuel with
  | O => None
  | S fuel' =>
      match parseValue fuel' s with
      | Some (v, r) =>
          match skipWs r with
          | c :: r' =>
              if Ascii.eqb c ","%char then
                match parseElements fuel' r' with
                | Some (vs, rest) => Some (v :: vs, rest)
                | None => None
                end
              else if Ascii.eqb c "]"%char then Some ([v], r')
              else None
          | [] => None
          end
      | None => None
      end
  end

with parseMembers (fuel : nat) (s : str) {struct fuel} : option (list (str * json) * str) :=
  match fuel with
  | O => None
  | S fuel' =>
      match skipWs s with
      | q :: r =>
          if Ascii.eqb q dquote then
            match parseChars r with
            | Some (k, r1) =>
                match skipWs r1 with
                | colon :: r2 =>
                    if Ascii.eqb colon ":"%char then
                      match parseValue fuel' r2 with
                      | Some (v, r3) =>
                          match skipWs r3 with
                          | c :: r4 =>
                              if Ascii.eqb c ","%char then
                                match parseMembers fuel' r4 with
                                | Some (ms, rest) => Some ((k, v) :: ms, rest)
                                | None => None
                                end
                              else if Ascii.eqb c "}"%char then Some ([(k, v)], r4)
                              else None
                          | [] => None
                          end
                      | None => None
                      end
                    else None
                | [] => None
                end
            | None => None
            end
          else None
      | [] => None
      end
  end.

(** The recursion depth that parsing the text of a value asks for. *)
Fixpoint weight (v : json) : nat :=
  match v with
  | JArr l => S (list_sum (map (fun e => S (weight e)) l))
  | JObj kvs => S (list_sum (map (fun kv => S (weight (snd kv))) kvs))
  | _ => 1
  end.

Definition blank (s : str) : Prop := Forall (fun c => isWs c = true) s.

(** [JSON.parse(text)]; [None] is a [SyntaxError]. *)
Definition JSON_parse (text : str) : option json :=
  match parseValue (S (List.length text)) text with
  | Some (v, rest) =>
      match skipWs rest with
      | [] => Some v
      | _ => None
      end
  | None => None
  end.

(** The text [ser v] of a value, after blanks and before a text that does
    not continue a number, parses back to the value. *)
Definition parsesBack (ser : json -> str) (v : json) : Prop :=
  forall pad rest fuel,
    blank pad -> weight v <= fuel -> continuesNumber rest = false ->
    parseValue fuel (pad ++ ser v ++ rest) = Some (v, rest).

(* ================================================================== *)
(** ** Putting the references back *)

(** The document in which every string that is the marker of a name of
    [pairs] is replaced by the reference paired with that name (the first
    pair of the name). *)
Fixpoint restore (pairs : list (str * json)) (v : json) : json :=
  match v with
  | JStr s =>
      match find (fun kv => str_eqb s (marker (fst kv))) pairs with
      | Some kv => snd kv
      | None => JStr s
      end
  | JArr l => JArr (map (restore pairs) l)
  | JObj kvs => JObj (map (fun kv => (fst kv, restore pairs (snd kv))) kvs)
  | _ => v
  end.

(** Further entries and environments for examples. *)
Module More.
(** [names] with every name drawn twice: [aaaaaaaaaa], [aaaaaaaaaa],
    [bbbbbbbbbb], ... *)
Definition stutter (n : nat) : str := Sample.names (n / 2).

Definition withChance (this : Env Sample.Template) (c : nat -> str)
    : Env Sample.Template :=
  mkEnv Sample.Template
    (intrinsicKeys this) c (translateLocalFunctionNames this)
    (convertToFunctionVersion this)
    (joiValidate this) (aslValidator this) (validate this) (providerTags this)
    (isStateMachines this) (getAllStateMachines this) (getStateMachine this)
    (getStateMachineLogicalId this) (getStateMachineOutputLogicalId this)
    (mergeResources this) (mergeOutputs this).

(** Two states, each with a reference, and a list of references. *)
Definition twoTasks : json :=
  JObj [("StartAt" : str, JStr "A");
        ("States" : str,
         JObj [("A" : str,
                JObj [("Type" : str, JStr "Task");
                      ("Resource" : str,
                       JObj [("Fn::GetAtt" : str, JArr [JStr "Fn1"; JStr "Arn"])]);
                      ("Next" : str, JStr "B")]);
               ("B" : str,
                JObj [("Type" : str, JStr "Task");
                      ("Resource" : str, JObj [("Ref" : str, JStr "Topic")]);
                      ("Parameters" : str,
                       JObj [("List" : str, JArr [JArr [JObj [("Ref" : str, JStr "Q")]]]);
                             ("Path.$" : str, JStr "$.input")]);
                      ("End" : str, JBool true)])])].

Definition twoTasksEntry : StateMachine :=
  mkStateMachine (Some twoTasks) None None None None (Some (JBool true)).

(** A version collaborator that knows no version. *)
Definition unversioned : Env Sample.Template :=
  withConvert Sample.env (fun _ => inl (Thrown ("no version" : str))).

(** Provider-level tags with an empty value, as YAML reads [owner:]. *)
Definition emptyTag : json :=
  JObj [("team" : str, JStr "core"); ("owner" : str, JNull)].

(** A definition given as a string over two lines. *)
Definition twoLineText : str :=
  ["{"%char; dquote; "a"%char; dquote; ":"%char; LF; " "%char; "1"%char; "}"%char; CR; LF].

Definition twoLineEntry : StateMachine :=
  mkStateMachine (Some (JStr twoLineText)) None None None (Some (JStr "flow")) None.

Definition noDefinition : StateMachine :=
  mkStateMachine None None None None (Some (JStr "")) None.
End More.

(* ================================================================== *)
(** * Properties *)

(** ** Results and lists *)

Lemma rmap_inr_Forall2 {A B} (f : A -> result B) (l : list A) (bs : list B) :
  rmap f l = inr bs -> Forall2 (fun a b => f a = inr b) l bs.
Proof.
  revert bs; induction l as [|a l IH]; simpl; intros bs H.
  - inversion H; constructor.
  - destruct (f a) as [e|b] eqn:Ha; simpl in H; [discriminate|].
    destruct (rmap f l) as [e|bs'] eqn:Hl; simpl in H; [discriminate|].
    inversion H; subst. constructor; auto.
Qed.

Lemma rmap_inl_In {A B} (f : A -> result B) (l : list A) (e : exn) :
  rmap f l = inl e -> exists a, In a l /\ f a = inl e.
Proof.
  induction l as [|a l IH]; simpl; intros H; [discriminate|].
  destruct (f a) as [e'|b] eqn:Ha; simpl in H.
  - inversion H; subst. exists a; auto.
  - destruct (rmap f l) as [e'|bs'] eqn:Hl; simpl in H; [|discriminate].
    inversion H; subst. destruct (IH eq_refl) as [x [Hx Hfx]]. exists x; auto.
Qed.

Lemma str_eqb_eq (a b : str) : str_eqb a b = true <-> a = b.
Proof.
  unfold str_eqb. destruct (list_eq_dec ascii_dec a b); split; congruence.
Qed.

Lemma str_eqb_refl (a : str) : str_eqb a a = true.
Proof. apply str_eqb_eq; reflexivity. Qed.

Lemma occurs_refl (s : str) : occurs s s.
Proof. exists [], []. rewrite app_nil_r. reflexivity. Qed.

Lemma occurs_app_l (x a b : str) : occurs x a -> occurs x (a ++ b).
Proof.
  intros [pre [post ->]]. exists pre, (post ++ b).
  now rewrite <- !app_assoc.
Qed.

Lemma occurs_app_r (x a b : str) : occurs x b -> occurs x (a ++ b).
Proof.
  intros [pre [post ->]]. exists (a ++ pre), post.
  now rewrite <- !app_assoc.
Qed.

Lemma occurs_trans (x y z : str) : occurs x y -> occurs y z -> occurs x z.
Proof.
  intros [p1 [q1 ->]] [p2 [q2 ->]]. exists (p2 ++ p1), (q1 ++ q2).
  now rewrite <- !app_assoc.
Qed.

(* ================================================================== *)
(** ** The stages of compileRecord *)

Section Stages.
Context {Template : Type}.
Variable this : Env Template.

(** A record is produced exactly when every stage succeeds, and it is
    built from the results of the stages. *)
Lemma compileRecord_inv (stateMachineName : str) (obj : StateMachine)
      (n n' : nat) (r : ResourceRecord) :
  compileRecord this stateMachineName obj n = (inr r, n') ->
  exists Tags0 ds ds' Tags1,
    toTags (providerTags this) = inr Tags0 /\
    joiValidate this obj = None /\
    compileDefinition this stateMachineName obj n = (inr ds, n') /\
    pinVersions this obj ds = inr ds' /\
    resolveTags obj Tags0 = inr Tags1 /\
    r = mkResource resourceType ds' (fst (resolveRole obj)) Tags1
          (if truthyOpt (name obj) then name obj else None)
          (resolveDependsOn obj (snd (resolveRole obj))).
Proof.
  unfold compileRecord. intros H.
  destruct (toTags (providerTags this)) as [e|Tags0] eqn:H1; [inversion H|].
  destruct (joiValidate this obj) as [e|] eqn:H2; [inversion H|].
  destruct (compileDefinition this stateMachineName obj n) as [[e|ds] m] eqn:H3;
    [inversion H|].
  destruct (pinVersions this obj ds) as [e|ds'] eqn:H4; [inversion H|].
  destruct (resolveRole obj) as [RoleArn0 DependsOn0].
  destruct (resolveTags obj Tags0) as [e|Tags1] eqn:H5; [inversion H|].
  inversion H; subst. exists Tags0, ds, ds', Tags1. simpl. repeat split; auto.
Qed.

Lemma compileRecord_ok (stateMachineName : str) (obj : StateMachine) (n n' : nat)
      Tags0 ds ds' Tags1 :
  toTags (providerTags this) = inr Tags0 ->
  joiValidate this obj = None ->
  compileDefinition this stateMachineName obj n = (inr ds, n') ->
  pinVersions this obj ds = inr ds' ->
  resolveTags obj Tags0 = inr Tags1 ->
  compileRecord this stateMachineName obj n =
    (inr (mkResource resourceType ds' (fst (resolveRole obj)) Tags1
            (if truthyOpt (name obj) then name obj else None)
            (resolveDependsOn obj (snd (resolveRole obj)))), n').
Proof.
  intros H1 H2 H3 H4 H5. unfold compileRecord.
  rewrite H1, H2, H3, H4. destruct (resolveRole obj). rewrite H5. reflexivity.
Qed.

Lemma pinVersions_other (obj : StateMachine) (ds : option DefString) :
  useExactVersion obj <> Some (JBool true) -> pinVersions this obj ds = inr ds.
Proof.
  unfold pinVersions. intros H.
  destruct (useExactVersion obj) as [[| [|] | | | |]|]; try reflexivity.
  congruence.
Qed.
End Stages.

(* ================================================================== *)
(** ** The version pinner *)

(** C4. The version pinner: without the flag it returns the assembled
    definition unchanged; with the flag a plain string is left as it is and
    every value of the parameter map of a substitution template is handed to
    the version-resolution collaborator, the keys and the text being kept (a
    failure of the collaborator is the failure of the pinner); and the
    definition of a compiled record is the pinner's result on the assembled
    definition. *)
Theorem version_pinner {Template : Type} (this : Env Template) (obj : StateMachine) :
  (useExactVersion obj <> Some (JBool true) ->
   forall ds, pinVersions this obj ds = inr ds)
  /\
  (useExactVersion obj = Some (JBool true) ->
   (forall s, pinVersions this obj (Some (Text s)) = inr (Some (Text s)))
   /\
   (forall text params,
      match pinVersions this obj (Some (FnSub text params)) with
      | inr r =>
          exists params',
            r = Some (FnSub text params') /\
            Forall2 (fun kv kv' =>
                       fst kv' = fst kv /\
                       convertToFunctionVersion this (snd kv) = inr (snd kv'))
                    params params'
      | inl e =>
          exists kv, In kv params /\ convertToFunctionVersion this (snd kv) = inl e
      end))
  /\
  (forall stateMachineName n r n',
     compileRecord this stateMachineName obj n = (inr r, n') ->
     exists ds,
       compileDefinition this stateMachineName obj n = (inr ds, n') /\
       pinVersions this obj ds = inr (DefinitionString r)).
Proof.
  split; [|split].
  - intros H ds. now apply pinVersions_other.
  - intros H. split.
    + intros s. unfold pinVersions. rewrite H. reflexivity.
    + intros text params. unfold pinVersions. rewrite H.
      destruct (rmap _ params) as [e|converted] eqn:Hmap; simpl.
      * apply rmap_inl_In in Hmap. destruct Hmap as [kv [Hin Hkv]].
        exists kv. split; [assumption|].
        destruct (convertToFunctionVersion this (snd kv)) eqn:Hc; simpl in Hkv;
          congruence.
      * exists converted. split; [reflexivity|].
        apply rmap_inr_Forall2 in Hmap.
        induction Hmap as [|kv kv' l l' Hkv _ IH]; constructor; [|assumption].
        destruct (convertToFunctionVersion this (snd kv)) eqn:Hc; simpl in Hkv;
          [discriminate|]. inversion Hkv; subst. simpl. auto.
  - intros stateMachineName n r n' H.
    apply compileRecord_inv in H.
    destruct H as (Tags0 & ds & ds' & Tags1 & _ & _ & Hd & Hp & _ & ->).
    exists ds. simpl. auto.
Qed.

Lemma version_pinner_witness :
  pinVersions Sample.env Sample.hello (Some (FnSub [] [([], JNull)]))
    = inr (Some (FnSub [] [([], JNull)]))
  /\ pinVersions Sample.env Sample.helloExact (Some (Text ("x" : str)))
    = inr (Some (Text ("x" : str))).
Proof.
  destruct (version_pinner Sample.env Sample.hello) as [H1 _].
  destruct (version_pinner Sample.env Sample.helloExact) as [_ [H2 _]].
  split.
  - apply H1. simpl. discriminate.
  - apply (H2 eq_refl).
Defined.

(** C9. Version pinning is applied only when [useExactVersion] is the
    boolean [true]: with any other value the version-resolution collaborator
    has no part in the result, and the record holds the assembled definition
    with its parameter map as the assembler built it. *)
Theorem exact_version_only_on_true {Template : Type} (this : Env Template)
    (stateMachineName : str) (obj : StateMachine) (n : nat) :
  useExactVersion obj <> Some (JBool true) ->
  (forall f, compileRecord (withConvert this f) stateMachineName obj n
             = compileRecord this stateMachineName obj n)
  /\
  (forall r n', compileRecord this stateMachineName obj n = (inr r, n') ->
                compileDefinition this stateMachineName obj n
                = (inr (DefinitionString r), n')).
Proof.
  intros H. split.
  - intros f. unfold compileRecord.
    change (toTags (providerTags (withConvert this f))) with (toTags (providerTags this)).
    change (joiValidate (withConvert this f)) with (joiValidate this).
    change (compileDefinition (withConvert this f)) with (compileDefinition this).
    destruct (toTags (providerTags this)); [reflexivity|].
    destruct (joiValidate this obj); [reflexivity|].
    destruct (compileDefinition this stateMachineName obj n) as [[e|ds] m]; [reflexivity|].
    rewrite (pinVersions_other (withConvert this f) obj _ H).
    now rewrite (pinVersions_other this obj _ H).
  - intros r n' Hr. apply compileRecord_inv in Hr.
    destruct Hr as (Tags0 & ds & ds' & Tags1 & _ & _ & Hd & Hp & _ & ->).
    rewrite (pinVersions_other this obj _ H) in Hp. inversion Hp; subst.
    exact Hd.
Qed.

Lemma exact_version_only_on_true_witness :
  (exists text v,
     fst (compileDefinition Sample.env ("hello" : str) Sample.helloQuoted 0)
     = inr (Some (FnSub text [(Sample.names 0, v)])) /\
     v = JObj [("Fn::GetAtt" : str, JArr [JStr "Fn1"; JStr "Arn"])])
  /\ compileRecord (withConvert Sample.env (fun _ => inl TypeError))
       ("hello" : str) Sample.helloQuoted 0
     = compileRecord Sample.env ("hello" : str) Sample.helloQuoted 0
  /\ compileRecord (withConvert Sample.env (fun _ => inl TypeError))
       ("hello" : str) Sample.helloOne 0
     = compileRecord Sample.env ("hello" : str) Sample.helloOne 0.
Proof.
  split; [|split].
  - eexists; eexists; split; vm_compute; reflexivity.
  - apply (exact_version_only_on_true Sample.env ("hello" : str) Sample.helloQuoted 0).
    simpl. discriminate.
  - apply (exact_version_only_on_true Sample.env ("hello" : str) Sample.helloOne 0).
    simpl. discriminate.
Defined.

(** C10. An entry that passes schema validation, has no definition and
    sets [useExactVersion] to [true] makes the compilation fail with a
    [TypeError]: the test for a substitution template reads a property of an
    undefined definition string. *)
Theorem exact_version_without_definition {Template : Type} (this : Env Template)
    (stateMachineName : str) (obj : StateMachine) (n : nat) (Tags0 : list Tag) :
  toTags (providerTags this) = inr Tags0 ->
  joiValidate this obj = None ->
  definition obj = None ->
  useExactVersion obj = Some (JBool true) ->
  compileDefinition this stateMachineName obj n = (inr None, n)
  /\ pinVersions this obj None = inl TypeError
  /\ compileRecord this stateMachineName obj n = (inl TypeError, n).
Proof.
  intros Ht Hj Hd Hu.
  assert (Hc : compileDefinition this stateMachineName obj n = (inr None, n)).
  { unfold compileDefinition. now rewrite Hd. }
  assert (Hp : pinVersions this obj None = inl TypeError).
  { unfold pinVersions. now rewrite Hu. }
  repeat split; try assumption.
  unfold compileRecord. now rewrite Ht, Hj, Hc, Hp.
Qed.

Lemma exact_version_without_definition_witness :
  compileRecord Sample.env ("bare" : str) Sample.bare 7 = (inl TypeError, 7).
Proof.
  apply (exact_version_without_definition Sample.env ("bare" : str) Sample.bare 7 []);
    reflexivity.
Defined.

(* ================================================================== *)
(** ** Role and dependencies *)

(** C6. The role and the dependency list of a compiled record: a role the
    entry supplies is used as it is and adds no dependency; otherwise the
    role is the attribute [Arn] of [IamRoleStateMachineExecution] and that
    name is the first dependency. The dependencies the entry declares (a
    sequence or a single value) follow in their order, repetitions kept. *)
Theorem role_and_dependencies {Template : Type} (this : Env Template)
    (stateMachineName : str) (obj : StateMachine) (n n' : nat) (r : ResourceRecord) :
  compileRecord this stateMachineName obj n = (inr r, n') ->
  (truthyOpt (role obj) = true ->
     Some (RoleArn r) = role obj /\
     DependsOn r = declaredDependencies (dependsOn obj))
  /\
  (truthyOpt (role obj) = false ->
     RoleArn r = JObj [("Fn::GetAtt" : str,
                        JArr [JStr ("IamRoleStateMachineExecution" : str);
                              JStr ("Arn" : str)])] /\
     DependsOn r = JStr ("IamRoleStateMachineExecution" : str)
                   :: declaredDependencies (dependsOn obj)).
Proof.
  intros H. apply compileRecord_inv in H.
  destruct H as (Tags0 & ds & ds' & Tags1 & _ & _ & _ & _ & _ & ->). simpl.
  assert (Hdep : forall l, resolveDependsOn obj l = l ++ declaredDependencies (dependsOn obj)).
  { intros l. unfold resolveDependsOn, declaredDependencies.
    destruct (dependsOn obj) as [d|]; [|now rewrite app_nil_r].
    destruct d; simpl; try reflexivity;
      repeat match goal with
             | |- context [if ?b then _ else _] => destruct b
             end; simpl; try reflexivity; now rewrite app_nil_r. }
  rewrite Hdep. unfold resolveRole, truthyOpt.
  destruct (role obj) as [ro|]; simpl.
  - destruct (truthy ro); simpl; split; intros Ht; try discriminate; auto.
  - split; intros Ht; try discriminate; auto.
Qed.

Lemma role_and_dependencies_witness :
  (exists r n', compileRecord Sample.env ("m" : str) Sample.withRole 0 = (inr r, n') /\
     RoleArn r = JStr ("arn:aws:iam::1:role/r" : str) /\
     DependsOn r = [JStr ("B" : str); JStr ("A" : str); JStr ("B" : str)])
  /\
  (exists r n', compileRecord Sample.env ("m" : str) Sample.withDependency 0 = (inr r, n') /\
     DependsOn r = [JStr ("IamRoleStateMachineExecution" : str); JStr ("Topic" : str)]).
Proof.
  split.
  - destruct (compileRecord Sample.env ("m" : str) Sample.withRole 0) as [[e|r] n'] eqn:E;
      [vm_compute in E; discriminate|].
    exists r, n'. split; [reflexivity|].
    destruct (role_and_dependencies Sample.env _ _ _ _ _ E) as [[H1 H2] _]; [reflexivity|].
    split; [|exact H2]. simpl in H1. now inversion H1.
  - destruct (compileRecord Sample.env ("m" : str) Sample.withDependency 0) as [[e|r] n'] eqn:E;
      [vm_compute in E; discriminate|].
    exists r, n'. split; [reflexivity|].
    destruct (role_and_dependencies Sample.env _ _ _ _ _ E) as [_ [_ H2]]; [reflexivity|].
    exact H2.
Defined.

(* ================================================================== *)
(** ** Tags *)

Lemma toTags_plain (o : option json) (ts : list Tag) :
  plainTags o = true -> toTags o = inr ts -> Forall2 tagOf (tagEntries o) ts.
Proof.
  destruct o as [[| | | | |kvs]|]; try (simpl; discriminate).
  - unfold plainTags, toTags, forEachTag, tagEntries, truthy. intros Hp H.
    assert (Hr : rmap (fun kv => rbind (toString (snd kv))
                                       (fun s => inr (mkTag (JStr (fst kv)) s))) kvs
                 = inr ts).
    { destruct (lookup ("length" : str) kvs) as [v|]; [|exact H].
      destruct v; try exact H.
      destruct (isLength (JNum z)); [discriminate|exact H]. }
    apply rmap_inr_Forall2 in Hr. clear Hp H.
    induction Hr as [|kv t l l' Hkv _ IH]; constructor; [|assumption].
    unfold tagOf. destruct (toString (snd kv)); simpl in Hkv; [discriminate|].
    inversion Hkv; subst; simpl. auto.
  - simpl. intros _ H. inversion H. constructor.
Qed.

(** X12. For tag mappings that lodash iterates by key, that is, without a
    [length] entry holding a non-negative integer, the tag sequence of a
    compiled record is the provider-level tags followed by the tags of the
    entry, each entry of either mapping giving one pair of its key and its
    value coerced to a string, in the order of the mappings and with
    repeated keys kept. *)
Theorem tag_sequence {Template : Type} (this : Env Template)
    (stateMachineName : str) (obj : StateMachine) (n n' : nat) (r : ResourceRecord) :
  compileRecord this stateMachineName obj n = (inr r, n') ->
  plainTags (providerTags this) = true ->
  plainTags (tags obj) = true ->
  Forall2 tagOf (tagEntries (providerTags this) ++ tagEntries (tags obj)) (Tags r).
Proof.
  intros H Hp Ho. apply compileRecord_inv in H.
  destruct H as (Tags0 & ds & ds' & Tags1 & Ht & _ & _ & _ & Hr & ->). simpl.
  pose proof (toTags_plain _ _ Hp Ht) as H0.
  unfold resolveTags in Hr.
  destruct (truthyOpt (tags obj)) eqn:Etr.
  - destruct (toTags (tags obj)) as [e|ts] eqn:Ets; simpl in Hr; [discriminate|].
    inversion Hr; subst. apply Forall2_app; [assumption|].
    now apply toTags_plain.
  - inversion Hr; subst.
    destruct (tags obj) as [[| | | | |kvs]|]; simpl in *; try discriminate.
    now rewrite app_nil_r.
Qed.

Lemma tag_sequence_witness :
  exists r n',
    compileRecord (Sample.withProviderTags Sample.env (Some Sample.tagsA))
                  ("m" : str) Sample.tagged 0 = (inr r, n')
    /\ Forall2 tagOf [("a" : str, JNum 1); ("b" : str, JNum 2)] (Tags r)
    /\ Tags r = [mkTag (JStr ("a" : str)) ("1" : str); mkTag (JStr ("b" : str)) ("2" : str)].
Proof.
  destruct (compileRecord (Sample.withProviderTags Sample.env (Some Sample.tagsA))
                          ("m" : str) Sample.tagged 0) as [[e|r] n'] eqn:E;
    [vm_compute in E; discriminate|].
  exists r, n'. split; [reflexivity|]. split.
  - apply (tag_sequence _ _ _ _ _ _ E); reflexivity.
  - vm_compute in E. inversion E. reflexivity.
Defined.

(** C7. Line 27 sets out to push one pair for each entry of the mapping,
    as the claim says, and misses the mappings that [_.forEach] iterates by
    index: with the provider-level tags [{ length: 0 }] the record is
    compiled and has no tag at all, where the claim has the pair of
    [length] and [0]. *)
Theorem tags_with_a_length_entry_are_lost :
  exists r n',
    compileRecord (Sample.withProviderTags Sample.env (Some Sample.tagsLength))
                  ("m" : str) Sample.hello 0 = (inr r, n')
    /\ Tags r = []
    /\ ~ Forall2 tagOf
           (tagEntries (Some Sample.tagsLength) ++ tagEntries (tags Sample.hello))
           (Tags r).
Proof.
  destruct (compileRecord (Sample.withProviderTags Sample.env (Some Sample.tagsLength))
                          ("m" : str) Sample.hello 0) as [[e|r] n'] eqn:E;
    [vm_compute in E; discriminate|].
  exists r, n'. split; [reflexivity|].
  assert (Ht : Tags r = []) by (vm_compute in E; inversion E; reflexivity).
  split; [exact Ht|]. rewrite Ht. simpl. intros H. inversion H.
Qed.

(* ================================================================== *)
(** ** Validation failures *)

Section Orchestrator.
Context {Template : Type}.
Variable this : Env Template.

Lemma forEachStateMachine_app (before rest : list str) (tpl tpl1 : Template) (n n1 : nat) :
  forEachStateMachine this before tpl n = (inr tt, tpl1, n1) ->
  forEachStateMachine this (before ++ rest) tpl n
  = forEachStateMachine this rest tpl1 n1.
Proof.
  revert tpl n. induction before as [|x before IH]; simpl; intros tpl n H.
  - inversion H; reflexivity.
  - destruct (compileStateMachine this x tpl n) as [[[e|u] t] m]; [discriminate|].
    now apply IH.
Qed.

Lemma occurs_malformedMessage (stateMachineName error : str) :
  occurs stateMachineName (malformedMessage stateMachineName error).
Proof.
  unfold malformedMessage. apply occurs_app_r, occurs_app_l, occurs_refl.
Qed.

Lemma occurs_invalidMessage (stateMachineName : str) (errors : json) :
  occurs stateMachineName (invalidMessage stateMachineName errors).
Proof.
  unfold invalidMessage.
  match goal with
  | |- occurs _ (join ?sep [?a; ?b]) => change (join sep [a; b]) with (a ++ sep ++ b)
  end.
  apply occurs_app_l, occurs_app_r, occurs_app_r, occurs_app_l, occurs_refl.
Qed.
End Orchestrator.

(** C8. When the schema rejects an entry, or the linter is enabled and
    rejects its definition, the compilation stops with an error whose message
    holds the name of the entry; no name has been drawn for a template of
    this entry, and the shared template is as the entries before it left it:
    nothing is merged for this entry or for a later one. The provider-level
    tags, which are normalised first, are taken to be stringifiable. *)
Theorem validation_failure_aborts {Template : Type} (this : Env Template)
    (tpl tpl1 : Template) (n n1 : nat)
    (before after : list str) (stateMachineName : str) (Tags0 : list Tag) :
  isStateMachines this = true ->
  getAllStateMachines this = before ++ stateMachineName :: after ->
  forEachStateMachine this before tpl n = (inr tt, tpl1, n1) ->
  toTags (providerTags this) = inr Tags0 ->
  (joiValidate this (getStateMachine this stateMachineName) <> None
   \/ exists d,
        definition (getStateMachine this stateMachineName) = Some d /\
        truthy d = true /\
        truthyOpt (validate this) = true /\
        fst (aslValidator this d) = false) ->
  exists message,
    compileStateMachines this tpl n = (inl (ServerlessError message), tpl1, n1)
    /\ occurs stateMachineName message.
Proof.
  intros Hs Hall Hbefore Ht Hbad.
  unfold compileStateMachines. rewrite Hs, Hall.
  rewrite (forEachStateMachine_app this _ _ _ _ _ _ Hbefore).
  simpl. unfold compileStateMachine, compileRecord. rewrite Ht.
  destruct (joiValidate this (getStateMachine this stateMachineName)) as [error|] eqn:Hj.
  - eexists. split; [reflexivity|]. apply occurs_malformedMessage.
  - destruct Hbad as [Hbad|[d [Hd [Htr [Hv Hasl]]]]]; [congruence|].
    unfold compileDefinition, lintDefinition. rewrite Hd, Htr, Hv.
    destruct (aslValidator this d) as [isValid errors]. simpl in Hasl. subst isValid.
    eexists. split; [reflexivity|]. apply occurs_invalidMessage.
Qed.

Lemma validation_failure_aborts_witness :
  (exists message tpl1,
     compileStateMachines
       (Sample.withMachines Sample.strict
          [("ok" : str, Sample.hello); ("bad" : str, Sample.named);
           ("late" : str, Sample.hello)]) [] 0
     = (inl (ServerlessError message), tpl1, 1)
     /\ map fst tpl1 = [("ok" : str); ("okArn" : str)]
     /\ occurs ("bad" : str) message)
  /\
  (exists message,
     compileStateMachines
       (Sample.withMachines Sample.linting [("bad" : str, Sample.hello)]) [] 0
     = (inl (ServerlessError message), [], 0)
     /\ occurs ("bad" : str) message).
Proof.
  split.
  - destruct (forEachStateMachine
                (Sample.withMachines Sample.strict
                   [("ok" : str, Sample.hello); ("bad" : str, Sample.named);
                    ("late" : str, Sample.hello)])
                [("ok" : str)] [] 0) as [[[e|[]] tpl1] n1] eqn:Eb;
      [vm_compute in Eb; discriminate|].
    destruct (validation_failure_aborts
                (Sample.withMachines Sample.strict
                   [("ok" : str, Sample.hello); ("bad" : str, Sample.named);
                    ("late" : str, Sample.hello)])
                [] tpl1 0 n1 [("ok" : str)] [("late" : str)] ("bad" : str) [])
      as (message & Hm & Ho).
    + reflexivity.
    + reflexivity.
    + exact Eb.
    + reflexivity.
    + left. vm_compute. discriminate.
    + exists message, tpl1. vm_compute in Eb. inversion Eb; subst tpl1 n1.
      split; [exact Hm|]. split; [reflexivity|exact Ho].
  - apply (validation_failure_aborts
             (Sample.withMachines Sample.linting [("bad" : str, Sample.hello)])
             [] [] 0 0 [] [] ("bad" : str) []).
    + reflexivity.
    + reflexivity.
    + reflexivity.
    + reflexivity.
    + right. exists Sample.helloDefinition. repeat split; reflexivity.
Defined.

(* ================================================================== *)
(** ** A definition given as a string *)

Lemma stripEscapes_keep (a : ascii) (t : str) :
  a <> bslash -> stripEscapes (a :: t) = a :: stripEscapes t.
Proof.
  intros Ha. destruct t as [|c rest]; [reflexivity|].
  change (stripEscapes (a :: c :: rest))
    with (if Ascii.eqb a bslash && (Ascii.eqb c "n"%char || Ascii.eqb c "r"%char)
          then stripEscapes rest else a :: stripEscapes (c :: rest)).
  destruct (Ascii.eqb a bslash) eqn:E; [|reflexivity].
  apply Ascii.eqb_eq in E. contradiction.
Qed.

Lemma stripEscapes_bslash (c : ascii) (t : str) :
  c <> "n"%char -> c <> "r"%char ->
  stripEscapes (bslash :: c :: t) = bslash :: stripEscapes (c :: t).
Proof.
  intros Hn Hr.
  change (stripEscapes (bslash :: c :: t))
    with (if Ascii.eqb bslash bslash && (Ascii.eqb c "n"%char || Ascii.eqb c "r"%char)
          then stripEscapes t else bslash :: stripEscapes (c :: t)).
  destruct (Ascii.eqb c "n"%char) eqn:E1; [apply Ascii.eqb_eq in E1; contradiction|].
  destruct (Ascii.eqb c "r"%char) eqn:E2; [apply Ascii.eqb_eq in E2; contradiction|].
  reflexivity.
Qed.

Lemma stripEscapes_n (t : str) : stripEscapes (bslash :: "n"%char :: t) = stripEscapes t.
Proof. reflexivity. Qed.

Lemma stripEscapes_r (t : str) : stripEscapes (bslash :: "r"%char :: t) = stripEscapes t.
Proof. reflexivity. Qed.

Lemma app_two {A} (a b : A) (l : list A) : [a; b] ++ l = a :: b :: l.
Proof. reflexivity. Qed.

(** The escape of a character other than newline, carriage return and
    backslash passes through [stripEscapes] unchanged. *)
Lemma escapeChar_cases (c : ascii) :
  (c = LF /\ escapeChar c = [bslash; "n"%char])
  \/ (c = CR /\ escapeChar c = [bslash; "r"%char])
  \/ (c = bslash /\ escapeChar c = [bslash; bslash])
  \/ (c <> LF /\ c <> CR /\ c <> bslash /\
      forall d t, stripEscapes (escapeChar c ++ d :: t)
                  = escapeChar c ++ stripEscapes (d :: t)).
Proof.
  destruct c as [[|] [|] [|] [|] [|] [|] [|] [|]];
    first
      [ left; split; reflexivity
      | right; left; split; reflexivity
      | right; right; left; split; reflexivity
      | right; right; right; repeat split; try discriminate;
        intros d t; reflexivity ].
Qed.

Lemma escapeChar_head (c : ascii) :
  exists h tl, escapeChar c = h :: tl /\ (h = bslash \/ h = c).
Proof.
  unfold escapeChar.
  repeat match goal with
         | |- context [if ?b then _ else _] => destruct b
         end; eauto.
Qed.

Lemma stripEscapes_body (s : str) :
  noEscapeLookalike s = true ->
  stripEscapes (flat_map escapeChar s ++ [dquote])
  = flat_map escapeChar (dropNewlines s) ++ [dquote].
Proof.
  induction s as [|c s IH]; [reflexivity|].
  intros Hs.
  assert (Hs' : noEscapeLookalike s = true).
  { destruct s as [|c' s']; [reflexivity|].
    change (noEscapeLookalike (c :: c' :: s'))
      with (negb (Ascii.eqb c bslash && (Ascii.eqb c' "n"%char || Ascii.eqb c' "r"%char))
            && noEscapeLookalike (c' :: s')) in Hs.
    now apply andb_true_iff in Hs. }
  specialize (IH Hs').
  assert (Hne : exists h t, flat_map escapeChar s ++ [dquote] = h :: t).
  { destruct (flat_map escapeChar s) as [|h t]; simpl; eauto. }
  destruct Hne as [h [t Hht]].
  change (flat_map escapeChar (c :: s)) with (escapeChar c ++ flat_map escapeChar s).
  rewrite <- app_assoc.
  destruct (escapeChar_cases c) as [[-> E]|[[-> E]|[[-> E]|(H1 & H2 & H3 & Hp)]]].
  - rewrite E, app_two, stripEscapes_n, IH. reflexivity.
  - rewrite E, app_two, stripEscapes_r, IH. reflexivity.
  - rewrite E, app_two.
    rewrite stripEscapes_bslash by discriminate.
    assert (Hh : h <> "n"%char /\ h <> "r"%char).
    { destruct s as [|c' s'].
      - simpl in Hht. inversion Hht; subst. split; discriminate.
      - change (noEscapeLookalike (bslash :: c' :: s'))
          with (negb (Ascii.eqb bslash bslash
                      && (Ascii.eqb c' "n"%char || Ascii.eqb c' "r"%char))
                && noEscapeLookalike (c' :: s')) in Hs.
        apply andb_true_iff in Hs. destruct Hs as [Hs _].
        change (Ascii.eqb bslash bslash) with true in Hs. simpl in Hs.
        apply negb_true_iff, orb_false_iff in Hs. destruct Hs as [Hn Hr].
        apply Ascii.eqb_neq in Hn, Hr.
        destruct (escapeChar_head c') as [h' [tl [Eh Hh']]].
        simpl in Hht. rewrite Eh in Hht. simpl in Hht. inversion Hht; subst h'.
        destruct Hh' as [->| ->]; [split; discriminate|split; assumption]. }
    rewrite Hht. rewrite stripEscapes_bslash by tauto.
    rewrite <- Hht, IH. reflexivity.
  - rewrite Hht, Hp, <- Hht, IH.
    assert (Hkeep : dropNewlines (c :: s) = c :: dropNewlines s).
    { unfold dropNewlines. simpl.
      destruct (Ascii.eqb c LF) eqn:E1; [apply Ascii.eqb_eq in E1; contradiction|].
      destruct (Ascii.eqb c CR) eqn:E2; [apply Ascii.eqb_eq in E2; contradiction|].
      reflexivity. }
    rewrite Hkeep. simpl. now rewrite <- app_assoc.
Qed.

Lemma stripEscapes_quote (s : str) :
  noEscapeLookalike s = true ->
  stripEscapes (QuoteJSONString s) = QuoteJSONString (dropNewlines s).
Proof.
  intros Hs. unfold QuoteJSONString.
  rewrite stripEscapes_keep by discriminate.
  now rewrite stripEscapes_body.
Qed.

(** C3, as amended. For a definition that is a non-empty string the
    extractor is not run (no name is drawn) and the definition text of the
    record is the JSON string literal of the input, in its double quotes and
    with its escapes, from which every backslash followed by [n] or [r] has
    been removed; when no backslash of the input is itself followed by [n]
    or [r], that is the JSON string literal of the input without its newline
    and carriage-return characters. *)
Theorem literal_string_passthrough {Template : Type} (this : Env Template)
    (stateMachineName : str) (obj : StateMachine) (s : str)
    (n n' : nat) (r : ResourceRecord) :
  definition obj = Some (JStr s) ->
  s <> [] ->
  compileRecord this stateMachineName obj n = (inr r, n') ->
  DefinitionString r = Some (Text (stripEscapes (QuoteJSONString s)))
  /\ n' = n
  /\ (noEscapeLookalike s = true ->
      DefinitionString r = Some (Text (QuoteJSONString (dropNewlines s)))).
Proof.
  intros Hd Hs H. apply compileRecord_inv in H.
  destruct H as (Tags0 & ds & ds' & Tags1 & _ & _ & Hc & Hp & _ & ->). simpl.
  unfold compileDefinition in Hc. rewrite Hd in Hc.
  destruct s as [|c s]; [congruence|]. simpl truthy in Hc. cbv iota in Hc.
  destruct (lintDefinition this stateMachineName (JStr (c :: s))); [discriminate|].
  unfold assemble in Hc. inversion Hc; subst ds n'. clear Hc.
  assert (Hds : ds' = Some (Text (stripEscapes (QuoteJSONString (c :: s))))).
  { unfold pinVersions in Hp.
    destruct (useExactVersion obj) as [[| [|] | | | |]|]; now inversion Hp. }
  subst ds'. repeat split.
  intros Hl. now rewrite stripEscapes_quote.
Qed.

Lemma literal_string_passthrough_witness :
  exists r,
    compileRecord Sample.env ("m" : str) Sample.twoLines 3 = (inr r, 3)
    /\ DefinitionString r = Some (Text [dquote; "{"%char; "}"%char; dquote]).
Proof.
  destruct (compileRecord Sample.env ("m" : str) Sample.twoLines 3) as [[e|r] n'] eqn:E;
    [vm_compute in E; discriminate|].
  destruct (literal_string_passthrough Sample.env ("m" : str) Sample.twoLines
              ["{"%char; LF; CR; "}"%char] 3 n' r eq_refl) as (H1 & H2 & H3).
  - discriminate.
  - exact E.
  - subst n'. exists r. split; [reflexivity|]. rewrite (H3 eq_refl). reflexivity.
Defined.

(** C3, as stated, fails: for the definition [abc] the text of the record
    is not [abc] (the input, which holds no escape sequence to remove) but
    the five characters of its JSON string literal, quotes included. *)
Lemma literal_string_passthrough_counterexample :
  exists r n',
    compileRecord Sample.env ("m" : str) Sample.literal 0 = (inr r, n')
    /\ DefinitionString r = Some (Text [dquote; "a"%char; "b"%char; "c"%char; dquote])
    /\ withoutEscapeSequences ("abc" : str) = ("abc" : str)
    /\ DefinitionString r <> Some (Text (withoutEscapeSequences ("abc" : str))).
Proof.
  destruct (compileRecord Sample.env ("m" : str) Sample.literal 0) as [[e|r] n'] eqn:E;
    [vm_compute in E; discriminate|].
  exists r, n'. split; [reflexivity|].
  assert (Hd : DefinitionString r
               = Some (Text [dquote; "a"%char; "b"%char; "c"%char; dquote]))
    by (vm_compute in E; inversion E; reflexivity).
  split; [exact Hd|]. split; [reflexivity|].
  rewrite Hd. vm_compute. discriminate.
Qed.

(* ================================================================== *)
(** ** The runs of a traversal *)

Lemma Forall2_In_r {A B} (R : A -> B -> Prop) (l : list A) (bs : list B) (b : B) :
  Forall2 R l bs -> In b bs -> exists a, In a l /\ R a b.
Proof.
  induction 1 as [|a b' l bs Hab _ IH]; simpl; [tauto|].
  intros [<-|Hin].
  - exists a; auto.
  - destruct (IH Hin) as [a' [Ha' Hr]]. exists a'; auto.
Qed.

Lemma gbind_gret {A B} (m : Gen A) (g : A -> B) (n : nat) :
  gbind m (fun a => gret (g a)) n = let '(a, p, n') := m n in (g a, p, n').
Proof.
  unfold gbind, gret. destruct (m n) as [[a p] n']. now rewrite app_nil_r.
Qed.

Section Runs.
Context {A B : Type}.
Variable f : A -> Gen B.

(** Every element of the result of a traversal is what one run of [f] on
    the element at its place returned, and every pair that the traversal
    yields is a pair that one of these runs yielded. *)
Lemma traverse_runs (l : list A) (n n' : nat) (bs : list B) (ps : list (str * json)) :
  traverse f l n = (bs, ps, n') ->
  Forall2 (fun a b => exists m p m', f a m = (b, p, m') /\ incl p ps) l bs
  /\ (forall x, In x ps ->
        exists a b m p m', In a l /\ In b bs /\ f a m = (b, p, m') /\ In x p).
Proof.
  revert n n' bs ps. induction l as [|a l IH]; intros n n' bs ps H.
  - inversion H; subst. split; [constructor|]. intros x [].
  - simpl in H. unfold gbind in H.
    destruct (f a n) as [[b p1] n1] eqn:Ea.
    destruct (traverse f l n1) as [[bs' p2] n2] eqn:El.
    unfold gret in H. inversion H; subst. clear H.
    destruct (IH _ _ _ _ El) as [IH1 IH2]. split.
    + constructor.
      * exists n, p1, n1. split; [assumption|]. intros x Hx.
        apply in_or_app; auto.
      * eapply Forall2_impl; [|exact IH1].
        intros a' b' (m & p & m' & Hrun & Hincl). exists m, p, m'.
        split; [assumption|]. intros x Hx. rewrite app_nil_r.
        apply in_or_app; right; auto.
    + intros x Hx. rewrite app_nil_r in Hx. apply in_app_or in Hx.
      destruct Hx as [Hx|Hx].
      * exists a, b, n, p1, n1. simpl; auto 6.
      * destruct (IH2 x Hx) as (a' & b' & m & p & m' & Ha' & Hb' & Hrun & Hp).
        exists a', b', m, p, m'. simpl; auto 6.
Qed.

Lemma traverse_identity (l : list A) (g : A -> B) :
  (forall a, In a l -> forall n, f a n = (g a, [], n)) ->
  forall n, traverse f l n = (map g l, [], n).
Proof.
  induction l as [|a l IH]; intros H n; [reflexivity|].
  simpl. unfold gbind. rewrite (H a (or_introl eq_refl)).
  rewrite IH by (intros a' Ha'; apply H; right; exact Ha').
  reflexivity.
Qed.
End Runs.

(* ================================================================== *)
(** ** getIntrinsicFunctions *)

Section Extraction.
Context {Template : Type}.
Variable this : Env Template.

Local Abbreviation gi := (getIntrinsicFunctions this).

(** The function of the loop over the properties of an object. *)
Local Abbreviation perProperty :=
  (fun kv : str * json =>
     gbind (visit this (getIntrinsicFunctions this) (snd kv))
           (fun v' => gret (fst kv, v'))).

Lemma gi_JObj (kvs : list (str * json)) (n : nat) :
  gi (JObj kvs) n
  = let '(kvs', ps, n') := traverse perProperty kvs n in (JObj kvs', ps, n').
Proof.
  change (gi (JObj kvs)) with
    (gbind (traverse perProperty kvs) (fun kvs' => gret (JObj kvs'))).
  apply gbind_gret.
Qed.

Lemma gi_JArr (l : list json) (n : nat) :
  gi (JArr l) n
  = let '(l', ps, n') := traverse (visit this gi) l n in (JArr l', ps, n').
Proof.
  change (gi (JArr l)) with
    (gbind (traverse (visit this gi) l) (fun l' => gret (JArr l'))).
  apply gbind_gret.
Qed.

Lemma visit_JArr (self : json -> Gen json) (elems : list json) (n : nat) :
  visit this self (JArr elems) n
  = let '(elems', ps, n') := traverse self elems n in (JArr elems', ps, n').
Proof. unfold visit. apply gbind_gret. Qed.

Lemma visit_JObj (self : json -> Gen json) (kvs : list (str * json)) (n : nat) :
  visit this self (JObj kvs) n
  = if isIntrinsic this (JObj kvs)
    then (JStr (marker (chance this n)), [(chance this n, JObj kvs)], S n)
    else self (JObj kvs) n.
Proof. unfold visit. destruct (isIntrinsic this (JObj kvs)); reflexivity. Qed.

Lemma perProperty_run (kv : str * json) (m m' : nat) (b : str * json)
      (p : list (str * json)) :
  perProperty kv m = (b, p, m') ->
  exists v', visit this gi (snd kv) m = (v', p, m') /\ b = (fst kv, v').
Proof.
  cbv beta. rewrite gbind_gret.
  destruct (visit this gi (snd kv) m) as [[v' p'] m''].
  intros H; inversion H; subst. eauto.
Qed.

Lemma In_nodes_JArr (x : json) (l : list json) :
  In x (nodes (JArr l)) <-> x = JArr l \/ exists e, In e l /\ In x (nodes e).
Proof.
  simpl. rewrite in_flat_map. split; intros [H|H]; auto.
Qed.

Lemma In_nodes_JObj (x : json) (kvs : list (str * json)) :
  In x (nodes (JObj kvs))
  <-> x = JObj kvs \/ exists kv, In kv kvs /\ In x (nodes (snd kv)).
Proof.
  simpl. rewrite in_flat_map. split; intros [H|H]; auto.
Qed.

Lemma In_nodes_self (v : json) : In v (nodes v).
Proof. destruct v; simpl; auto. Qed.

(** What extraction leaves under a key is not a reference, and a mapping
    keeps its keys. *)
Lemma extraction_properties (v : json) :
  (forall n v' ps n',
     gi v n = (v', ps, n') ->
     isIntrinsic this v' = isIntrinsic this v /\
     forall x, In x (propertyValues v') -> isIntrinsic this x = false)
  /\
  (forall n v' ps n',
     visit this gi v n = (v', ps, n') ->
     isIntrinsic this v' = false /\
     forall x, In x (propertyValues v') -> isIntrinsic this x = false).
Proof.
  induction v as [| b | z | s | l IH | kvs IH] using json_ind;
    try (split; intros n v' ps n' H; cbn in H; inversion H; subst; simpl;
         (split; [reflexivity|intros x []])).
  - (* arrays *)
    rewrite Forall_forall in IH. split; intros n v' ps n' H.
    + rewrite gi_JArr in H.
      destruct (traverse (visit this gi) l n) as [[l' ps'] m] eqn:E.
      inversion H; subst. clear H. split; [reflexivity|].
      intros x Hx. simpl in Hx. apply in_flat_map in Hx.
      destruct Hx as [b [Hb Hx]].
      destruct (traverse_runs _ _ _ _ _ _ E) as [Hruns _].
      destruct (Forall2_In_r _ _ _ _ Hruns Hb) as (a & Ha & m0 & p & m' & Hrun & _).
      now apply (proj2 (IH a Ha) _ _ _ _ Hrun).
    + rewrite visit_JArr in H.
      destruct (traverse gi l n) as [[l' ps'] m] eqn:E.
      inversion H; subst. clear H. split; [reflexivity|].
      intros x Hx. simpl in Hx. apply in_flat_map in Hx.
      destruct Hx as [b [Hb Hx]].
      destruct (traverse_runs _ _ _ _ _ _ E) as [Hruns _].
      destruct (Forall2_In_r _ _ _ _ Hruns Hb) as (a & Ha & m0 & p & m' & Hrun & _).
      now apply (proj1 (IH a Ha) _ _ _ _ Hrun).
  - (* objects *)
    rewrite Forall_forall in IH.
    assert (Hobj : forall n v' ps n',
               gi (JObj kvs) n = (v', ps, n') ->
               isIntrinsic this v' = isIntrinsic this (JObj kvs) /\
               forall x, In x (propertyValues v') -> isIntrinsic this x = false).
    { intros n v' ps n' H. rewrite gi_JObj in H.
      destruct (traverse perProperty kvs n) as [[kvs' ps'] m] eqn:E.
      inversion H; subst. clear H.
      destruct (traverse_runs _ _ _ _ _ _ E) as [Hruns _]. split.
      - simpl. f_equal. clear E IH.
        induction Hruns as [|a b l l' (m0 & p & m' & Hrun & _) _ IHr]; [reflexivity|].
        apply perProperty_run in Hrun. destruct Hrun as (w & _ & ->).
        simpl. now rewrite IHr.
      - intros x Hx. simpl in Hx. apply in_flat_map in Hx.
        destruct Hx as [b [Hb Hx]].
        destruct (Forall2_In_r _ _ _ _ Hruns Hb) as (a & Ha & m0 & p & m' & Hrun & _).
        apply perProperty_run in Hrun. destruct Hrun as (w & Hw & ->).
        destruct (proj2 (IH a Ha) _ _ _ _ Hw) as [H1 H2].
        simpl in Hx. destruct Hx as [<-|Hx]; auto. }
    split; [exact Hobj|].
    intros n v' ps n' H. rewrite visit_JObj in H.
    destruct (isIntrinsic this (JObj kvs)) eqn:Ei.
    + inversion H; subst. split; [reflexivity|intros x []].
    + destruct (Hobj _ _ _ _ H) as [H1 H2]. split; [congruence|assumption].
Qed.

(** Every pair that is yielded holds a reference and the name whose marker
    now stands in the document, and the name is one that [randomName]
    returned. *)
Lemma extraction_pairs (v : json) :
  (forall n v' ps n',
     gi v n = (v', ps, n') ->
     forall p x, In (p, x) ps ->
       isIntrinsic this x = true /\ In (JStr (marker p)) (nodes v')
       /\ exists k, p = chance this k)
  /\
  (forall n v' ps n',
     visit this gi v n = (v', ps, n') ->
     forall p x, In (p, x) ps ->
       isIntrinsic this x = true /\ In (JStr (marker p)) (nodes v')
       /\ exists k, p = chance this k).
Proof.
  induction v as [| b | z | s | l IH | kvs IH] using json_ind;
    try (split; intros n v' ps n' H; cbn in H; inversion H; subst; intros p x []).
  - rewrite Forall_forall in IH. split; intros n v' ps n' H q x Hq.
    + rewrite gi_JArr in H.
      destruct (traverse (visit this gi) l n) as [[l' ps'] m] eqn:E.
      inversion H; subst. clear H.
      destruct (traverse_runs _ _ _ _ _ _ E) as [_ Hpairs].
      destruct (Hpairs _ Hq) as (a & b & m0 & p & m' & Ha & Hb & Hrun & Hp).
      destruct (proj2 (IH a Ha) _ _ _ _ Hrun _ _ Hp) as (H1 & H2 & H3).
      repeat split; try assumption.
      apply In_nodes_JArr. right. exists b; auto.
    + rewrite visit_JArr in H.
      destruct (traverse gi l n) as [[l' ps'] m] eqn:E.
      inversion H; subst. clear H.
      destruct (traverse_runs _ _ _ _ _ _ E) as [_ Hpairs].
      destruct (Hpairs _ Hq) as (a & b & m0 & p & m' & Ha & Hb & Hrun & Hp).
      destruct (proj1 (IH a Ha) _ _ _ _ Hrun _ _ Hp) as (H1 & H2 & H3).
      repeat split; try assumption.
      apply In_nodes_JArr. right. exists b; auto.
  - rewrite Forall_forall in IH.
    assert (Hobj : forall n v' ps n',
               gi (JObj kvs) n = (v', ps, n') ->
               forall p x, In (p, x) ps ->
                 isIntrinsic this x = true /\ In (JStr (marker p)) (nodes v')
                 /\ exists k, p = chance this k).
    { intros n v' ps n' H q x Hq. rewrite gi_JObj in H.
      destruct (traverse perProperty kvs n) as [[kvs' ps'] m] eqn:E.
      inversion H; subst. clear H.
      destruct (traverse_runs _ _ _ _ _ _ E) as [_ Hpairs].
      destruct (Hpairs _ Hq) as (a & b & m0 & p & m' & Ha & Hb & Hrun & Hp).
      apply perProperty_run in Hrun. destruct Hrun as (w & Hw & ->).
      destruct (proj2 (IH a Ha) _ _ _ _ Hw _ _ Hp) as (H1 & H2 & H3).
      repeat split; try assumption.
      apply In_nodes_JObj. right. exists (fst a, w); auto. }
    split; [exact Hobj|].
    intros n v' ps n' H q x Hq. rewrite visit_JObj in H.
    destruct (isIntrinsic this (JObj kvs)) eqn:Ei.
    + inversion H; subst. destruct Hq as [Hq|[]]. inversion Hq; subst.
      repeat split; [assumption|simpl; auto|eauto].
    + exact (Hobj _ _ _ _ H _ _ Hq).
Qed.

(** A document without any reference is returned as it is; nothing is
    yielded and no name is drawn. *)
Lemma extraction_identity (v : json) :
  (forall x, In x (nodes v) -> isIntrinsic this x = false) ->
  (forall n, gi v n = (v, [], n)) /\ (forall n, visit this gi v n = (v, [], n)).
Proof.
  induction v as [| b | z | s | l IH | kvs IH] using json_ind; intros Hno;
    try (split; intros n; reflexivity).
  - rewrite Forall_forall in IH.
    assert (Hsub : forall a, In a l -> forall x, In x (nodes a) -> isIntrinsic this x = false).
    { intros a Ha x Hx. apply Hno. apply In_nodes_JArr. right. eauto. }
    split; intros n.
    + rewrite gi_JArr.
      rewrite (traverse_identity _ l (fun a => a))
        by (intros a Ha; apply (IH a Ha (Hsub a Ha))).
      now rewrite map_id.
    + rewrite visit_JArr.
      rewrite (traverse_identity _ l (fun a => a))
        by (intros a Ha; apply (IH a Ha (Hsub a Ha))).
      now rewrite map_id.
  - rewrite Forall_forall in IH.
    assert (Hsub : forall a, In a kvs ->
               forall x, In x (nodes (snd a)) -> isIntrinsic this x = false).
    { intros a Ha x Hx. apply Hno. apply In_nodes_JObj. right. eauto. }
    assert (Hobj : forall n, gi (JObj kvs) n = (JObj kvs, [], n)).
    { intros n. rewrite gi_JObj.
      rewrite (traverse_identity _ kvs (fun a => a)).
      - now rewrite map_id.
      - intros a Ha m. rewrite gbind_gret.
        rewrite (proj2 (IH a Ha (Hsub a Ha)) m). now destruct a. }
    split; [exact Hobj|].
    intros n. rewrite visit_JObj.
    rewrite (Hno (JObj kvs) (In_nodes_self _)). apply Hobj.
Qed.
End Extraction.

(** *** The positions that extraction tests *)

Section RunsAt.
Context {A B : Type}.
Variable f : A -> Gen B.

(** The runs of a traversal by position: the element at each place of the
    result is what the run of [f] on the element at that place returned,
    and every pair comes from the run at one place. *)
Lemma traverse_at (l : list A) (n n' : nat) (bs : list B) (ps : list (str * json)) :
  traverse f l n = (bs, ps, n') ->
  (forall i a, nth_error l i = Some a ->
     exists b m p m', nth_error bs i = Some b /\ f a m = (b, p, m') /\ incl p ps)
  /\ (forall x, In x ps ->
        exists i a b m p m',
          nth_error l i = Some a /\ nth_error bs i = Some b
          /\ f a m = (b, p, m') /\ In x p).
Proof.
  revert n n' bs ps. induction l as [|a l IH]; intros n n' bs ps H.
  - inversion H; subst. split; [intros [|i] a Ha; discriminate|intros x []].
  - simpl in H. unfold gbind in H.
    destruct (f a n) as [[b p1] n1] eqn:Ea.
    destruct (traverse f l n1) as [[bs' p2] n2] eqn:El.
    unfold gret in H. inversion H; subst. clear H.
    destruct (IH _ _ _ _ El) as [IH1 IH2]. split.
    + intros [|i] a' Ha'; simpl in Ha'.
      * inversion Ha'; subst. exists b, n, p1, n1.
        split; [reflexivity|]. split; [assumption|].
        intros x Hx. apply in_or_app; auto.
      * destruct (IH1 i a' Ha') as (b' & m & p & m' & Hb & Hrun & Hincl).
        exists b', m, p, m'. split; [exact Hb|]. split; [assumption|].
        intros x Hx. rewrite app_nil_r. apply in_or_app; right; auto.
    + intros x Hx. rewrite app_nil_r in Hx. apply in_app_or in Hx.
      destruct Hx as [Hx|Hx].
      * exists 0, a, b, n, p1, n1. auto.
      * destruct (IH2 x Hx) as (i & a' & b' & m & p & m' & Ha' & Hb' & Hrun & Hp).
        exists (S i), a', b', m, p, m'. auto.
Qed.
End RunsAt.

Section Places.
Context {Template : Type}.
Variable this : Env Template.

Local Abbreviation gi := (getIntrinsicFunctions this).

Local Abbreviation perProperty :=
  (fun kv : str * json =>
     gbind (visit this (getIntrinsicFunctions this) (snd kv))
           (fun v' => gret (fst kv, v'))).

(** What a run that came to [v] as [m] and left [v'] did at the positions
    it tests: a reference there is replaced by the marker of a name and
    yielded with that name, and every pair comes from such a position. *)
Local Abbreviation settles m v v' ps :=
  ((forall p x,
      arrives this m v p = Some Tested -> subtree v p = Some x ->
      isIntrinsic this x = true ->
      exists name, subtree v' p = Some (JStr (marker name)) /\ In (name, x) ps)
   /\
   (forall name x,
      In (name, x) ps ->
      exists p, arrives this m v p = Some Tested /\ subtree v p = Some x
                /\ subtree v' p = Some (JStr (marker name)))).

Lemma arrives_nowhere (m : arrival) (v : json) (i : nat) (q : list nat) :
  children v = [] -> arrives this m v (i :: q) = None.
Proof. intros H. simpl. rewrite H. now destruct i. Qed.

Lemma settles_scalar (m : arrival) (v : json) :
  children v = [] -> isIntrinsic this v = false -> settles m v v [].
Proof.
  intros Hc Hi. split.
  - intros [|i q] x Ha Hs Hx.
    + inversion Hs; subst. congruence.
    + rewrite (arrives_nowhere _ _ _ _ Hc) in Ha. discriminate.
  - intros name x [].
Qed.

(** What an extraction returns is left as it is by another extraction. *)
Lemma extraction_settled (v : json) :
  (forall n v' ps n', gi v n = (v', ps, n') -> forall m, gi v' m = (v', [], m))
  /\ (forall n v' ps n',
        visit this gi v n = (v', ps, n') -> forall m, visit this gi v' m = (v', [], m)).
Proof.
  induction v as [| b | z | s | l IH | kvs IH] using json_ind;
    try (split; intros n v' ps n' H m; cbn in H; inversion H; subst; reflexivity).
  - rewrite Forall_forall in IH. split; intros n v' ps n' H m.
    + rewrite gi_JArr in H.
      destruct (traverse (visit this gi) l n) as [[l' ps'] k] eqn:E.
      inversion H; subst. clear H.
      destruct (traverse_runs _ _ _ _ _ _ E) as [Hruns _].
      rewrite gi_JArr, (traverse_identity _ l' (fun a => a)); [now rewrite map_id|].
      intros b Hb m0.
      destruct (Forall2_In_r _ _ _ _ Hruns Hb) as (a & Ha & k0 & p & k' & Hrun & _).
      exact (proj2 (IH a Ha) _ _ _ _ Hrun m0).
    + rewrite visit_JArr in H.
      destruct (traverse gi l n) as [[l' ps'] k] eqn:E.
      inversion H; subst. clear H.
      destruct (traverse_runs _ _ _ _ _ _ E) as [Hruns _].
      rewrite visit_JArr, (traverse_identity _ l' (fun a => a)); [now rewrite map_id|].
      intros b Hb m0.
      destruct (Forall2_In_r _ _ _ _ Hruns Hb) as (a & Ha & k0 & p & k' & Hrun & _).
      exact (proj1 (IH a Ha) _ _ _ _ Hrun m0).
  - rewrite Forall_forall in IH.
    assert (Hobj : forall n v' ps n',
               gi (JObj kvs) n = (v', ps, n') -> forall m, gi v' m = (v', [], m)).
    { intros n v' ps n' H m. rewrite gi_JObj in H.
      destruct (traverse _ kvs n) as [[kvs' ps'] k] eqn:E.
      inversion H; subst. clear H.
      destruct (traverse_runs _ _ _ _ _ _ E) as [Hruns _].
      rewrite gi_JObj, (traverse_identity _ kvs' (fun a => a)); [now rewrite map_id|].
      intros b Hb m0.
      destruct (Forall2_In_r _ _ _ _ Hruns Hb) as (a & Ha & k0 & p & k' & Hrun & _).
      apply perProperty_run in Hrun. destruct Hrun as (w & Hw & ->).
      cbv beta. rewrite gbind_gret. simpl fst. simpl snd.
      now rewrite (proj2 (IH a Ha) _ _ _ _ Hw m0). }
    split; [exact Hobj|].
    intros n v' ps n' H m. rewrite visit_JObj in H.
    destruct (isIntrinsic this (JObj kvs)) eqn:Ei.
    + inversion H; subst. reflexivity.
    + pose proof (proj1 (proj1 (extraction_properties this (JObj kvs)) _ _ _ _ H)) as Hk.
      rewrite Ei in Hk.
      assert (Hshape : exists kvs', v' = JObj kvs').
      { rewrite gi_JObj in H. destruct (traverse _ kvs n) as [[kvs' ps'] k].
        inversion H; subst. eauto. }
      destruct Hshape as [kvs' ->].
      rewrite visit_JObj, Hk. exact (Hobj _ _ _ _ H m).
Qed.

Lemma extraction_places (v : json) :
  (forall n v' ps n', gi v n = (v', ps, n') -> settles Enumerated v v' ps)
  /\ (forall n v' ps n', visit this gi v n = (v', ps, n') -> settles Tested v v' ps).
Proof.
  induction v as [| b | z | s | l IH | kvs IH] using json_ind;
    try (split; intros n v' ps n' H; cbn in H; inversion H; subst;
         apply settles_scalar; reflexivity).
  - (* arrays *)
    rewrite Forall_forall in IH. split; intros n v' ps n' H.
    + rewrite gi_JArr in H.
      destruct (traverse (visit this gi) l n) as [[l' ps'] k] eqn:E.
      inversion H; subst. clear H.
      destruct (traverse_at _ _ _ _ _ _ E) as [Hat Hfrom]. split.
      * intros [|i q] x Ha Hs Hx; [discriminate|].
        simpl in Ha, Hs. destruct (nth_error l i) as [c|] eqn:Ec; [|discriminate].
        destruct (Hat i c Ec) as (c' & m & p & m' & Ec' & Hrun & Hincl).
        destruct (proj1 (proj2 (IH c (nth_error_In _ _ Ec)) _ _ _ _ Hrun) q x Ha Hs Hx)
          as (name & Hsub & Hin).
        exists name. split; [|auto]. simpl. now rewrite Ec'.
      * intros name x Hin.
        destruct (Hfrom _ Hin) as (i & c & c' & m & p & m' & Ec & Ec' & Hrun & Hp).
        destruct (proj2 (proj2 (IH c (nth_error_In _ _ Ec)) _ _ _ _ Hrun) name x Hp)
          as (q & Ha & Hs & Hs').
        exists (i :: q). simpl. rewrite Ec, Ec'. auto.
    + rewrite visit_JArr in H.
      destruct (traverse gi l n) as [[l' ps'] k] eqn:E.
      inversion H; subst. clear H.
      destruct (traverse_at _ _ _ _ _ _ E) as [Hat Hfrom]. split.
      * intros [|i q] x Ha Hs Hx; [inversion Hs; subst; discriminate|].
        simpl in Ha, Hs. destruct (nth_error l i) as [c|] eqn:Ec; [|discriminate].
        destruct (Hat i c Ec) as (c' & m & p & m' & Ec' & Hrun & Hincl).
        destruct (proj1 (proj1 (IH c (nth_error_In _ _ Ec)) _ _ _ _ Hrun) q x Ha Hs Hx)
          as (name & Hsub & Hin).
        exists name. split; [|auto]. simpl. now rewrite Ec'.
      * intros name x Hin.
        destruct (Hfrom _ Hin) as (i & c & c' & m & p & m' & Ec & Ec' & Hrun & Hp).
        destruct (proj2 (proj1 (IH c (nth_error_In _ _ Ec)) _ _ _ _ Hrun) name x Hp)
          as (q & Ha & Hs & Hs').
        exists (i :: q). simpl. rewrite Ec, Ec'. auto.
  - (* mappings *)
    rewrite Forall_forall in IH.
    assert (Hobj : forall n v' ps n',
               gi (JObj kvs) n = (v', ps, n') -> settles Enumerated (JObj kvs) v' ps).
    { intros n v' ps n' H. rewrite gi_JObj in H.
      destruct (traverse perProperty kvs n) as [[kvs' ps'] k] eqn:E.
      inversion H; subst. clear H.
      destruct (traverse_at _ _ _ _ _ _ E) as [Hat Hfrom]. split.
      - intros [|i q] x Ha Hs Hx; [discriminate|].
        simpl in Ha, Hs. rewrite nth_error_map in Ha, Hs.
        destruct (nth_error kvs i) as [kv|] eqn:Ec; [|discriminate].
        simpl in Ha, Hs.
        destruct (Hat i kv Ec) as (b & m & p & m' & Ec' & Hrun & Hincl).
        apply perProperty_run in Hrun. destruct Hrun as (w & Hw & ->).
        destruct (proj1 (proj2 (IH kv (nth_error_In _ _ Ec)) _ _ _ _ Hw) q x Ha Hs Hx)
          as (name & Hsub & Hin).
        exists name. split; [|auto]. simpl. rewrite nth_error_map, Ec'. exact Hsub.
      - intros name x Hin.
        destruct (Hfrom _ Hin) as (i & kv & b & m & p & m' & Ec & Ec' & Hrun & Hp).
        apply perProperty_run in Hrun. destruct Hrun as (w & Hw & ->).
        destruct (proj2 (proj2 (IH kv (nth_error_In _ _ Ec)) _ _ _ _ Hw) name x Hp)
          as (q & Ha & Hs & Hs').
        exists (i :: q). simpl. rewrite !nth_error_map, Ec, Ec'. simpl. auto. }
    split; [exact Hobj|].
    intros n v' ps n' H. rewrite visit_JObj in H.
    destruct (isIntrinsic this (JObj kvs)) eqn:Ei.
    + inversion H; subst. clear H. split.
      * intros [|i q] x Ha Hs Hx.
        -- inversion Hs; subst. exists (chance this n). simpl. auto.
        -- simpl in Ha. destruct (nth_error (map snd kvs) i); [|discriminate].
           change (intrinsicKeys this (map fst kvs)) with (isIntrinsic this (JObj kvs)) in Ha.
           rewrite Ei in Ha. discriminate.
      * intros name x [Hin|[]]. inversion Hin; subst. exists []. auto.
    + destruct (Hobj _ _ _ _ H) as [Hto Hfrom]. split.
      * intros [|i q] x Ha Hs Hx; [inversion Hs; subst; congruence|].
        apply (Hto (i :: q) x); try assumption.
        simpl in Ha |- *. destruct (nth_error (map snd kvs) i); [|discriminate].
        change (intrinsicKeys this (map fst kvs)) with (isIntrinsic this (JObj kvs)) in Ha.
        now rewrite Ei in Ha.
      * intros name x Hin. destruct (Hfrom name x Hin) as ([|i q] & Ha & Hs & Hs');
          [discriminate|].
        exists (i :: q). split; [|auto].
        simpl in Ha |- *. destruct (nth_error (map snd kvs) i); [|discriminate].
        change (intrinsicKeys this (map fst kvs)) with (isIntrinsic this (JObj kvs)).
        now rewrite Ei.
Qed.
End Places.




(* ================================================================== *)
(** ** Occurrences and markers in a text *)

Lemma starts_with_app (p r : str) : starts_with p (p ++ r) = true.
Proof.
  induction p as [|a p IH]; [reflexivity|]. simpl.
  destruct (ascii_dec a a); [assumption|contradiction].
Qed.

Lemma starts_with_inv (p s : str) :
  starts_with p s = true -> exists r, s = p ++ r.
Proof.
  revert s. induction p as [|a p IH]; intros s H.
  - exists s; reflexivity.
  - destruct s as [|b s]; [discriminate|]. simpl in H.
    destruct (ascii_dec a b) as [->|]; [|discriminate].
    destruct (IH s H) as [r ->]. exists r; reflexivity.
Qed.

Lemma occursb_complete (needle hay : str) :
  occurs needle hay -> occursb needle hay = true.
Proof.
  intros (pre & post & ->). induction pre as [|c pre IH].
  - rewrite app_nil_l. destruct (needle ++ post) eqn:E; simpl.
    + destruct needle; [reflexivity|discriminate].
    + rewrite <- E, starts_with_app. reflexivity.
  - simpl. rewrite IH. apply orb_true_r.
Qed.

Lemma hasSubOpen_false (s pre post : str) :
  hasSubOpen s = false -> s <> pre ++ "$"%char :: "{"%char :: post.
Proof.
  intros H E. unfold hasSubOpen in H.
  rewrite occursb_complete in H; [discriminate|].
  exists pre, post. exact E.
Qed.

Lemma hasSubOpen_tail (c : ascii) (s : str) :
  hasSubOpen (c :: s) = false -> hasSubOpen s = false.
Proof.
  unfold hasSubOpen. simpl. intros H. apply orb_false_iff in H. tauto.
Qed.

Lemma upto_Some (c : ascii) (s t rest : str) :
  upto c s = Some (t, rest) -> s = t ++ c :: rest /\ ~ In c t.
Proof.
  revert t rest. induction s as [|a s IH]; intros t rest H; [discriminate|].
  simpl in H. destruct (Ascii.eqb a c) eqn:E.
  - apply Ascii.eqb_eq in E. inversion H; subst. split; [reflexivity|intros []].
  - destruct (upto c s) as [[t' rest']|]; [|discriminate].
    inversion H; subst. destruct (IH _ _ eq_refl) as [-> Hn].
    split; [reflexivity|]. intros [Ha|Ht]; [|contradiction].
    subst a. rewrite Ascii.eqb_refl in E. discriminate.
Qed.

Lemma upto_app (c : ascii) (t rest : str) :
  ~ In c t -> upto c (t ++ c :: rest) = Some (t, rest).
Proof.
  induction t as [|a t IH]; intros Hn; simpl.
  - now rewrite Ascii.eqb_refl.
  - destruct (Ascii.eqb a c) eqn:E.
    + apply Ascii.eqb_eq in E. subst. exfalso. apply Hn. left; reflexivity.
    + rewrite IH; [reflexivity|]. intros H. apply Hn. right; exact H.
Qed.

Lemma markers_intro (pre t post : str) :
  ~ In "}"%char t ->
  In t (markers (pre ++ "$"%char :: "{"%char :: t ++ "}"%char :: post)).
Proof.
  intros Hn. induction pre as [|c pre IH].
  - rewrite app_nil_l.
    change (markers ("$"%char :: "{"%char :: t ++ "}"%char :: post))
      with ((match upto "}"%char (t ++ "}"%char :: post) with
             | Some (t0, _) => [t0]
             | None => []
             end) ++ markers ("{"%char :: t ++ "}"%char :: post)).
    rewrite (upto_app _ _ _ Hn). left; reflexivity.
  - rewrite <- app_comm_cons.
    change (markers (c :: pre ++ "$"%char :: "{"%char :: t ++ "}"%char :: post))
      with ((if starts_with ("${" : str)
                  (c :: pre ++ "$"%char :: "{"%char :: t ++ "}"%char :: post)
             then match upto "}"%char
                          (skipn 2 (c :: pre ++ "$"%char :: "{"%char :: t ++ "}"%char :: post))
                  with
                  | Some (t0, _) => [t0]
                  | None => []
                  end
             else [])
            ++ markers (pre ++ "$"%char :: "{"%char :: t ++ "}"%char :: post)).
    apply in_or_app. right. exact IH.
Qed.

Lemma markers_elim (text t : str) :
  In t (markers text) ->
  exists pre post, text = pre ++ "$"%char :: "{"%char :: t ++ "}"%char :: post
                   /\ ~ In "}"%char t.
Proof.
  induction text as [|c text IH]; [intros []|].
  intros H.
  change (markers (c :: text))
    with ((if starts_with ("${" : str) (c :: text)
           then match upto "}"%char (skipn 2 (c :: text)) with
                | Some (t0, _) => [t0]
                | None => []
                end
           else [])
          ++ markers text) in H.
  apply in_app_or in H. destruct H as [H|H].
  - destruct (starts_with ("${" : str) (c :: text)) eqn:Es; [|destruct H].
    apply starts_with_inv in Es. destruct Es as [r Er]. rewrite Er in *.
    simpl in H.
    destruct (upto "}"%char r) as [[t0 rest]|] eqn:Eu; [|destruct H].
    destruct H as [<-|[]].
    apply upto_Some in Eu. destruct Eu as [-> Hn].
    exists [], rest. split; [reflexivity|assumption].
  - destruct (IH H) as (pre & post & -> & Hn).
    exists (c :: pre), post. split; [reflexivity|assumption].
Qed.

(* ================================================================== *)
(** ** Guarded texts *)

(** Where two adjacent characters of [a ++ b] lie. *)
Lemma pair_in_app {X} (a b pre post : list X) (c1 c2 : X) :
  a ++ b = pre ++ c1 :: c2 :: post ->
  (exists l, a = pre ++ c1 :: c2 :: l /\ post = l ++ b)
  \/ (a = pre ++ [c1] /\ b = c2 :: post)
  \/ (exists l, pre = a ++ l /\ b = l ++ c1 :: c2 :: post).
Proof.
  intros H. apply app_eq_app in H. destruct H as [l [[Ha Hb]|[Ha Hb]]].
  - destruct l as [|x [|y l]].
    + right; right. exists []. rewrite app_nil_r in Ha. simpl in Hb. subst. split.
      * now rewrite app_nil_r.
      * reflexivity.
    + right; left. simpl in Hb. inversion Hb; subst. auto.
    + left. simpl in Hb. inversion Hb; subst. exists l. auto.
  - right; right. exists l. auto.
Qed.

Lemma Safe_app (toks : list str) (a b : str) :
  Safe toks a -> Safe toks b -> Safe toks (a ++ b).
Proof.
  intros [Ga Ea] [Gb Eb]. split.
  - intros pre post H. apply pair_in_app in H.
    destruct H as [[l [Ha Hp]]|[[Ha Hb]|[l [Hp Hb]]]].
    + destruct (Ga _ _ Ha) as (t & rest & Ht & ->).
      exists t, (rest ++ b). split; [assumption|].
      subst post. now rewrite <- app_assoc.
    + exfalso. exact (Ea _ Ha).
    + exact (Gb _ _ Hb).
  - intros pre H. destruct b as [|c b] using rev_ind.
    + rewrite app_nil_r in H. exact (Ea _ H).
    + rewrite app_assoc in H. apply app_inj_tail in H. destruct H as [_ ->].
      exact (Eb b eq_refl).
Qed.

Lemma Safe_plain (toks : list str) (s : str) :
  ~ In "$"%char s -> Safe toks s.
Proof.
  intros Hn. split.
  - intros pre post ->. exfalso. apply Hn. apply in_or_app. right. left. reflexivity.
  - intros pre ->. apply Hn. apply in_or_app. right. left. reflexivity.
Qed.

Lemma Safe_nil (toks : list str) : Safe toks [].
Proof. apply Safe_plain. intros []. Qed.

Lemma Safe_join (toks : list str) (sep : str) (parts : list str) :
  Safe toks sep -> Forall (Safe toks) parts -> Safe toks (join sep parts).
Proof.
  intros Hsep Hparts. induction Hparts as [|p parts Hp Hps IH]; [apply Safe_nil|].
  destruct parts as [|q parts]; [exact Hp|].
  change (join sep (p :: q :: parts)) with (p ++ sep ++ join sep (q :: parts)).
  repeat apply Safe_app; assumption.
Qed.

(** *** Quoted strings *)

Lemma escapeChar_dollar (c : ascii) :
  (c = "$"%char /\ escapeChar c = ["$"%char]) \/ ~ In "$"%char (escapeChar c).
Proof.
  destruct c as [[|] [|] [|] [|] [|] [|] [|] [|]];
    first [ left; split; reflexivity
          | right; vm_compute; intuition discriminate ].
Qed.

Lemma escapeChar_plain (c : ascii) :
  In c ("$"%char :: "{"%char :: "}"%char :: pool) -> escapeChar c = [c].
Proof.
  intros H. vm_compute in H.
  repeat (destruct H as [<-|H]; [reflexivity|]). destruct H.
Qed.

Lemma flat_map_escapeChar_plain (s : str) :
  Forall (fun c => In c ("$"%char :: "{"%char :: "}"%char :: pool)) s ->
  flat_map escapeChar s = s.
Proof.
  induction 1 as [|c s Hc _ IH]; [reflexivity|].
  simpl. rewrite (escapeChar_plain c Hc), IH. reflexivity.
Qed.

Lemma pool_no_dollar (t : str) : poolName t -> ~ In "$"%char t.
Proof.
  intros [_ Hp] Hin. rewrite Forall_forall in Hp. specialize (Hp _ Hin).
  vm_compute in Hp. repeat (destruct Hp as [Hp|Hp]; [discriminate|]). destruct Hp.
Qed.

Lemma pool_no_brace (t : str) : poolName t -> ~ In "}"%char t.
Proof.
  intros [_ Hp] Hin. rewrite Forall_forall in Hp. specialize (Hp _ Hin).
  vm_compute in Hp. repeat (destruct Hp as [Hp|Hp]; [discriminate|]). destruct Hp.
Qed.

Lemma quote_marker (t : str) :
  poolName t ->
  QuoteJSONString (marker t)
  = dquote :: "$"%char :: "{"%char :: t ++ ["}"%char; dquote].
Proof.
  intros [_ Hp]. unfold QuoteJSONString.
  rewrite flat_map_escapeChar_plain.
  - unfold marker. simpl. now rewrite <- app_assoc.
  - unfold marker. apply Forall_app. split.
    + constructor; [left; reflexivity|].
      constructor; [right; left; reflexivity|constructor].
    + apply Forall_app. split.
      * eapply Forall_impl; [|exact Hp]. intros c Hc. do 3 right. exact Hc.
      * constructor; [do 2 right; left; reflexivity|constructor].
Qed.

Lemma quote_body_free (s : str) :
  hasSubOpen s = false ->
  forall pre post,
    flat_map escapeChar s ++ [dquote] <> pre ++ "$"%char :: "{"%char :: post.
Proof.
  induction s as [|c s IH]; intros Hs pre post H.
  - destruct pre as [|x [|y pre]]; discriminate.
  - change (flat_map escapeChar (c :: s)) with (escapeChar c ++ flat_map escapeChar s) in H.
    rewrite <- app_assoc in H. apply pair_in_app in H.
    destruct H as [[l [Ha _]]|[[Ha Hb]|[l [_ Hb]]]].
    + destruct (escapeChar_dollar c) as [[_ E]|Hn].
      * rewrite E in Ha. destruct pre as [|x [|y pre]]; discriminate.
      * apply Hn. rewrite Ha. apply in_or_app. right. left. reflexivity.
    + destruct (escapeChar_dollar c) as [[-> _]|Hn].
      * destruct s as [|c' s].
        -- discriminate.
        -- destruct (escapeChar_head c') as (h & tl & Eh & Hh).
           simpl in Hb. rewrite Eh in Hb. simpl in Hb. inversion Hb; subst h.
           destruct Hh as [Hh|Hh]; [discriminate|]. subst c'.
           vm_compute in Hs. discriminate.
      * apply Hn. rewrite Ha. apply in_or_app. right. left. reflexivity.
    + exact (IH (hasSubOpen_tail _ _ Hs) _ _ Hb).
Qed.

Lemma Safe_quote_free (toks : list str) (s : str) :
  hasSubOpen s = false -> Safe toks (QuoteJSONString s).
Proof.
  intros Hs. unfold QuoteJSONString. split.
  - intros pre post H. exfalso.
    destruct pre as [|x pre]; [discriminate|].
    inversion H. exact (quote_body_free s Hs _ _ H2).
  - intros pre H.
    change (dquote :: flat_map escapeChar s ++ [dquote])
      with ((dquote :: flat_map escapeChar s) ++ [dquote]) in H.
    apply app_inj_tail in H. destruct H as [_ H]. discriminate.
Qed.

Lemma Safe_quote_marker (toks : list str) (t : str) :
  In t toks -> poolName t -> Safe toks (QuoteJSONString (marker t)).
Proof.
  intros Ht Hp. rewrite (quote_marker t Hp). split.
  - intros pre post H.
    destruct pre as [|x pre]; [discriminate|]. inversion H as [[Hx H']]. clear H.
    destruct pre as [|y pre].
    + inversion H'. exists t, [dquote]. split; [assumption|]. reflexivity.
    + exfalso. inversion H' as [[Hy H'']].
      assert (Hin : In "$"%char ("{"%char :: t ++ ["}"%char; dquote])).
      { rewrite H''. apply in_or_app. right. left. reflexivity. }
      destruct Hin as [Hin|Hin]; [discriminate|].
      apply in_app_or in Hin. destruct Hin as [Hin|Hin].
      * exact (pool_no_dollar t Hp Hin).
      * destruct Hin as [Hin|[Hin|[]]]; discriminate.
  - intros pre H.
    change (dquote :: "$"%char :: "{"%char :: t ++ ["}"%char; dquote])
      with ((dquote :: "$"%char :: "{"%char :: t) ++ ["}"%char; dquote]) in H.
    change ["}"%char; dquote] with (["}"%char] ++ [dquote]) in H.
    rewrite app_assoc in H.
    apply app_inj_tail in H. destruct H as [_ H]. discriminate.
Qed.

Lemma Safe_okStr (toks : list str) (s : str) :
  (forall t, In t toks -> poolName t) ->
  okStr toks s -> Safe toks (QuoteJSONString s).
Proof.
  intros Hpool [Hs|(t & Ht & ->)].
  - now apply Safe_quote_free.
  - apply Safe_quote_marker; auto.
Qed.

(** *** Numbers *)

Lemma uint_digits (u : uint) :
  Forall (fun c => isDigit c = true) (list_ascii_of_string (NilEmpty.string_of_uint u)).
Proof. induction u; simpl; constructor; auto. Qed.

Lemma numberToString_pos (p : positive) :
  numberToString (Z.pos p)
  = list_ascii_of_string (NilEmpty.string_of_uint (Pos.to_uint p)).
Proof.
  unfold numberToString. simpl.
  pose proof (Unsigned.to_uint_nonnil p) as Hn.
  destruct (Pos.to_uint p); [contradiction|reflexivity..].
Qed.

Lemma numberToString_neg (p : positive) :
  numberToString (Z.neg p)
  = "-"%char :: list_ascii_of_string (NilEmpty.string_of_uint (Pos.to_uint p)).
Proof.
  unfold numberToString. simpl.
  pose proof (Unsigned.to_uint_nonnil p) as Hn.
  destruct (Pos.to_uint p); [contradiction|reflexivity..].
Qed.

Lemma digit_not_dollar (c : ascii) : isDigit c = true -> c <> "$"%char.
Proof. intros H ->. discriminate. Qed.

Lemma numberToString_no_dollar (z : Z) : ~ In "$"%char (numberToString z).
Proof.
  assert (Hd : forall u, ~ In "$"%char (list_ascii_of_string (NilEmpty.string_of_uint u))).
  { intros u Hin. pose proof (uint_digits u) as Hu. rewrite Forall_forall in Hu.
    exact (digit_not_dollar _ (Hu _ Hin) eq_refl). }
  destruct z as [|p|p].
  - vm_compute. intuition discriminate.
  - rewrite numberToString_pos. apply Hd.
  - rewrite numberToString_neg. intros [H|H]; [discriminate|]. exact (Hd _ H).
Qed.

(** *** The serialized document *)

Lemma Safe_literal (toks : list str) (s : string) :
  forallb (fun c => negb (Ascii.eqb c "$"%char)) (list_ascii_of_string s) = true ->
  Safe toks (list_ascii_of_string s).
Proof.
  intros H. apply Safe_plain. intros Hin.
  rewrite forallb_forall in H. specialize (H _ Hin).
  rewrite Ascii.eqb_refl in H. discriminate.
Qed.

Lemma Safe_bracket (toks : list str) (gap indent : str) (opening closing : string)
      (parts : list str) :
  ~ In "$"%char gap -> ~ In "$"%char indent ->
  forallb (fun c => negb (Ascii.eqb c "$"%char)) (list_ascii_of_string opening) = true ->
  forallb (fun c => negb (Ascii.eqb c "$"%char)) (list_ascii_of_string closing) = true ->
  Forall (Safe toks) parts ->
  Safe toks (bracket gap indent opening closing parts).
Proof.
  intros Hg Hi Ho Hc Hp.
  assert (Hinner : Safe toks (indent ++ gap)).
  { apply Safe_app; apply Safe_plain; assumption. }
  assert (Hlf : Safe toks [LF]).
  { apply Safe_plain. intros [H|[]]. discriminate. }
  assert (Hcomma : Safe toks ("," : str)) by (apply Safe_literal; reflexivity).
  unfold bracket. destruct parts as [|p parts].
  - apply Safe_app; apply Safe_literal; assumption.
  - destruct gap as [|g gap].
    + repeat apply Safe_app;
        first [ apply Safe_literal; assumption
              | apply Safe_join; assumption ].
    + cbv zeta.
      repeat apply Safe_app;
        first [ assumption
              | apply Safe_literal; assumption
              | apply Safe_plain; assumption
              | apply Safe_join;
                [repeat apply Safe_app;
                 first [assumption | apply Safe_plain; assumption]
                |assumption] ].
Qed.

Lemma okTree_elem (toks : list str) (l : list json) (e : json) :
  okTree toks (JArr l) -> In e l -> okTree toks e.
Proof.
  intros [H1 H2] He. split.
  - intros s Hs. apply H1. apply In_nodes_JArr. right. eauto.
  - intros kvs k Hk. apply H2. apply In_nodes_JArr. right. eauto.
Qed.

Lemma okTree_prop (toks : list str) (kvs : list (str * json)) (kv : str * json) :
  okTree toks (JObj kvs) -> In kv kvs ->
  hasSubOpen (fst kv) = false /\ okTree toks (snd kv).
Proof.
  intros [H1 H2] He. split; [|split].
  - apply (H2 kvs); [apply In_nodes_self|]. apply in_map. exact He.
  - intros s Hs. apply H1. apply In_nodes_JObj. right. eauto.
  - intros kvs' k Hk. apply H2. apply In_nodes_JObj. right. eauto.
Qed.

Lemma serialize_Safe (toks : list str) (v : json) :
  (forall t, In t toks -> poolName t) ->
  okTree toks v ->
  forall gap indent,
    ~ In "$"%char gap -> ~ In "$"%char indent ->
    Safe toks (serialize gap indent v).
Proof.
  intros Hpool.
  induction v as [| b | z | s | l IH | kvs IH] using json_ind;
    intros Hok gap indent Hg Hi.
  - apply (Safe_literal toks "null"). reflexivity.
  - destruct b; [apply (Safe_literal toks "true")|apply (Safe_literal toks "false")];
      reflexivity.
  - apply Safe_plain. apply numberToString_no_dollar.
  - apply Safe_okStr; [assumption|]. apply (proj1 Hok). apply In_nodes_self.
  - change (serialize gap indent (JArr l))
      with (bracket gap indent ("[" : str) ("]" : str)
              (map (serialize gap (indent ++ gap)) l)).
    apply Safe_bracket; try assumption; try reflexivity.
    rewrite Forall_forall in IH. apply Forall_forall. intros p Hp.
    apply in_map_iff in Hp. destruct Hp as (e & <- & He).
    apply IH; try assumption.
    + eapply okTree_elem; eassumption.
    + intros H. apply in_app_or in H. tauto.
  - change (serialize gap indent (JObj kvs))
      with (bracket gap indent ("{" : str) ("}" : str)
              (map (fun kv => QuoteJSONString (fst kv) ++ colon gap
                              ++ serialize gap (indent ++ gap) (snd kv)) kvs)).
    apply Safe_bracket; try assumption; try reflexivity.
    rewrite Forall_forall in IH. apply Forall_forall. intros p Hp.
    apply in_map_iff in Hp. destruct Hp as (kv & <- & Hkv).
    destruct (okTree_prop _ _ _ Hok Hkv) as [Hk Hv].
    repeat apply Safe_app.
    + now apply Safe_quote_free.
    + destruct gap; [apply (Safe_literal toks ":")|apply (Safe_literal toks ": ")];
        reflexivity.
    + apply IH; try assumption.
      intros H. apply in_app_or in H. tauto.
Qed.

(** A string of the document is, in its quotes, a part of the text. *)
Lemma occurs_join (sep p : str) (parts : list str) :
  In p parts -> occurs p (join sep parts).
Proof.
  induction parts as [|q parts IH]; [intros []|].
  intros [->|Hin].
  - destruct parts; [apply occurs_refl|]. apply occurs_app_l, occurs_refl.
  - destruct parts as [|q' parts]; [destruct Hin|].
    change (join sep (q :: q' :: parts)) with (q ++ sep ++ join sep (q' :: parts)).
    apply occurs_app_r, occurs_app_r. exact (IH Hin).
Qed.

Lemma occurs_bracket (gap indent opening closing p : str) (parts : list str) :
  In p parts -> occurs p (bracket gap indent opening closing parts).
Proof.
  intros Hin. unfold bracket.
  destruct parts as [|q parts]; [destruct Hin|].
  destruct gap as [|g gap].
  - apply occurs_app_r, occurs_app_l. now apply occurs_join.
  - cbv zeta. apply occurs_app_r, occurs_app_r, occurs_app_r, occurs_app_l.
    now apply occurs_join.
Qed.

Lemma occurs_string_node (v : json) (s : str) :
  In (JStr s) (nodes v) ->
  forall gap indent, occurs (QuoteJSONString s) (serialize gap indent v).
Proof.
  induction v as [| b | z | s' | l IH | kvs IH] using json_ind;
    intros Hin gap indent;
    try (destruct Hin as [Hin|[]]; discriminate).
  - destruct Hin as [Hin|[]]. inversion Hin; subst. apply occurs_refl.
  - apply In_nodes_JArr in Hin. destruct Hin as [Hin|(e & He & Hin)]; [discriminate|].
    rewrite Forall_forall in IH.
    change (serialize gap indent (JArr l))
      with (bracket gap indent ("[" : str) ("]" : str)
              (map (serialize gap (indent ++ gap)) l)).
    eapply occurs_trans; [exact (IH e He Hin gap (indent ++ gap))|].
    apply occurs_bracket. now apply in_map.
  - apply In_nodes_JObj in Hin. destruct Hin as [Hin|(kv & Hkv & Hin)]; [discriminate|].
    rewrite Forall_forall in IH.
    change (serialize gap indent (JObj kvs))
      with (bracket gap indent ("{" : str) ("}" : str)
              (map (fun kv => QuoteJSONString (fst kv) ++ colon gap
                              ++ serialize gap (indent ++ gap) (snd kv)) kvs)).
    eapply occurs_trans; [exact (IH kv Hkv Hin gap (indent ++ gap))|].
    eapply occurs_trans;
      [|apply occurs_bracket;
        exact (in_map (fun kv => QuoteJSONString (fst kv) ++ colon gap
                                 ++ serialize gap (indent ++ gap) (snd kv)) kvs kv Hkv)].
    apply occurs_app_r, occurs_app_r, occurs_refl.
Qed.

(* ================================================================== *)
(** ** The document after extraction and its text *)

Lemma okTree_incl (toks toks' : list str) (v : json) :
  incl toks toks' -> okTree toks v -> okTree toks' v.
Proof.
  intros Hi [H1 H2]. split; [|exact H2].
  intros s Hs. destruct (H1 s Hs) as [Hf|(t & Ht & ->)]; [left; exact Hf|].
  right. exists t. auto.
Qed.

Lemma okTree_JArr (toks : list str) (l : list json) :
  (forall e, In e l -> okTree toks e) -> okTree toks (JArr l).
Proof.
  intros H. split.
  - intros s Hs. apply In_nodes_JArr in Hs.
    destruct Hs as [Hs|(e & He & Hs)]; [discriminate|]. exact (proj1 (H e He) s Hs).
  - intros kvs k Hk. apply In_nodes_JArr in Hk.
    destruct Hk as [Hk|(e & He & Hk)]; [discriminate|]. exact (proj2 (H e He) kvs k Hk).
Qed.

Lemma okTree_JObj (toks : list str) (kvs : list (str * json)) :
  (forall kv, In kv kvs -> hasSubOpen (fst kv) = false /\ okTree toks (snd kv)) ->
  okTree toks (JObj kvs).
Proof.
  intros H. split.
  - intros s Hs. apply In_nodes_JObj in Hs.
    destruct Hs as [Hs|(kv & Hkv & Hs)]; [discriminate|].
    exact (proj1 (proj2 (H kv Hkv)) s Hs).
  - intros kvs' k Hk Hin. apply In_nodes_JObj in Hk.
    destruct Hk as [Hk|(kv & Hkv & Hk)].
    + inversion Hk; subst kvs'. apply in_map_iff in Hin.
      destruct Hin as (kv & <- & Hkv). exact (proj1 (H kv Hkv)).
    + exact (proj2 (proj2 (H kv Hkv)) kvs' k Hk Hin).
Qed.

Lemma okTree_scalar (toks : list str) (v : json) :
  match v with JNull | JBool _ | JNum _ => True | _ => False end ->
  okTree toks v.
Proof.
  intros Hv. destruct v; try contradiction;
    (split; [intros s [Hs|[]]|intros kvs k [Hk|[]]]; discriminate).
Qed.

Lemma okTree_JStr (toks : list str) (s : str) :
  okStr toks s -> okTree toks (JStr s).
Proof.
  intros Hs. split.
  - intros s' [H|[]]. inversion H; subst. exact Hs.
  - intros kvs k [H|[]]. discriminate.
Qed.

Section ExtractionText.
Context {Template : Type}.
Variable this : Env Template.

Local Abbreviation gi := (getIntrinsicFunctions this).

(** A document free of [${] holds, after extraction, no [${] but those of
    the markers of the names that were yielded. *)
Lemma extraction_okTree (v : json) :
  (forall n v' ps n',
     gi v n = (v', ps, n') ->
     freeOfMarkers this v = true -> okTree (map fst ps) v')
  /\
  (forall n v' ps n',
     visit this gi v n = (v', ps, n') ->
     freeValue this (freeOfMarkers this) v = true -> okTree (map fst ps) v').
Proof.
  induction v as [| b | z | s | l IH | kvs IH] using json_ind;
    try (split; intros n v' ps n' H Hf; cbn in H; inversion H; subst;
         apply okTree_scalar; exact I).
  - split; intros n v' ps n' H Hf; cbn in H; inversion H; subst;
      apply okTree_JStr; left; cbn in Hf; now apply negb_true_iff in Hf.
  - rewrite Forall_forall in IH. split; intros n v' ps n' H Hf.
    + rewrite gi_JArr in H.
      destruct (traverse (visit this gi) l n) as [[l' ps'] m] eqn:E.
      inversion H; subst. clear H.
      change (forallb (freeValue this (freeOfMarkers this)) l = true) in Hf.
      rewrite forallb_forall in Hf.
      destruct (traverse_runs _ _ _ _ _ _ E) as [Hruns _].
      apply okTree_JArr. intros b Hb.
      destruct (Forall2_In_r _ _ _ _ Hruns Hb) as (a & Ha & m0 & p & m' & Hrun & Hincl).
      apply (okTree_incl (map fst p)); [now apply incl_map|].
      exact (proj2 (IH a Ha) _ _ _ _ Hrun (Hf a Ha)).
    + rewrite visit_JArr in H.
      destruct (traverse gi l n) as [[l' ps'] m] eqn:E.
      inversion H; subst. clear H.
      change (forallb (freeOfMarkers this) l = true) in Hf.
      rewrite forallb_forall in Hf.
      destruct (traverse_runs _ _ _ _ _ _ E) as [Hruns _].
      apply okTree_JArr. intros b Hb.
      destruct (Forall2_In_r _ _ _ _ Hruns Hb) as (a & Ha & m0 & p & m' & Hrun & Hincl).
      apply (okTree_incl (map fst p)); [now apply incl_map|].
      exact (proj1 (IH a Ha) _ _ _ _ Hrun (Hf a Ha)).
  - rewrite Forall_forall in IH.
    assert (Hobj : forall n v' ps n',
               gi (JObj kvs) n = (v', ps, n') ->
               freeOfMarkers this (JObj kvs) = true -> okTree (map fst ps) v').
    { intros n v' ps n' H Hf. rewrite gi_JObj in H.
      destruct (traverse _ kvs n) as [[kvs' ps'] m] eqn:E.
      inversion H; subst. clear H.
      change (forallb (fun kv => negb (hasSubOpen (fst kv))
                                 && freeValue this (freeOfMarkers this) (snd kv)) kvs
              = true) in Hf.
      rewrite forallb_forall in Hf.
      destruct (traverse_runs _ _ _ _ _ _ E) as [Hruns _].
      apply okTree_JObj. intros b Hb.
      destruct (Forall2_In_r _ _ _ _ Hruns Hb) as (a & Ha & m0 & p & m' & Hrun & Hincl).
      apply perProperty_run in Hrun. destruct Hrun as (w & Hw & ->). simpl.
      specialize (Hf a Ha). apply andb_true_iff in Hf. destruct Hf as [Hk Hv].
      split; [now apply negb_true_iff in Hk|].
      apply (okTree_incl (map fst p)); [now apply incl_map|].
      exact (proj2 (IH a Ha) _ _ _ _ Hw Hv). }
    split; [exact Hobj|].
    intros n v' ps n' H Hf. rewrite visit_JObj in H.
    change (freeValue this (freeOfMarkers this) (JObj kvs))
      with (if isIntrinsic this (JObj kvs) then true
            else freeOfMarkers this (JObj kvs)) in Hf.
    destruct (isIntrinsic this (JObj kvs)) eqn:Ei.
    + inversion H; subst. apply okTree_JStr. right.
      exists (chance this n). split; [left; reflexivity|reflexivity].
    + exact (Hobj _ _ _ _ H Hf).
Qed.

Lemma assemble_document (d : json) (n : nat) :
  (forall s, d <> JStr s) ->
  assemble this d n
  = let '(d', functionMappings, n') := gi d n in
    match functionMappings with
    | [] => (Text (JSON_stringify2 d'), n')
    | _ =>
        (FnSub (JSON_stringify2 d')
           (fromPairs (map (fun kv => (fst kv, translateLocalFunctionNames this (snd kv)))
                           functionMappings)), n')
    end.
Proof.
  intros Hd. destruct d; try reflexivity. exfalso. exact (Hd s eq_refl).
Qed.
End ExtractionText.

Lemma setProp_keys (k t : str) (v : json) (kvs : list (str * json)) :
  In t (map fst (setProp k v kvs)) <-> t = k \/ In t (map fst kvs).
Proof.
  induction kvs as [|[k' v'] kvs IH]; simpl.
  - intuition.
  - destruct (str_eqb k k') eqn:E; simpl.
    + apply str_eqb_eq in E. subst. intuition.
    + rewrite IH. intuition.
Qed.

Lemma fromPairs_keys (t : str) (l : list (str * json)) :
  In t (map fst (fromPairs l)) <-> In t (map fst l).
Proof.
  unfold fromPairs.
  assert (H : forall acc,
             In t (map fst (fold_left (fun acc kv => setProp (fst kv) (snd kv) acc) l acc))
             <-> In t (map fst acc) \/ In t (map fst l)).
  { induction l as [|[k v] l IH]; intros acc; simpl.
    - intuition.
    - rewrite IH, setProp_keys. intuition. }
  rewrite H. simpl. intuition.
Qed.

Lemma split_unique {X} (c : X) (t t0 x y : list X) :
  ~ In c t -> ~ In c t0 -> t ++ c :: x = t0 ++ c :: y -> t = t0.
Proof.
  revert t0. induction t as [|a t IH]; intros [|b t0] Ht Ht0 H; simpl in *.
  - reflexivity.
  - inversion H; subst. exfalso. apply Ht0. left; reflexivity.
  - inversion H; subst. exfalso. apply Ht. left; reflexivity.
  - inversion H; subst. f_equal. apply IH; auto.
Qed.

Lemma marker_occurrence (pre t post : str) :
  pre ++ (dquote :: "$"%char :: "{"%char :: t ++ ["}"%char; dquote]) ++ post
  = (pre ++ [dquote]) ++ "$"%char :: "{"%char :: t ++ "}"%char :: dquote :: post.
Proof.
  rewrite <- (app_assoc pre). f_equal. simpl. do 3 f_equal.
  now rewrite <- app_assoc.
Qed.

(** C2, as amended. For a definition that is not a string: every key of
    the parameter map is the name of a marker [${name}] of the serialized
    text; and when no key and no string that extraction leaves in the
    document contains [${], every marker of the text is a key of the
    parameter map, so that the two sets are equal. The names are those of
    [randomName]: ten characters of its pool. *)
Theorem token_parameter_correspondence {Template : Type} (this : Env Template)
    (d : json) (n : nat) :
  (forall k, poolName (chance this k)) ->
  (forall s, d <> JStr s) ->
  (forall t,
     In t (map fst (paramsOf (fst (assemble this d n)))) ->
     In t (markers (textOf (fst (assemble this d n)))))
  /\
  (freeOfMarkers this d = true ->
   forall t,
     In t (markers (textOf (fst (assemble this d n)))) <->
     In t (map fst (paramsOf (fst (assemble this d n))))).
Proof.
  intros Hpool Hd. rewrite (assemble_document this d n Hd).
  destruct (getIntrinsicFunctions this d n) as [[d' fm] n'] eqn:E.
  set (toks := map fst fm).
  assert (Htoks : forall t, In t toks ->
                    poolName t /\ In (JStr (marker t)) (nodes d')).
  { intros t Ht. apply in_map_iff in Ht. destruct Ht as ([p x] & <- & Hin).
    destruct (proj1 (extraction_pairs this d) _ _ _ _ E _ _ Hin) as (_ & Hn & k & ->).
    simpl. split; [apply Hpool|exact Hn]. }
  assert (Hkeys : forall t,
             In t (map fst (fromPairs
                              (map (fun kv => (fst kv, translateLocalFunctionNames this (snd kv)))
                                   fm)))
             <-> In t toks).
  { intros t. rewrite fromPairs_keys, map_map. simpl. reflexivity. }
  assert (Hsup : forall t, In t toks -> In t (markers (JSON_stringify2 d'))).
  { intros t Ht. destruct (Htoks t Ht) as [Hp Hn].
    destruct (occurs_string_node d' _ Hn ("  " : str) []) as (pre & post & Htext).
    rewrite (quote_marker t Hp) in Htext.
    unfold JSON_stringify2. rewrite Htext, marker_occurrence.
    apply markers_intro. exact (pool_no_brace t Hp). }
  assert (Hsub : freeOfMarkers this d = true ->
                 forall t, In t (markers (JSON_stringify2 d')) -> In t toks).
  { intros Hf t Ht.
    pose proof (proj1 (extraction_okTree this d) _ _ _ _ E Hf) as Hok.
    assert (Hsafe : Safe toks (JSON_stringify2 d')).
    { apply serialize_Safe.
      - intros t0 Ht0. exact (proj1 (Htoks t0 Ht0)).
      - exact Hok.
      - vm_compute. intuition discriminate.
      - intros []. }
    apply markers_elim in Ht. destruct Ht as (pre & post & Htext & Hn).
    destruct (proj1 Hsafe _ _ Htext) as (t0 & rest & Ht0 & Heq).
    assert (t = t0).
    { apply (split_unique "}"%char t t0 post rest); try assumption.
      exact (pool_no_brace t0 (proj1 (Htoks t0 Ht0))). }
    subst t0. exact Ht0. }
  destruct fm as [|pair fm]; simpl fst; simpl textOf; simpl paramsOf.
  - split.
    + intros t [].
    + intros Hf t. split; [|intros []]. intros Ht. exact (Hsub Hf t Ht).
  - split.
    + intros t Ht. apply Hsup. now apply Hkeys.
    + intros Hf t. split; intros Ht.
      * apply Hkeys. now apply Hsub.
      * apply Hsup. now apply Hkeys.
Qed.

Lemma in_pool (c : ascii) : existsb (Ascii.eqb c) pool = true -> In c pool.
Proof.
  intros H. apply existsb_exists in H. destruct H as (x & Hx & E).
  apply Ascii.eqb_eq in E. now subst.
Qed.

Lemma sample_names_pool (k : nat) : poolName (Sample.names k).
Proof.
  unfold Sample.names. split.
  - apply repeat_length.
  - apply Forall_forall. intros c Hc. apply repeat_spec in Hc. subst c.
    apply nth_In. apply Nat.lt_trans with 26.
    + apply Nat.mod_upper_bound. discriminate.
    + vm_compute. repeat constructor.
Qed.

Lemma token_parameter_correspondence_witness :
  map fst (paramsOf (fst (assemble Sample.env Sample.helloDefinition 0)))
    = [("aaaaaaaaaa" : str)]
  /\ (forall t,
        In t (markers (textOf (fst (assemble Sample.env Sample.helloDefinition 0))))
        <-> In t (map fst (paramsOf (fst (assemble Sample.env Sample.helloDefinition 0))))).
Proof.
  split; [reflexivity|].
  apply (token_parameter_correspondence Sample.env Sample.helloDefinition 0).
  - exact sample_names_pool.
  - discriminate.
  - reflexivity.
Defined.

(** C2, as stated, fails: the comment [${Qm3kTz81Lp}] of the document is a
    marker of the text, its name ten characters of the pool, and is not a
    key of the parameter map, whose only key is the name drawn for the
    reference. *)
Lemma token_parameter_correspondence_counterexample :
  In ("Qm3kTz81Lp" : str)
     (markers (textOf (fst (assemble Sample.env Sample.ownMarker 0))))
  /\ poolName ("Qm3kTz81Lp" : str)
  /\ map fst (paramsOf (fst (assemble Sample.env Sample.ownMarker 0)))
     = [("aaaaaaaaaa" : str)]
  /\ ~ In ("Qm3kTz81Lp" : str)
         (map fst (paramsOf (fst (assemble Sample.env Sample.ownMarker 0)))).
Proof.
  split; [vm_compute; tauto|]. split.
  - split; [reflexivity|].
    repeat (constructor; [apply in_pool; reflexivity|]). constructor.
  - split; [reflexivity|]. vm_compute. intros [H|[]]. discriminate.
Qed.

(* ================================================================== *)
(** ** Parsing the serialized text back *)

Lemma skipWs_blank (pad s : str) : blank pad -> skipWs (pad ++ s) = skipWs s.
Proof.
  induction 1 as [|c pad Hc _ IH]; [reflexivity|]. simpl. now rewrite Hc.
Qed.

Lemma skipWs_head (c : ascii) (s : str) : isWs c = false -> skipWs (c :: s) = c :: s.
Proof. intros H. simpl. now rewrite H. Qed.

Lemma parseValue_blank (fuel : nat) (pad s : str) :
  blank pad -> parseValue fuel (pad ++ s) = parseValue fuel s.
Proof.
  intros Hp. destruct fuel as [|fuel]; [reflexivity|].
  simpl. now rewrite (skipWs_blank pad s Hp).
Qed.

Lemma parseMembers_blank (fuel : nat) (pad s : str) :
  blank pad -> parseMembers fuel (pad ++ s) = parseMembers fuel s.
Proof.
  intros Hp. destruct fuel as [|fuel]; [reflexivity|].
  simpl. now rewrite (skipWs_blank pad s Hp).
Qed.

(** *** Strings *)

Lemma parseChars_escapeChar (c : ascii) (r : str) :
  parseChars (escapeChar c ++ r)
  = match parseChars r with
    | Some (t, rest) => Some (c :: t, rest)
    | None => None
    end.
Proof.
  destruct c as [[|] [|] [|] [|] [|] [|] [|] [|]]; reflexivity.
Qed.

Lemma parseChars_quote (s rest : str) :
  parseChars (flat_map escapeChar s ++ dquote :: rest) = Some (s, rest).
Proof.
  induction s as [|c s IH]; [reflexivity|].
  change (flat_map escapeChar (c :: s)) with (escapeChar c ++ flat_map escapeChar s).
  rewrite <- app_assoc, parseChars_escapeChar, IH. reflexivity.
Qed.

Lemma QuoteJSONString_app (s rest : str) :
  QuoteJSONString s ++ rest = dquote :: flat_map escapeChar s ++ dquote :: rest.
Proof.
  unfold QuoteJSONString. simpl. now rewrite <- app_assoc.
Qed.

(** *** Numbers *)

Lemma spanDigits_app (ds rest : str) :
  Forall (fun c => isDigit c = true) ds ->
  continuesNumber rest = false ->
  spanDigits (ds ++ rest) = (ds, rest).
Proof.
  intros Hd Hr. induction Hd as [|c ds Hc _ IH].
  - destruct rest as [|c rest]; [reflexivity|].
    simpl in *. apply orb_false_iff in Hr. destruct Hr as [Hr _].
    apply orb_false_iff in Hr. destruct Hr as [Hr _].
    apply orb_false_iff in Hr. destruct Hr as [Hr _].
    now rewrite Hr.
  - simpl. rewrite Hc, IH. reflexivity.
Qed.

Lemma unorm_head (d d' : uint) : unorm d = D0 d' -> d' = Nil.
Proof.
  induction d; simpl; intros H; try discriminate; auto.
  inversion H; reflexivity.
Qed.

Lemma to_uint_normal (p : positive) : unorm (Pos.to_uint p) = Pos.to_uint p.
Proof.
  rewrite <- (Unsigned.to_of (Pos.to_uint p)), Unsigned.of_to. reflexivity.
Qed.

Lemma to_uint_head (p : positive) (d : uint) : Pos.to_uint p <> D0 d.
Proof.
  intros H. pose proof (to_uint_normal p) as Hn. rewrite H in Hn.
  pose proof (Unsigned.to_uint_nonzero p) as Hz. rewrite H in Hz.
  pose proof (unorm_head (D0 d) d) as Hd. rewrite Hn in Hd.
  specialize (Hd eq_refl). subst d. apply Hz. reflexivity.
Qed.

Lemma parse_digits (p : positive) (rest : str) :
  continuesNumber rest = false ->
  exists d more,
    list_ascii_of_string (NilEmpty.string_of_uint (Pos.to_uint p)) = d :: more
    /\ isDigit d = true
    /\ (Ascii.eqb d "0"%char && negb (match more with [] => true | _ => false end)) = false
    /\ spanDigits ((d :: more) ++ rest) = (d :: more, rest)
    /\ NilEmpty.uint_of_string (string_of_list_ascii (d :: more)) = Some (Pos.to_uint p).
Proof.
  intros Hr.
  pose proof (uint_digits (Pos.to_uint p)) as Hd.
  pose proof (Unsigned.to_uint_nonnil p) as Hnil.
  pose proof (to_uint_head p) as Hhead.
  destruct (list_ascii_of_string (NilEmpty.string_of_uint (Pos.to_uint p)))
    as [|d more] eqn:E.
  - destruct (Pos.to_uint p); try contradiction; discriminate.
  - exists d, more. split; [reflexivity|]. split; [now inversion Hd|]. split.
    + destruct (Pos.to_uint p) as [|u|u|u|u|u|u|u|u|u|u]; simpl in E;
        inversion E; subst; try reflexivity.
      exfalso. exact (Hhead u eq_refl).
    + split; [now apply spanDigits_app|].
      rewrite <- E, string_of_list_ascii_of_string. apply NilEmpty.usu.
Qed.

Lemma parseDigits_to_uint (negative : bool) (p : positive) (rest : str) :
  continuesNumber rest = false ->
  parseDigits negative
    (list_ascii_of_string (NilEmpty.string_of_uint (Pos.to_uint p)) ++ rest)
  = Some (if negative then Z.neg p else Z.pos p, rest).
Proof.
  intros Hr. destruct (parse_digits p rest Hr) as (d & more & E & Hd & Hz & Hs & Hu).
  rewrite E. unfold parseDigits. rewrite Hs, Hz, Hr, Hu.
  unfold Z.of_uint. rewrite Unsigned.of_to. now destruct negative.
Qed.

Lemma parseNumber_numberToString (z : Z) (rest : str) :
  continuesNumber rest = false ->
  parseNumber (numberToString z ++ rest) = Some (z, rest).
Proof.
  intros Hr. destruct z as [|p|p].
  - change (numberToString 0 ++ rest) with ("0"%char :: rest).
    unfold parseNumber. change (Ascii.eqb "0"%char "-"%char) with false. cbv iota.
    unfold parseDigits.
    change (spanDigits ("0"%char :: rest)) with (spanDigits (["0"%char] ++ rest)).
    rewrite (spanDigits_app ["0"%char] rest) by (repeat constructor || assumption).
    change (Ascii.eqb "0"%char "0"%char && negb true) with false. cbv iota.
    rewrite Hr. reflexivity.
  - rewrite numberToString_pos.
    pose proof (parseDigits_to_uint false p rest Hr) as H.
    destruct (parse_digits p rest Hr) as (d & more & E & Hd & _).
    rewrite E in *. rewrite <- app_comm_cons in *. unfold parseNumber.
    destruct (Ascii.eqb d "-"%char) eqn:Em; [|exact H].
    apply Ascii.eqb_eq in Em. subst d. discriminate.
  - rewrite numberToString_neg. rewrite <- app_comm_cons. unfold parseNumber.
    rewrite Ascii.eqb_refl. exact (parseDigits_to_uint true p rest Hr).
Qed.

Lemma numberToString_head (z : Z) :
  exists c r, numberToString z = c :: r /\ (isDigit c = true \/ c = "-"%char).
Proof.
  destruct z as [|p|p].
  - exists "0"%char, []. split; [reflexivity|left; reflexivity].
  - rewrite numberToString_pos.
    destruct (parse_digits p [] eq_refl) as (d & more & E & Hd & _).
    exists d, more. auto.
  - rewrite numberToString_neg. eexists; eexists. split; [reflexivity|right; reflexivity].
Qed.

(** *** Objects with distinct keys *)

Lemma setProp_fresh (k : str) (v : json) (acc : list (str * json)) :
  existsb (str_eqb k) (map fst acc) = false -> setProp k v acc = acc ++ [(k, v)].
Proof.
  induction acc as [|[k' v'] acc IH]; simpl; intros H; [reflexivity|].
  apply orb_false_iff in H. destruct H as [H1 H2].
  rewrite H1, (IH H2). reflexivity.
Qed.

Lemma existsb_app_false (k : str) (a b : list str) :
  existsb (str_eqb k) (a ++ b) = false <->
  existsb (str_eqb k) a = false /\ existsb (str_eqb k) b = false.
Proof. rewrite existsb_app. apply orb_false_iff. Qed.

Lemma fromPairs_distinct (l : list (str * json)) :
  distinct (map fst l) = true -> fromPairs l = l.
Proof.
  unfold fromPairs.
  assert (H : forall acc,
             distinct (map fst l) = true ->
             (forall k, In k (map fst l) -> existsb (str_eqb k) (map fst acc) = false) ->
             fold_left (fun acc kv => setProp (fst kv) (snd kv) acc) l acc = acc ++ l).
  { induction l as [|[k v] l IH]; intros acc Hd Hacc; simpl.
    - now rewrite app_nil_r.
    - simpl in Hd. apply andb_true_iff in Hd. destruct Hd as [Hk Hd].
      apply negb_true_iff in Hk.
      rewrite setProp_fresh by (apply Hacc; left; reflexivity).
      rewrite IH; [now rewrite <- app_assoc|assumption|].
      intros k' Hk'. rewrite map_app. apply existsb_app_false. split.
      + apply Hacc. right; exact Hk'.
      + simpl. rewrite orb_false_r.
        destruct (str_eqb k' k) eqn:E; [|reflexivity].
        apply str_eqb_eq in E. subst k'.
        assert (Hex : existsb (str_eqb k) (map fst l) = true).
        { apply existsb_exists. exists k. split; [assumption|apply str_eqb_refl]. }
        congruence. }
  intros Hd. rewrite H; [reflexivity|assumption|reflexivity].
Qed.

(** *** Values *)

Lemma parseValue_string (fuel : nat) (r : str) :
  parseValue (S fuel) (dquote :: r)
  = match parseChars r with
    | Some (t, rest) => Some (JStr t, rest)
    | None => None
    end.
Proof. reflexivity. Qed.

Lemma parseValue_number (fuel : nat) (c : ascii) (r : str) :
  isDigit c = true \/ c = "-"%char ->
  parseValue (S fuel) (c :: r)
  = match parseNumber (c :: r) with
    | Some (z, rest) => Some (JNum z, rest)
    | None => None
    end.
Proof.
  destruct c as [[|] [|] [|] [|] [|] [|] [|] [|]];
    first [ reflexivity | intros [H|H]; discriminate ].
Qed.

Lemma parseValue_array (fuel : nat) (r : str) (c : ascii) (r' : str) :
  skipWs r = c :: r' ->
  Ascii.eqb c "]"%char = false ->
  parseValue (S fuel) ("["%char :: r)
  = match parseElements fuel r with
    | Some (es, rest) => Some (JArr es, rest)
    | None => None
    end.
Proof.
  intros Hs Hc.
  change (parseValue (S fuel) ("["%char :: r))
    with (match skipWs r with
          | c' :: r' =>
              if Ascii.eqb c' "]"%char then Some (JArr [], r')
              else match parseElements fuel r with
                   | Some (es, rest) => Some (JArr es, rest)
                   | None => None
                   end
          | [] => None
          end).
  now rewrite Hs, Hc.
Qed.

Lemma parseValue_object (fuel : nat) (r : str) (c : ascii) (r' : str) :
  skipWs r = c :: r' ->
  Ascii.eqb c "}"%char = false ->
  parseValue (S fuel) ("{"%char :: r)
  = match parseMembers fuel r with
    | Some (ms, rest) => Some (JObj (fromPairs ms), rest)
    | None => None
    end.
Proof.
  intros Hs Hc.
  change (parseValue (S fuel) ("{"%char :: r))
    with (match skipWs r with
          | c' :: r' =>
              if Ascii.eqb c' "}"%char then Some (JObj [], r')
              else match parseMembers fuel r with
                   | Some (ms, rest) => Some (JObj (fromPairs ms), rest)
                   | None => None
                   end
          | [] => None
          end).
  now rewrite Hs, Hc.
Qed.

Lemma parseElements_S (fuel : nat) (s : str) :
  parseElements (S fuel) s
  = match parseValue fuel s with
    | Some (v, r) =>
        match skipWs r with
        | c :: r' =>
            if Ascii.eqb c ","%char then
              match parseElements fuel r' with
              | Some (vs, rest) => Some (v :: vs, rest)
              | None => None
              end
            else if Ascii.eqb c "]"%char then Some ([v], r')
            else None
        | [] => None
        end
    | None => None
    end.
Proof. reflexivity. Qed.

Lemma parseMembers_S (fuel : nat) (k r : str) :
  parseMembers (S fuel) (dquote :: flat_map escapeChar k ++ dquote :: ":"%char :: r)
  = match parseValue fuel r with
    | Some (v, r3) =>
        match skipWs r3 with
        | c :: r4 =>
            if Ascii.eqb c ","%char then
              match parseMembers fuel r4 with
              | Some (ms, rest) => Some ((k, v) :: ms, rest)
              | None => None
              end
            else if Ascii.eqb c "}"%char then Some ([(k, v)], r4)
            else None
        | [] => None
        end
    | None => None
    end.
Proof.
  change (parseMembers (S fuel)
            (dquote :: flat_map escapeChar k ++ dquote :: ":"%char :: r))
    with (match parseChars (flat_map escapeChar k ++ dquote :: ":"%char :: r) with
          | Some (k0, r1) =>
              match skipWs r1 with
              | colon0 :: r2 =>
                  if Ascii.eqb colon0 ":"%char then
                    match parseValue fuel r2 with
                    | Some (v, r3) =>
                        match skipWs r3 with
                        | c :: r4 =>
                            if Ascii.eqb c ","%char then
                              match parseMembers fuel r4 with
                              | Some (ms, rest) => Some ((k0, v) :: ms, rest)
                              | None => None
                              end
                            else if Ascii.eqb c "}"%char then Some ([(k0, v)], r4)
                            else None
                        | [] => None
                        end
                    | None => None
                    end
                  else None
              | [] => None
              end
          | None => None
          end).
  rewrite parseChars_quote. reflexivity.
Qed.

Lemma blank_not_number (c : ascii) :
  isWs c = true ->
  (isDigit c || Ascii.eqb c "."%char || Ascii.eqb c "e"%char || Ascii.eqb c "E"%char)
  = false.
Proof.
  destruct c as [[|] [|] [|] [|] [|] [|] [|] [|]];
    first [ reflexivity | discriminate ].
Qed.

Lemma continuesNumber_blank (pad : str) (c : ascii) (r : str) :
  blank pad ->
  (isDigit c || Ascii.eqb c "."%char || Ascii.eqb c "e"%char || Ascii.eqb c "E"%char)
  = false ->
  continuesNumber (pad ++ c :: r) = false.
Proof.
  intros Hp Hc. destruct Hp as [|w pad Hw _]; [exact Hc|].
  simpl. now apply blank_not_number.
Qed.

Lemma bracket_form (gap indent opening closing p : str) (parts : list str) :
  blank gap -> blank indent ->
  exists pad1 pad2,
    blank pad1 /\ blank pad2 /\
    bracket gap indent opening closing (p :: parts)
    = opening ++ pad1 ++ join (","%char :: pad1) (p :: parts) ++ pad2 ++ closing.
Proof.
  intros Hg Hi. destruct gap as [|g gap].
  - exists [], []. repeat split; constructor.
  - exists (LF :: indent ++ g :: gap), (LF :: indent). split; [|split].
    + constructor; [reflexivity|]. apply Forall_app. auto.
    + constructor; [reflexivity|assumption].
    + unfold bracket. cbv zeta. simpl. do 2 f_equal.
Qed.

Lemma colon_form (gap : str) :
  exists pad, blank pad /\ colon gap = ":"%char :: pad.
Proof.
  destruct gap.
  - exists []. split; [constructor|reflexivity].
  - exists [" "%char]. split; [repeat constructor|reflexivity].
Qed.

Lemma serialize_head (gap indent : str) (v : json) :
  exists c r,
    serialize gap indent v = c :: r
    /\ isWs c = false
    /\ Ascii.eqb c "]"%char = false
    /\ Ascii.eqb c "}"%char = false.
Proof.
  destruct v as [| [|] | z | s | l | kvs].
  - eexists; eexists. repeat split; reflexivity.
  - eexists; eexists. repeat split; reflexivity.
  - eexists; eexists. repeat split; reflexivity.
  - destruct (numberToString_head z) as (c & r & E & Hc).
    exists c, r. split; [exact E|].
    clear E. destruct c as [[|] [|] [|] [|] [|] [|] [|] [|]];
      first [ repeat split; reflexivity | destruct Hc; discriminate ].
  - eexists; eexists. repeat split; reflexivity.
  - change (serialize gap indent (JArr l))
      with (bracket gap indent ("[" : str) ("]" : str)
              (map (serialize gap (indent ++ gap)) l)).
    unfold bracket. destruct (map _ l); [|destruct gap];
      eexists; eexists; repeat split; reflexivity.
  - change (serialize gap indent (JObj kvs))
      with (bracket gap indent ("{" : str) ("}" : str)
              (map (fun kv => QuoteJSONString (fst kv) ++ colon gap
                              ++ serialize gap (indent ++ gap) (snd kv)) kvs)).
    unfold bracket. destruct (map _ kvs); [|destruct gap];
      eexists; eexists; repeat split; reflexivity.
Qed.

Section ParseMembersOfBrackets.
Variable ser : json -> str.

Local Abbreviation parsesBack := (parsesBack ser).

Lemma parseElements_ok (l : list json) (pad1 pad2 rest : str) (fuel : nat) :
  blank pad1 -> blank pad2 -> l <> [] ->
  Forall parsesBack l ->
  list_sum (map (fun e => S (weight e)) l) <= fuel ->
  parseElements fuel
    (pad1 ++ join (","%char :: pad1) (map ser l) ++ pad2 ++ "]"%char :: rest)
  = Some (l, rest).
Proof.
  intros H1 H2 Hne Hall. revert fuel.
  induction Hall as [|e l He Hl IH]; [contradiction|].
  intros fuel Hfuel. simpl in Hfuel.
  destruct fuel as [|fuel]; [inversion Hfuel|].
  apply le_S_n in Hfuel.
  rewrite parseElements_S.
  destruct l as [|e2 l].
  - change (join (","%char :: pad1) (map ser [e])) with (ser e).
    rewrite (He pad1 (pad2 ++ "]"%char :: rest) fuel H1);
      [|simpl in Hfuel; lia|now apply continuesNumber_blank].
    rewrite (skipWs_blank pad2 _ H2), skipWs_head by reflexivity.
    reflexivity.
  - change (join (","%char :: pad1) (map ser (e :: e2 :: l)))
      with (ser e ++ (","%char :: pad1) ++ join (","%char :: pad1) (map ser (e2 :: l))).
    rewrite <- !app_assoc.
    rewrite (He pad1 _ fuel H1); [|simpl in Hfuel; simpl; lia|reflexivity].
    rewrite <- app_comm_cons, skipWs_head by reflexivity.
    change (Ascii.eqb ","%char ","%char) with true. cbv iota.
    rewrite IH; [reflexivity|discriminate|].
    simpl in *. lia.
Qed.

Lemma parseMembers_ok (kvs : list (str * json)) (pad1 pad2 cpad rest : str) (fuel : nat) :
  blank pad1 -> blank pad2 -> blank cpad -> kvs <> [] ->
  Forall (fun kv => parsesBack (snd kv)) kvs ->
  list_sum (map (fun kv => S (weight (snd kv))) kvs) <= fuel ->
  parseMembers fuel
    (pad1 ++ join (","%char :: pad1)
               (map (fun kv => QuoteJSONString (fst kv) ++ (":"%char :: cpad)
                               ++ ser (snd kv)) kvs)
          ++ pad2 ++ "}"%char :: rest)
  = Some (kvs, rest).
Proof.
  intros H1 H2 H3 Hne Hall. revert fuel.
  induction Hall as [|[k v] l He Hl IH]; [contradiction|].
  intros fuel Hfuel. simpl in Hfuel. simpl in He.
  destruct fuel as [|fuel]; [inversion Hfuel|].
  apply le_S_n in Hfuel.
  rewrite (parseMembers_blank _ pad1 _ H1).
  destruct l as [|kv2 l].
  - change (join (","%char :: pad1)
              (map (fun kv => QuoteJSONString (fst kv) ++ (":"%char :: cpad)
                              ++ ser (snd kv)) [(k, v)]))
      with (QuoteJSONString k ++ (":"%char :: cpad) ++ ser v).
    rewrite <- !app_assoc, QuoteJSONString_app, <- app_comm_cons, parseMembers_S.
    rewrite (He cpad (pad2 ++ "}"%char :: rest) fuel H3);
      [|simpl in Hfuel; lia|now apply continuesNumber_blank].
    rewrite (skipWs_blank pad2 _ H2), skipWs_head by reflexivity.
    reflexivity.
  - change (join (","%char :: pad1)
              (map (fun kv => QuoteJSONString (fst kv) ++ (":"%char :: cpad)
                              ++ ser (snd kv)) ((k, v) :: kv2 :: l)))
      with ((QuoteJSONString k ++ (":"%char :: cpad) ++ ser v)
            ++ (","%char :: pad1)
            ++ join (","%char :: pad1)
                 (map (fun kv => QuoteJSONString (fst kv) ++ (":"%char :: cpad)
                                 ++ ser (snd kv)) (kv2 :: l))).
    rewrite <- !app_assoc, QuoteJSONString_app, <- app_comm_cons, parseMembers_S.
    rewrite (He cpad _ fuel H3); [|simpl in Hfuel; simpl; lia|reflexivity].
    rewrite <- app_comm_cons, skipWs_head by reflexivity.
    change (Ascii.eqb ","%char ","%char) with true. cbv iota.
    rewrite IH; [reflexivity|discriminate|].
    simpl in *. lia.
Qed.
End ParseMembersOfBrackets.

(** The text of a value parses back to the value, whatever the gap and the
    indentation, given fuel for its weight. *)
Lemma parseValue_serialize (v : json) :
  uniqueKeys v = true ->
  forall gap indent, blank gap -> blank indent ->
    parsesBack (serialize gap indent) v.
Proof.
  induction v as [| b | z | s | l IH | kvs IH] using json_ind;
    intros Hu gap indent Hg Hi pad rest fuel Hp Hfuel Hrest;
    rewrite (parseValue_blank _ pad _ Hp);
    (destruct fuel as [|fuel]; [inversion Hfuel|]).
  - reflexivity.
  - destruct b; reflexivity.
  - destruct (numberToString_head z) as (c & r & E & Hc).
    change (serialize gap indent (JNum z)) with (numberToString z).
    pose proof (parseNumber_numberToString z rest Hrest) as Hn.
    rewrite E in *. rewrite <- app_comm_cons in *.
    rewrite (parseValue_number _ _ _ Hc), Hn. reflexivity.
  - change (serialize gap indent (JStr s)) with (QuoteJSONString s).
    rewrite QuoteJSONString_app, parseValue_string, parseChars_quote. reflexivity.
  - change (serialize gap indent (JArr l))
      with (bracket gap indent ("[" : str) ("]" : str)
              (map (serialize gap (indent ++ gap)) l)).
    destruct l as [|e l]; [reflexivity|].
    change (map (serialize gap (indent ++ gap)) (e :: l))
      with (serialize gap (indent ++ gap) e :: map (serialize gap (indent ++ gap)) l).
    destruct (bracket_form gap indent ("[" : str) ("]" : str)
                (serialize gap (indent ++ gap) e)
                (map (serialize gap (indent ++ gap)) l) Hg Hi)
      as (pad1 & pad2 & H1 & H2 & ->).
    change (serialize gap (indent ++ gap) e :: map (serialize gap (indent ++ gap)) l)
      with (map (serialize gap (indent ++ gap)) (e :: l)).
    assert (Hall : Forall (parsesBack (serialize gap (indent ++ gap))) (e :: l)).
    { change (forallb uniqueKeys (e :: l) = true) in Hu.
      rewrite forallb_forall in Hu. rewrite Forall_forall in IH.
      apply Forall_forall. intros x Hx.
      apply (IH x Hx (Hu x Hx)); [assumption|]. apply Forall_app. auto. }
    destruct (serialize_head gap (indent ++ gap) e) as (c & r & Ec & Hw & Hc & _).
    rewrite <- !app_assoc.
    change (("[" : str) ++ pad1
            ++ join (","%char :: pad1) (map (serialize gap (indent ++ gap)) (e :: l))
            ++ pad2 ++ ("]" : str) ++ rest)
      with ("["%char :: pad1
            ++ join (","%char :: pad1) (map (serialize gap (indent ++ gap)) (e :: l))
            ++ pad2 ++ "]"%char :: rest).
    rewrite (parseValue_array fuel _ c
               (r ++ match l with
                     | [] => []
                     | _ => (","%char :: pad1)
                            ++ join (","%char :: pad1)
                                 (map (serialize gap (indent ++ gap)) l)
                     end ++ pad2 ++ "]"%char :: rest)).
    + rewrite (parseElements_ok _ (e :: l) pad1 pad2 rest fuel H1 H2);
        [reflexivity|discriminate|exact Hall|].
      change (weight (JArr (e :: l)))
        with (S (list_sum (map (fun e => S (weight e)) (e :: l)))) in Hfuel.
      lia.
    + rewrite (skipWs_blank pad1 _ H1).
      destruct l as [|e2 l].
      * change (join (","%char :: pad1) (map (serialize gap (indent ++ gap)) [e]))
          with (serialize gap (indent ++ gap) e).
        rewrite Ec. rewrite <- app_comm_cons. rewrite skipWs_head by assumption.
        reflexivity.
      * change (join (","%char :: pad1)
                  (map (serialize gap (indent ++ gap)) (e :: e2 :: l)))
          with (serialize gap (indent ++ gap) e ++ (","%char :: pad1)
                ++ join (","%char :: pad1)
                     (map (serialize gap (indent ++ gap)) (e2 :: l))).
        rewrite Ec. rewrite <- !app_assoc, <- app_comm_cons.
        rewrite skipWs_head by assumption. reflexivity.
    + exact Hc.
  - change (serialize gap indent (JObj kvs))
      with (bracket gap indent ("{" : str) ("}" : str)
              (map (fun kv => QuoteJSONString (fst kv) ++ colon gap
                              ++ serialize gap (indent ++ gap) (snd kv)) kvs)).
    destruct kvs as [|kv kvs]; [reflexivity|].
    destruct (colon_form gap) as (cpad & Hcp & ->).
    change (map (fun kv => QuoteJSONString (fst kv) ++ (":"%char :: cpad)
                           ++ serialize gap (indent ++ gap) (snd kv)) (kv :: kvs))
      with ((QuoteJSONString (fst kv) ++ (":"%char :: cpad)
             ++ serialize gap (indent ++ gap) (snd kv))
            :: map (fun kv => QuoteJSONString (fst kv) ++ (":"%char :: cpad)
                              ++ serialize gap (indent ++ gap) (snd kv)) kvs).
    destruct (bracket_form gap indent ("{" : str) ("}" : str)
                (QuoteJSONString (fst kv) ++ (":"%char :: cpad)
                 ++ serialize gap (indent ++ gap) (snd kv))
                (map (fun kv => QuoteJSONString (fst kv) ++ (":"%char :: cpad)
                                ++ serialize gap (indent ++ gap) (snd kv)) kvs) Hg Hi)
      as (pad1 & pad2 & H1 & H2 & Hb).
    unfold str in *. rewrite Hb. clear Hb.
    change ((QuoteJSONString (fst kv) ++ (":"%char :: cpad)
             ++ serialize gap (indent ++ gap) (snd kv))
            :: map (fun kv => QuoteJSONString (fst kv) ++ (":"%char :: cpad)
                              ++ serialize gap (indent ++ gap) (snd kv)) kvs)
      with (map (fun kv => QuoteJSONString (fst kv) ++ (":"%char :: cpad)
                           ++ serialize gap (indent ++ gap) (snd kv)) (kv :: kvs)).
    change (uniqueKeys (JObj (kv :: kvs)))
      with (distinct (map fst (kv :: kvs))
            && forallb (fun kv => uniqueKeys (snd kv)) (kv :: kvs)) in Hu.
    apply andb_true_iff in Hu. destruct Hu as [Hd Hu].
    assert (Hall : Forall (fun kv => parsesBack (serialize gap (indent ++ gap)) (snd kv))
                          (kv :: kvs)).
    { rewrite forallb_forall in Hu. rewrite Forall_forall in IH.
      apply Forall_forall. intros x Hx.
      apply (IH x Hx (Hu x Hx)); [assumption|]. apply Forall_app. auto. }
    rewrite <- !app_assoc.
    change (("{" : str) ++ pad1
            ++ join (","%char :: pad1)
                 (map (fun kv => QuoteJSONString (fst kv) ++ (":"%char :: cpad)
                                 ++ serialize gap (indent ++ gap) (snd kv)) (kv :: kvs))
            ++ pad2 ++ ("}" : str) ++ rest)
      with ("{"%char :: pad1
            ++ join (","%char :: pad1)
                 (map (fun kv => QuoteJSONString (fst kv) ++ (":"%char :: cpad)
                                 ++ serialize gap (indent ++ gap) (snd kv)) (kv :: kvs))
            ++ pad2 ++ "}"%char :: rest).
    assert (Hhead : exists r', skipWs
              (pad1
               ++ join (","%char :: pad1)
                    (map (fun kv => QuoteJSONString (fst kv) ++ (":"%char :: cpad)
                                    ++ serialize gap (indent ++ gap) (snd kv)) (kv :: kvs))
               ++ pad2 ++ "}"%char :: rest) = dquote :: r').
    { rewrite (skipWs_blank pad1 _ H1).
      destruct kvs as [|kv2 kvs].
      - change (join (","%char :: pad1)
                  (map (fun kv => QuoteJSONString (fst kv) ++ (":"%char :: cpad)
                                  ++ serialize gap (indent ++ gap) (snd kv)) [kv]))
          with (QuoteJSONString (fst kv) ++ (":"%char :: cpad)
                ++ serialize gap (indent ++ gap) (snd kv)).
        rewrite <- !app_assoc, QuoteJSONString_app.
        rewrite skipWs_head by reflexivity. eauto.
      - change (join (","%char :: pad1)
                  (map (fun kv => QuoteJSONString (fst kv) ++ (":"%char :: cpad)
                                  ++ serialize gap (indent ++ gap) (snd kv))
                       (kv :: kv2 :: kvs)))
          with ((QuoteJSONString (fst kv) ++ (":"%char :: cpad)
                 ++ serialize gap (indent ++ gap) (snd kv))
                ++ (","%char :: pad1)
                ++ join (","%char :: pad1)
                     (map (fun kv => QuoteJSONString (fst kv) ++ (":"%char :: cpad)
                                     ++ serialize gap (indent ++ gap) (snd kv))
                          (kv2 :: kvs))).
        rewrite <- !app_assoc, QuoteJSONString_app.
        rewrite skipWs_head by reflexivity. eauto. }
    destruct Hhead as [r' Hhead].
    rewrite (parseValue_object fuel _ dquote r' Hhead eq_refl).
    rewrite (parseMembers_ok _ (kv :: kvs) pad1 pad2 cpad rest fuel H1 H2 Hcp);
      [|discriminate|exact Hall|].
    + now rewrite (fromPairs_distinct _ Hd).
    + change (weight (JObj (kv :: kvs)))
        with (S (list_sum (map (fun kv => S (weight (snd kv))) (kv :: kvs)))) in Hfuel.
      apply le_S_n in Hfuel. exact Hfuel.
Qed.

(** *** The fuel of [JSON_parse] *)

Lemma join_length (sep : str) (parts : list str) :
  1 <= List.length sep ->
  list_sum (map (fun p => S (List.length p)) parts) <= S (List.length (join sep parts)).
Proof.
  intros Hsep. induction parts as [|p parts IH]; simpl; [lia|].
  destruct parts as [|q parts]; [simpl; lia|].
  rewrite !length_app. simpl in IH. simpl. lia.
Qed.

Lemma bracket_length (gap indent : str) (o c : ascii) (parts : list str) :
  S (list_sum (map (fun p => S (List.length p)) parts))
  <= List.length (bracket gap indent [o] [c] parts).
Proof.
  unfold bracket. destruct parts as [|p parts]; [simpl; lia|].
  destruct gap as [|g gap]; cbv zeta.
  - pose proof (join_length ("," : str) (p :: parts)) as H.
    rewrite !length_app. simpl List.length in *. lia.
  - pose proof (join_length (("," : str) ++ [LF] ++ indent ++ g :: gap) (p :: parts)) as H.
    rewrite !length_app in *. simpl List.length in *. lia.
Qed.

Lemma list_sum_le {X} (f g : X -> nat) (l : list X) :
  Forall (fun x => f x <= g x) l ->
  list_sum (map f l) <= list_sum (map g l).
Proof. induction 1; simpl; lia. Qed.

Lemma weight_le_length (v : json) :
  forall gap indent, weight v <= List.length (serialize gap indent v).
Proof.
  induction v as [| b | z | s | l IH | kvs IH] using json_ind; intros gap indent.
  - simpl. lia.
  - destruct b; simpl; lia.
  - destruct (numberToString_head z) as (c & r & E & _).
    change (serialize gap indent (JNum z)) with (numberToString z).
    rewrite E. simpl. lia.
  - simpl. lia.
  - change (serialize gap indent (JArr l))
      with (bracket gap indent ["["%char] ["]"%char]
              (map (serialize gap (indent ++ gap)) l)).
    eapply Nat.le_trans; [|apply bracket_length].
    change (weight (JArr l)) with (S (list_sum (map (fun e => S (weight e)) l))).
    apply le_n_S. rewrite map_map. apply list_sum_le.
    eapply Forall_impl; [|exact IH]. intros e He. cbv beta.
    specialize (He gap (indent ++ gap)). lia.
  - change (serialize gap indent (JObj kvs))
      with (bracket gap indent ["{"%char] ["}"%char]
              (map (fun kv => QuoteJSONString (fst kv) ++ colon gap
                              ++ serialize gap (indent ++ gap) (snd kv)) kvs)).
    eapply Nat.le_trans; [|apply bracket_length].
    change (weight (JObj kvs))
      with (S (list_sum (map (fun kv => S (weight (snd kv))) kvs))).
    apply le_n_S. rewrite map_map. apply list_sum_le.
    eapply Forall_impl; [|exact IH]. intros kv Hkv. cbv beta.
    specialize (Hkv gap (indent ++ gap)). rewrite !length_app. lia.
Qed.

Lemma JSON_parse_stringify (v : json) (gap : str) :
  uniqueKeys v = true -> blank gap ->
  JSON_parse (serialize gap [] v) = Some v.
Proof.
  intros Hu Hg. unfold JSON_parse.
  pose proof (parseValue_serialize v Hu gap [] Hg (Forall_nil _)
                [] [] (S (List.length (serialize gap [] v)))
                (Forall_nil _)) as H.
  rewrite app_nil_l, app_nil_r in H.
  rewrite H; [reflexivity| |reflexivity].
  pose proof (weight_le_length v gap []). lia.
Qed.

(* ================================================================== *)
(** ** Documents without references *)

(** C5. For a definition document (not a string) in which no node is an
    intrinsic reference, the assembler returns the plain serialized text of
    the document, builds no substitution template and draws no name; and
    [JSON.parse] of that text is the document, its mappings with the same
    keys in the same order. *)
Theorem round_trip_without_references {Template : Type} (this : Env Template)
    (d : json) (n : nat) :
  (forall s, d <> JStr s) ->
  (forall x, In x (nodes d) -> isIntrinsic this x = false) ->
  uniqueKeys d = true ->
  assemble this d n = (Text (JSON_stringify2 d), n)
  /\ JSON_parse (JSON_stringify2 d) = Some d.
Proof.
  intros Hd Hno Hu. split.
  - rewrite (assemble_document this d n Hd).
    rewrite (proj1 (extraction_identity this d Hno) n). reflexivity.
  - apply JSON_parse_stringify; [assumption|].
    repeat constructor.
Qed.

Lemma round_trip_without_references_witness :
  assemble Sample.env Sample.plainDefinition 4
    = (Text (JSON_stringify2 Sample.plainDefinition), 4)
  /\ JSON_parse (JSON_stringify2 Sample.plainDefinition) = Some Sample.plainDefinition.
Proof.
  apply (round_trip_without_references Sample.env Sample.plainDefinition 4).
  - discriminate.
  - intros x Hx. vm_compute in Hx.
    repeat (destruct Hx as [<-|Hx]; [reflexivity|]). destruct Hx.
  - reflexivity.
Defined.

(* ================================================================== *)
(** * Further properties of the code *)

(** ** The names an extraction draws *)

Section Names.
Context {Template : Type}.
Variable this : Env Template.

Local Abbreviation gi := (getIntrinsicFunctions this).

(** A run from counter [n] to [n'] that yields [ps]: one name per pair,
    the names being those of the counters from [n] on, in order. *)
Local Abbreviation counted :=
  (fun (n : nat) (ps : list (str * json)) (n' : nat) =>
     n' = n + List.length ps
     /\ map fst ps = map (chance this) (seq n (List.length ps))).

Lemma counted_app (n n1 n2 : nat) (p1 p2 : list (str * json)) :
  counted n p1 n1 -> counted n1 p2 n2 -> counted n (p1 ++ p2) n2.
Proof.
  intros [H1 H2] [H3 H4]. subst n1 n2. rewrite length_app. split; [lia|].
  rewrite map_app, seq_app, map_app, H2, H4. reflexivity.
Qed.

Lemma traverse_counted {A B} (f : A -> Gen B) (l : list A) :
  (forall a, In a l -> forall m b p m', f a m = (b, p, m') -> counted m p m') ->
  forall n bs ps n', traverse f l n = (bs, ps, n') -> counted n ps n'.
Proof.
  induction l as [|a l IH]; intros Hf n bs ps n' H.
  - inversion H; subst. simpl. split; [lia|reflexivity].
  - simpl in H. unfold gbind in H.
    destruct (f a n) as [[b p1] n1] eqn:Ea.
    destruct (traverse f l n1) as [[bs' p2] n2] eqn:El.
    unfold gret in H. inversion H; subst. clear H. rewrite app_nil_r.
    apply (counted_app n n1 n').
    + exact (Hf a (or_introl eq_refl) _ _ _ _ Ea).
    + apply (IH (fun a' Ha' => Hf a' (or_intror Ha')) _ _ _ _ El).
Qed.

Lemma extraction_counted (v : json) :
  (forall n v' ps n', gi v n = (v', ps, n') -> counted n ps n')
  /\ (forall n v' ps n', visit this gi v n = (v', ps, n') -> counted n ps n').
Proof.
  induction v as [| b | z | s | l IH | kvs IH] using json_ind;
    try (split; intros n v' ps n' H; cbn in H; inversion H; subst; simpl;
         (split; [lia|reflexivity])).
  - rewrite Forall_forall in IH. split; intros n v' ps n' H.
    + rewrite gi_JArr in H.
      destruct (traverse (visit this gi) l n) as [[l' ps'] m] eqn:E.
      inversion H; subst. clear H.
      apply (traverse_counted _ l (fun a Ha => proj2 (IH a Ha)) _ _ _ _ E).
    + rewrite visit_JArr in H.
      destruct (traverse gi l n) as [[l' ps'] m] eqn:E.
      inversion H; subst. clear H.
      apply (traverse_counted _ l (fun a Ha => proj1 (IH a Ha)) _ _ _ _ E).
  - rewrite Forall_forall in IH.
    assert (Hobj : forall n v' ps n', gi (JObj kvs) n = (v', ps, n') -> counted n ps n').
    { intros n v' ps n' H. rewrite gi_JObj in H.
      destruct (traverse _ kvs n) as [[kvs' ps'] m] eqn:E.
      inversion H; subst. clear H.
      refine (traverse_counted _ kvs _ _ _ _ _ E).
      intros a Ha m0 b p m' Hrun.
      apply perProperty_run in Hrun. destruct Hrun as (w & Hw & _).
      exact (proj2 (IH a Ha) _ _ _ _ Hw). }
    split; [exact Hobj|].
    intros n v' ps n' H. rewrite visit_JObj in H.
    destruct (isIntrinsic this (JObj kvs)).
    + inversion H; subst. simpl. split; [lia|reflexivity].
    + exact (Hobj _ _ _ _ H).
Qed.

Lemma extraction_keeps_kind (v : json) (n : nat) :
  (forall s, v <> JStr s) -> forall s, fst (fst (gi v n)) <> JStr s.
Proof.
  intros Hv s. destruct v; try (simpl; discriminate).
  - exfalso. exact (Hv s0 eq_refl).
  - rewrite gi_JArr. destruct (traverse _ elems n) as [[l' ps] m]. simpl. discriminate.
  - rewrite gi_JObj. destruct (traverse _ props n) as [[l' ps] m]. simpl. discriminate.
Qed.
End Names.

(** X1. An extraction draws one name for each pair it yields and no other:
    the counter of the generator advances by the number of pairs, and the
    names of the pairs are the successive results of [randomName], in the
    order of the traversal. *)
Theorem extraction_draws_names_in_order {Template : Type} (this : Env Template)
    (doc : json) (n : nat) :
  snd (getIntrinsicFunctions this doc n)
  = n + List.length (snd (fst (getIntrinsicFunctions this doc n)))
  /\ map fst (snd (fst (getIntrinsicFunctions this doc n)))
     = map (chance this)
           (seq n (List.length (snd (fst (getIntrinsicFunctions this doc n))))).
Proof.
  destruct (getIntrinsicFunctions this doc n) as [[doc' ps] n'] eqn:E. simpl.
  exact (proj1 (extraction_counted this doc) _ _ _ _ E).
Qed.

(** X2. Extraction is idempotent: run again on the document it has
    mutated, it yields no pair, draws no name and changes nothing. Hence a
    second compilation of the same, already mutated, definition gives the
    same text as a plain string: its markers are still in the text and the
    parameter map is gone. *)
Theorem second_extraction_finds_nothing {Template : Type} (this : Env Template)
    (doc : json) (n m : nat) :
  getIntrinsicFunctions this (fst (fst (getIntrinsicFunctions this doc n))) m
  = (fst (fst (getIntrinsicFunctions this doc n)), [], m)
  /\
  ((forall s, doc <> JStr s) ->
   assemble this (fst (fst (getIntrinsicFunctions this doc n))) m
   = (Text (textOf (fst (assemble this doc n))), m)).
Proof.
  assert (H1 : getIntrinsicFunctions this (fst (fst (getIntrinsicFunctions this doc n))) m
               = (fst (fst (getIntrinsicFunctions this doc n)), [], m)).
  { destruct (getIntrinsicFunctions this doc n) as [[doc' ps] n'] eqn:E. simpl.
    exact (proj1 (extraction_settled this doc) _ _ _ _ E m). }
  split; [exact H1|].
  intros Hd.
  rewrite (assemble_document this _ m (extraction_keeps_kind this doc n Hd)), H1.
  rewrite (assemble_document this doc n Hd).
  destruct (getIntrinsicFunctions this doc n) as [[doc' ps] n']. simpl.
  destruct ps; reflexivity.
Qed.

Lemma second_extraction_finds_nothing_witness :
  exists text params,
    fst (assemble Sample.env More.twoTasks 0) = FnSub text params
    /\ List.length params = 3
    /\ assemble Sample.env (fst (fst (getIntrinsicFunctions Sample.env More.twoTasks 0))) 3
       = (Text text, 3).
Proof.
  destruct (second_extraction_finds_nothing Sample.env More.twoTasks 0 3) as [_ H].
  specialize (H ltac:(discriminate)).
  destruct (fst (assemble Sample.env More.twoTasks 0)) as [t|text params] eqn:E;
    [vm_compute in E; discriminate|].
  exists text, params. split; [reflexivity|]. split; [|exact H].
  vm_compute in E. inversion E. reflexivity.
Defined.

(** ** Putting the references back *)

Lemma marker_inj (p q : str) : marker p = marker q -> p = q.
Proof.
  unfold marker. intros H. apply app_inv_head in H. now apply app_inv_tail in H.
Qed.

Lemma find_marker (ps : list (str * json)) (c : str) (v : json) :
  NoDup (map fst ps) -> In (c, v) ps ->
  find (fun kv => str_eqb (marker c) (marker (fst kv))) ps = Some (c, v).
Proof.
  induction ps as [|[k w] ps IH]; intros Hnd Hin; [destruct Hin|].
  simpl in Hnd. inversion Hnd as [|? ? Hk Hnd']; subst. simpl.
  destruct Hin as [Hin|Hin].
  - inversion Hin; subst. now rewrite str_eqb_refl.
  - destruct (str_eqb (marker c) (marker k)) eqn:E.
    + apply str_eqb_eq, marker_inj in E. subst k. exfalso. apply Hk.
      change c with (fst (c, v)). now apply in_map.
    + now apply IH.
Qed.

Lemma find_no_marker (ps : list (str * json)) (s : str) :
  (forall q, In q (map fst ps) -> s <> marker q) ->
  find (fun kv => str_eqb s (marker (fst kv))) ps = None.
Proof.
  induction ps as [|[k w] ps IH]; intros H; [reflexivity|]. simpl.
  destruct (str_eqb s (marker k)) eqn:E.
  - apply str_eqb_eq in E. exfalso. apply (H k); [left; reflexivity|exact E].
  - apply IH. intros q Hq. apply H. right. exact Hq.
Qed.

Lemma Forall2_map_eq {A B} (g : B -> A) (l : list A) (bs : list B) :
  Forall2 (fun a b => g b = a) l bs -> map g bs = l.
Proof. induction 1; simpl; congruence. Qed.

Lemma Forall2_impl_in {A B} (R S : A -> B -> Prop) (l : list A) (bs : list B) :
  (forall a b, In a l -> R a b -> S a b) -> Forall2 R l bs -> Forall2 S l bs.
Proof.
  intros H HR. induction HR as [|a b l bs Hab _ IH]; constructor.
  - apply H; [left; reflexivity|exact Hab].
  - apply IH. intros a' b' Ha'. apply H. right; exact Ha'.
Qed.

Lemma distinct_NoDup (l : list str) : distinct l = true -> NoDup l.
Proof.
  induction l as [|a l IH]; intros H; [constructor|].
  simpl in H. apply andb_true_iff in H. destruct H as [Ha Hl].
  constructor; [|now apply IH].
  intros Hin. apply negb_true_iff in Ha.
  assert (Hex : existsb (str_eqb a) l = true).
  { apply existsb_exists. exists a. split; [assumption|apply str_eqb_refl]. }
  congruence.
Qed.

Section Restore.
Context {Template : Type}.
Variable this : Env Template.

Local Abbreviation gi := (getIntrinsicFunctions this).

(** The strings of [v] are not markers of the names of [ps]. *)
Local Abbreviation unmarked :=
  (fun (ps : list (str * json)) (v : json) =>
     forall s q, In (JStr s) (nodes v) -> In q (map fst ps) -> s <> marker q).

Lemma extraction_restore (v : json) :
  (forall n v' p n',
     gi v n = (v', p, n') ->
     forall ps, incl p ps -> NoDup (map fst ps) -> unmarked ps v ->
                restore ps v' = v)
  /\
  (forall n v' p n',
     visit this gi v n = (v', p, n') ->
     forall ps, incl p ps -> NoDup (map fst ps) -> unmarked ps v ->
                restore ps v' = v).
Proof.
  induction v as [| b | z | s | l IH | kvs IH] using json_ind;
    try (split; intros n v' p n' H ps Hi Hnd Hu; cbn in H; inversion H; subst;
         reflexivity).
  - split; intros n v' p n' H ps Hi Hnd Hu; cbn in H; inversion H; subst; simpl;
      (rewrite find_no_marker; [reflexivity|]);
      intros q Hq; (apply (Hu s q); [left; reflexivity|exact Hq]).
  - rewrite Forall_forall in IH. split; intros n v' p n' H ps Hi Hnd Hu.
    + rewrite gi_JArr in H.
      destruct (traverse (visit this gi) l n) as [[l' p'] k] eqn:E.
      inversion H; subst. clear H.
      destruct (traverse_runs _ _ _ _ _ _ E) as [Hruns _].
      simpl. f_equal. apply Forall2_map_eq.
      eapply Forall2_impl_in; [|exact Hruns].
      intros a b Ha (m & p0 & m' & Hrun & Hincl).
      apply (proj2 (IH a Ha) _ _ _ _ Hrun).
      * intros x Hx. apply Hi, Hincl, Hx.
      * exact Hnd.
      * intros s q Hs Hq. apply (Hu s q); [|exact Hq].
        apply In_nodes_JArr. right. exists a. auto.
    + rewrite visit_JArr in H.
      destruct (traverse gi l n) as [[l' p'] k] eqn:E.
      inversion H; subst. clear H.
      destruct (traverse_runs _ _ _ _ _ _ E) as [Hruns _].
      simpl. f_equal. apply Forall2_map_eq.
      eapply Forall2_impl_in; [|exact Hruns].
      intros a b Ha (m & p0 & m' & Hrun & Hincl).
      apply (proj1 (IH a Ha) _ _ _ _ Hrun).
      * intros x Hx. apply Hi, Hincl, Hx.
      * exact Hnd.
      * intros s q Hs Hq. apply (Hu s q); [|exact Hq].
        apply In_nodes_JArr. right. exists a. auto.
  - rewrite Forall_forall in IH.
    assert (Hobj : forall n v' p n',
               gi (JObj kvs) n = (v', p, n') ->
               forall ps, incl p ps -> NoDup (map fst ps) -> unmarked ps (JObj kvs) ->
                          restore ps v' = JObj kvs).
    { intros n v' p n' H ps Hi Hnd Hu. rewrite gi_JObj in H.
      destruct (traverse _ kvs n) as [[kvs' p'] k] eqn:E.
      inversion H; subst. clear H.
      destruct (traverse_runs _ _ _ _ _ _ E) as [Hruns _].
      simpl. f_equal.
      apply (Forall2_map_eq (fun kv => (fst kv, restore ps (snd kv)))).
      eapply Forall2_impl_in; [|exact Hruns].
      intros a b Ha (m & p0 & m' & Hrun & Hincl).
      apply perProperty_run in Hrun. destruct Hrun as (w & Hw & ->). simpl.
      rewrite (proj2 (IH a Ha) _ _ _ _ Hw ps).
      - now destruct a.
      - intros x Hx. apply Hi, Hincl, Hx.
      - exact Hnd.
      - intros s q Hs Hq. apply (Hu s q); [|exact Hq].
        apply In_nodes_JObj. right. exists a. auto. }
    split; [exact Hobj|].
    intros n v' p n' H ps Hi Hnd Hu. rewrite visit_JObj in H.
    destruct (isIntrinsic this (JObj kvs)).
    + inversion H; subst. simpl.
      rewrite (find_marker ps (chance this n) (JObj kvs) Hnd); [reflexivity|].
      apply Hi. left; reflexivity.
    + exact (Hobj _ _ _ _ H ps Hi Hnd Hu).
Qed.

Lemma runs_keep_keys (kvs kvs' : list (str * json)) (ps : list (str * json)) :
  Forall2 (fun a b =>
             exists m p m',
               gbind (visit this gi (snd a)) (fun v' => gret (fst a, v')) m = (b, p, m')
               /\ incl p ps) kvs kvs' ->
  map fst kvs' = map fst kvs.
Proof.
  induction 1 as [|a b l l' (m & p & m' & Hrun & _) _ IH]; [reflexivity|].
  rewrite gbind_gret in Hrun.
  destruct (visit this gi (snd a) m) as [[w p'] m'']. inversion Hrun; subst.
  simpl. now rewrite IH.
Qed.

(** Extraction keeps the keys of every mapping pairwise different. *)
Lemma extraction_uniqueKeys (v : json) :
  (forall n v' p n', gi v n = (v', p, n') -> uniqueKeys v = true -> uniqueKeys v' = true)
  /\ (forall n v' p n',
        visit this gi v n = (v', p, n') -> uniqueKeys v = true -> uniqueKeys v' = true).
Proof.
  induction v as [| b | z | s | l IH | kvs IH] using json_ind;
    try (split; intros n v' p n' H Hu; cbn in H; inversion H; subst; reflexivity).
  - rewrite Forall_forall in IH. split; intros n v' p n' H Hu.
    + rewrite gi_JArr in H.
      destruct (traverse (visit this gi) l n) as [[l' p'] k] eqn:E.
      inversion H; subst. clear H.
      destruct (traverse_runs _ _ _ _ _ _ E) as [Hruns _].
      change (forallb uniqueKeys l = true) in Hu. rewrite forallb_forall in Hu.
      change (forallb uniqueKeys l' = true). apply forallb_forall. intros b Hb.
      destruct (Forall2_In_r _ _ _ _ Hruns Hb) as (a & Ha & m & p0 & m' & Hrun & _).
      exact (proj2 (IH a Ha) _ _ _ _ Hrun (Hu a Ha)).
    + rewrite visit_JArr in H.
      destruct (traverse gi l n) as [[l' p'] k] eqn:E.
      inversion H; subst. clear H.
      destruct (traverse_runs _ _ _ _ _ _ E) as [Hruns _].
      change (forallb uniqueKeys l = true) in Hu. rewrite forallb_forall in Hu.
      change (forallb uniqueKeys l' = true). apply forallb_forall. intros b Hb.
      destruct (Forall2_In_r _ _ _ _ Hruns Hb) as (a & Ha & m & p0 & m' & Hrun & _).
      exact (proj1 (IH a Ha) _ _ _ _ Hrun (Hu a Ha)).
  - rewrite Forall_forall in IH.
    assert (Hobj : forall n v' p n',
               gi (JObj kvs) n = (v', p, n') ->
               uniqueKeys (JObj kvs) = true -> uniqueKeys v' = true).
    { intros n v' p n' H Hu. rewrite gi_JObj in H.
      destruct (traverse _ kvs n) as [[kvs' p'] k] eqn:E.
      inversion H; subst. clear H.
      destruct (traverse_runs _ _ _ _ _ _ E) as [Hruns _].
      change (distinct (map fst kvs) && forallb (fun kv => uniqueKeys (snd kv)) kvs = true)
        in Hu.
      apply andb_true_iff in Hu. destruct Hu as [Hd Hu]. rewrite forallb_forall in Hu.
      change (distinct (map fst kvs') && forallb (fun kv => uniqueKeys (snd kv)) kvs'
              = true).
      apply andb_true_iff. split.
      - now rewrite (runs_keep_keys _ _ _ Hruns).
      - apply forallb_forall. intros b Hb.
        destruct (Forall2_In_r _ _ _ _ Hruns Hb) as (a & Ha & m & p0 & m' & Hrun & _).
        apply perProperty_run in Hrun. destruct Hrun as (w & Hw & ->). simpl.
        exact (proj2 (IH a Ha) _ _ _ _ Hw (Hu a Ha)). }
    split; [exact Hobj|].
    intros n v' p n' H Hu. rewrite visit_JObj in H.
    destruct (isIntrinsic this (JObj kvs)).
    + inversion H; subst. reflexivity.
    + exact (Hobj _ _ _ _ H Hu).
Qed.
End Restore.

(** X3. Extraction loses nothing: when the names drawn are pairwise
    different and no string of the document is itself the marker of one of
    them, replacing in the mutated document every marker by the reference
    paired with its name gives back the original document. *)
Theorem extraction_can_be_undone {Template : Type} (this : Env Template)
    (doc : json) (n : nat) :
  NoDup (map fst (snd (fst (getIntrinsicFunctions this doc n)))) ->
  (forall s q,
     In (JStr s) (nodes doc) ->
     In q (map fst (snd (fst (getIntrinsicFunctions this doc n)))) ->
     s <> marker q) ->
  restore (snd (fst (getIntrinsicFunctions this doc n)))
          (fst (fst (getIntrinsicFunctions this doc n)))
  = doc.
Proof.
  destruct (getIntrinsicFunctions this doc n) as [[doc' ps] n'] eqn:E. simpl.
  intros Hnd Hu.
  exact (proj1 (extraction_restore this doc) _ _ _ _ E ps (incl_refl ps) Hnd Hu).
Qed.

Lemma unmarked_check (names : list str) (doc : json) :
  forallb (fun x => match x with
                    | JStr s => forallb (fun q => negb (str_eqb s (marker q))) names
                    | _ => true
                    end) (nodes doc) = true ->
  forall s q, In (JStr s) (nodes doc) -> In q names -> s <> marker q.
Proof.
  intros H s q Hs Hq E. rewrite forallb_forall in H. specialize (H _ Hs).
  cbv beta iota in H. rewrite forallb_forall in H. specialize (H _ Hq).
  subst s. rewrite str_eqb_refl in H. discriminate.
Qed.

Lemma extraction_can_be_undone_witness :
  List.length (snd (fst (getIntrinsicFunctions Sample.env More.twoTasks 0))) = 3
  /\ restore (snd (fst (getIntrinsicFunctions Sample.env More.twoTasks 0)))
             (fst (fst (getIntrinsicFunctions Sample.env More.twoTasks 0)))
     = More.twoTasks.
Proof.
  split; [reflexivity|].
  apply (extraction_can_be_undone Sample.env More.twoTasks 0).
  - apply distinct_NoDup. reflexivity.
  - apply unmarked_check. reflexivity.
Defined.

(** X4. The text of a compiled definition that is not a string is valid
    JSON, with or without references: [JSON.parse] of it is the document as
    extraction left it, markers in the places of the references. *)
Theorem definition_text_parses {Template : Type} (this : Env Template)
    (d : json) (n : nat) :
  (forall s, d <> JStr s) ->
  uniqueKeys d = true ->
  JSON_parse (textOf (fst (assemble this d n)))
  = Some (fst (fst (getIntrinsicFunctions this d n))).
Proof.
  intros Hd Hu. rewrite (assemble_document this d n Hd).
  destruct (getIntrinsicFunctions this d n) as [[d' ps] n'] eqn:E.
  pose proof (proj1 (extraction_uniqueKeys this d) _ _ _ _ E Hu) as Hu'.
  assert (Hp : JSON_parse (JSON_stringify2 d') = Some d').
  { apply JSON_parse_stringify; [exact Hu'|]. repeat constructor. }
  destruct ps; exact Hp.
Qed.

Lemma definition_text_parses_witness :
  exists doc',
    JSON_parse (textOf (fst (assemble Sample.env More.twoTasks 0))) = Some doc'
    /\ restore (snd (fst (getIntrinsicFunctions Sample.env More.twoTasks 0))) doc'
       = More.twoTasks.
Proof.
  exists (fst (fst (getIntrinsicFunctions Sample.env More.twoTasks 0))). split.
  - apply (definition_text_parses Sample.env More.twoTasks 0);
      [discriminate|reflexivity].
  - vm_compute. reflexivity.
Defined.

(** ** The parameter map *)

Lemma lookup_setProp (k k' : str) (v : json) (acc : list (str * json)) :
  lookup k (setProp k' v acc) = if str_eqb k k' then Some v else lookup k acc.
Proof.
  induction acc as [|[k2 v2] acc IH]; simpl.
  - reflexivity.
  - destruct (str_eqb k' k2) eqn:E2; simpl.
    + apply str_eqb_eq in E2. subst k2.
      destruct (str_eqb k k'); reflexivity.
    + rewrite IH. destruct (str_eqb k k2) eqn:E; [|reflexivity].
      apply str_eqb_eq in E. subst k2.
      destruct (str_eqb k k') eqn:E'; [|reflexivity].
      apply str_eqb_eq in E'. subst k'. rewrite str_eqb_refl in E2. discriminate.
Qed.

Lemma lookup_app (k : str) (a b : list (str * json)) :
  lookup k (a ++ b) = match lookup k a with
                      | Some v => Some v
                      | None => lookup k b
                      end.
Proof.
  induction a as [|[k' v'] a IH]; simpl; [reflexivity|].
  destruct (str_eqb k k'); [reflexivity|exact IH].
Qed.

Lemma lookup_fromPairs (k : str) (l : list (str * json)) :
  lookup k (fromPairs l) = lookup k (List.rev l).
Proof.
  unfold fromPairs.
  assert (H : forall acc,
             lookup k (fold_left (fun acc kv => setProp (fst kv) (snd kv) acc) l acc)
             = match lookup k (List.rev l) with
               | Some v => Some v
               | None => lookup k acc
               end).
  { induction l as [|[k1 v1] l IH]; intros acc; simpl; [reflexivity|].
    rewrite IH, lookup_app, lookup_setProp. simpl.
    destruct (lookup k (List.rev l)); [reflexivity|].
    destruct (str_eqb k k1); reflexivity. }
  rewrite H. simpl. destruct (lookup k (List.rev l)); reflexivity.
Qed.

Lemma lookup_map (f : json -> json) (k : str) (l : list (str * json)) :
  lookup k (map (fun kv => (fst kv, f (snd kv))) l) = option_map f (lookup k l).
Proof.
  induction l as [|[k' v'] l IH]; simpl; [reflexivity|].
  destruct (str_eqb k k'); [reflexivity|exact IH].
Qed.

(** X5. When two references of a document are given the same name, the
    last one wins: under each name the parameter map holds the translation
    of the reference that was yielded last with that name, so that the
    markers of the earlier ones resolve to a reference that is not theirs. *)
Theorem parameter_map_last_wins {Template : Type} (this : Env Template)
    (d : json) (n : nat) (k : str) :
  (forall s, d <> JStr s) ->
  lookup k (paramsOf (fst (assemble this d n)))
  = option_map (translateLocalFunctionNames this)
               (lookup k (List.rev (snd (fst (getIntrinsicFunctions this d n))))).
Proof.
  intros Hd. rewrite (assemble_document this d n Hd).
  destruct (getIntrinsicFunctions this d n) as [[d' ps] n']. simpl snd. simpl fst.
  destruct ps as [|pair ps]; [reflexivity|].
  change (paramsOf (fst (FnSub (JSON_stringify2 d')
            (fromPairs (map (fun kv => (fst kv, translateLocalFunctionNames this (snd kv)))
                            (pair :: ps))), n')))
    with (fromPairs (map (fun kv => (fst kv, translateLocalFunctionNames this (snd kv)))
                         (pair :: ps))).
  rewrite lookup_fromPairs, <- map_rev. apply lookup_map.
Qed.

Lemma parameter_map_last_wins_witness :
  map fst (snd (fst (getIntrinsicFunctions (More.withChance Sample.env More.stutter)
                                           More.twoTasks 0)))
  = [("aaaaaaaaaa" : str); ("aaaaaaaaaa" : str); ("bbbbbbbbbb" : str)]
  /\ lookup ("aaaaaaaaaa" : str)
            (paramsOf (fst (assemble (More.withChance Sample.env More.stutter)
                                     More.twoTasks 0)))
     = Some (JObj [("Ref" : str, JStr ("Topic" : str))])
  /\ List.length (paramsOf (fst (assemble (More.withChance Sample.env More.stutter)
                                          More.twoTasks 0))) = 2.
Proof.
  split; [reflexivity|]. split; [|reflexivity].
  rewrite (parameter_map_last_wins (More.withChance Sample.env More.stutter)
             More.twoTasks 0 ("aaaaaaaaaa" : str)) by discriminate.
  reflexivity.
Defined.

(** X6. When the names drawn are pairwise different, the parameter map has
    exactly one entry for each reference: its entries are, up to their
    order, the yielded pairs, each reference translated. (The order is left
    open: JavaScript enumerates a name that is an array index before the
    others.) *)
Theorem parameter_map_one_entry_per_reference {Template : Type} (this : Env Template)
    (d : json) (n : nat) :
  (forall s, d <> JStr s) ->
  distinct (map fst (snd (fst (getIntrinsicFunctions this d n)))) = true ->
  Permutation
    (paramsOf (fst (assemble this d n)))
    (map (fun kv => (fst kv, translateLocalFunctionNames this (snd kv)))
         (snd (fst (getIntrinsicFunctions this d n)))).
Proof.
  intros Hd. rewrite (assemble_document this d n Hd).
  destruct (getIntrinsicFunctions this d n) as [[d' ps] n']. simpl snd. simpl fst.
  intros Hdist. destruct ps as [|pair ps]; [constructor|].
  change (paramsOf (fst (FnSub (JSON_stringify2 d')
            (fromPairs (map (fun kv => (fst kv, translateLocalFunctionNames this (snd kv)))
                            (pair :: ps))), n')))
    with (fromPairs (map (fun kv => (fst kv, translateLocalFunctionNames this (snd kv)))
                         (pair :: ps))).
  rewrite fromPairs_distinct; [apply Permutation_refl|].
  rewrite map_map. exact Hdist.
Qed.

Lemma parameter_map_one_entry_per_reference_witness :
  Permutation
    (map fst (paramsOf (fst (assemble Sample.env More.twoTasks 0))))
    [("aaaaaaaaaa" : str); ("bbbbbbbbbb" : str); ("cccccccccc" : str)]
  /\ List.length (paramsOf (fst (assemble Sample.env More.twoTasks 0))) = 3.
Proof.
  assert (H : Permutation
                (paramsOf (fst (assemble Sample.env More.twoTasks 0)))
                (map (fun kv => (fst kv, translateLocalFunctionNames Sample.env (snd kv)))
                     (snd (fst (getIntrinsicFunctions Sample.env More.twoTasks 0))))).
  { apply (parameter_map_one_entry_per_reference Sample.env More.twoTasks 0);
      [discriminate|reflexivity]. }
  split.
  - exact (Permutation_map fst H).
  - exact (Permutation_length H).
Defined.

(** ** A definition given as a string, read back *)

(** X7. For a definition that is a non-empty string in which no backslash
    is followed by [n] or [r], the definition text of the record is a JSON
    string literal, and [JSON.parse] of it is the input string without its
    newline and carriage-return characters. *)
Theorem literal_text_parses_back {Template : Type} (this : Env Template)
    (stateMachineName : str) (obj : StateMachine) (s : str)
    (n n' : nat) (r : ResourceRecord) :
  definition obj = Some (JStr s) ->
  s <> [] ->
  noEscapeLookalike s = true ->
  compileRecord this stateMachineName obj n = (inr r, n') ->
  exists text,
    DefinitionString r = Some (Text text)
    /\ JSON_parse text = Some (JStr (dropNewlines s)).
Proof.
  intros Hd Hs Hl H. apply compileRecord_inv in H.
  destruct H as (Tags0 & ds & ds' & Tags1 & _ & _ & Hc & Hp & _ & ->). simpl.
  unfold compileDefinition in Hc. rewrite Hd in Hc.
  destruct s as [|c s]; [congruence|]. simpl truthy in Hc. cbv iota in Hc.
  destruct (lintDefinition this stateMachineName (JStr (c :: s))); [discriminate|].
  unfold assemble in Hc. inversion Hc; subst ds n'. clear Hc.
  assert (Hds : ds' = Some (Text (stripEscapes (QuoteJSONString (c :: s))))).
  { unfold pinVersions in Hp.
    destruct (useExactVersion obj) as [[| [|] | | | |]|]; now inversion Hp. }
  subst ds'. rewrite (stripEscapes_quote _ Hl).
  exists (QuoteJSONString (dropNewlines (c :: s))). split; [reflexivity|].
  exact (JSON_parse_stringify (JStr (dropNewlines (c :: s))) [] eq_refl (Forall_nil _)).
Qed.

Lemma literal_text_parses_back_witness :
  exists r text,
    compileRecord Sample.env ("m" : str) More.twoLineEntry 0 = (inr r, 0)
    /\ DefinitionString r = Some (Text text)
    /\ JSON_parse text
       = Some (JStr ["{"%char; dquote; "a"%char; dquote; ":"%char; " "%char;
                     "1"%char; "}"%char]).
Proof.
  destruct (compileRecord Sample.env ("m" : str) More.twoLineEntry 0) as [[e|r] n'] eqn:E;
    [vm_compute in E; discriminate|].
  destruct (literal_text_parses_back Sample.env ("m" : str) More.twoLineEntry
              More.twoLineText 0 n' r eq_refl) as (text & H1 & H2).
  - discriminate.
  - reflexivity.
  - exact E.
  - assert (n' = 0) by (vm_compute in E; now inversion E). subst n'.
    exists r, text. split; [reflexivity|]. split; [exact H1|exact H2].
Defined.

(** ** Tags that cannot be coerced *)

Lemma toString_error (v : json) (e : exn) : toString v = inl e -> e = TypeError.
Proof.
  induction v as [| b | z | s | l IH | kvs _] using json_ind; intros H.
  - now inversion H.
  - destruct b; discriminate.
  - discriminate.
  - discriminate.
  - change (toString (JArr l))
      with (rbind (rmap (fun e => match e with
                                  | JNull => inr []
                                  | _ => toString e
                                  end) l)
                  (fun parts => inr (join ("," : str) parts))) in H.
    destruct (rmap _ l) as [e'|parts] eqn:E; simpl in H; [|discriminate].
    inversion H; subst e'. apply rmap_inl_In in E. destruct E as (a & Ha & Hfa).
    rewrite Forall_forall in IH. apply (IH a Ha).
    destruct a; try exact Hfa. discriminate.
  - cbn [toString] in H.
    destruct (hasKey ("toString" : str) kvs); [congruence|discriminate].
Qed.

Lemma rmap_fails {A B} (f : A -> result B) (l : list A) (a : A) (e0 : exn) :
  In a l -> f a = inl e0 -> exists e, rmap f l = inl e.
Proof.
  induction l as [|x l IH]; intros Hin Hf; [destruct Hin|].
  simpl. destruct Hin as [->|Hin].
  - rewrite Hf. simpl. eauto.
  - destruct (f x) as [e|b]; simpl; [eauto|].
    destruct (IH Hin Hf) as [e He]. rewrite He. simpl. eauto.
Qed.

Lemma toTags_mapping (kvs : list (str * json)) :
  plainTags (Some (JObj kvs)) = true ->
  toTags (Some (JObj kvs))
  = rmap (fun kv => rbind (toString (snd kv))
                          (fun s => inr (mkTag (JStr (fst kv)) s))) kvs.
Proof.
  unfold plainTags, toTags, forEachTag, truthy. intros Hp.
  destruct (lookup ("length" : str) kvs) as [v|]; [|reflexivity].
  destruct v; try reflexivity.
  destruct (isLength (JNum z)); [discriminate|reflexivity].
Qed.

(** X8. When the provider-level tags are a mapping that lodash iterates by
    key (a mapping without a [length] entry holding a non-negative integer,
    see [plainTags]), a tag whose value is [null] (a key without a value in
    the service file) makes the compilation of every entry fail with a
    [TypeError], whatever the entry is and whatever the schema says of it:
    the provider tags are normalised before the entry is validated. No name
    is drawn. *)
Theorem null_provider_tag_is_a_type_error {Template : Type} (this : Env Template)
    (kvs : list (str * json)) (k : str)
    (stateMachineName : str) (obj : StateMachine) (n : nat) :
  providerTags this = Some (JObj kvs) ->
  plainTags (Some (JObj kvs)) = true ->
  In (k, JNull) kvs ->
  compileRecord this stateMachineName obj n = (inl TypeError, n).
Proof.
  intros Hp Hplain Hin. unfold compileRecord. rewrite Hp, (toTags_mapping kvs Hplain).
  destruct (rmap_fails
              (fun kv => rbind (toString (snd kv))
                               (fun s => inr (mkTag (JStr (fst kv)) s)))
              kvs (k, JNull) TypeError Hin eq_refl) as [e He].
  rewrite He.
  apply rmap_inl_In in He. destruct He as (a & _ & Ha).
  destruct (toString (snd a)) as [e'|s] eqn:Es; simpl in Ha; [|discriminate].
  inversion Ha; subst e'. now rewrite (toString_error _ _ Es).
Qed.

Lemma null_provider_tag_is_a_type_error_witness :
  compileRecord (Sample.withProviderTags Sample.strict (Some More.emptyTag))
                ("named" : str) Sample.named 5 = (inl TypeError, 5)
  /\ joiValidate (Sample.withProviderTags Sample.strict (Some More.emptyTag)) Sample.named
     <> None.
Proof.
  split.
  - apply (null_provider_tag_is_a_type_error
             (Sample.withProviderTags Sample.strict (Some More.emptyTag))
             [("team" : str, JStr ("core" : str)); ("owner" : str, JNull)]
             ("owner" : str)).
    + reflexivity.
    + reflexivity.
    + right. left. reflexivity.
  - vm_compute. discriminate.
Defined.

(** ** What a record holds *)

(** X9. A compiled record has a definition string exactly when the entry
    has a truthy definition, and a state machine name exactly when the entry
    has a truthy name: an entry without a definition, when it compiles,
    gives a resource without [DefinitionString]. *)
Theorem record_definition_and_name {Template : Type} (this : Env Template)
    (stateMachineName : str) (obj : StateMachine) (n n' : nat) (r : ResourceRecord) :
  compileRecord this stateMachineName obj n = (inr r, n') ->
  (DefinitionString r = None <-> truthyOpt (definition obj) = false)
  /\ (StateMachineName r = None <-> truthyOpt (name obj) = false)
  /\ (truthyOpt (name obj) = true -> StateMachineName r = name obj).
Proof.
  intros H. apply compileRecord_inv in H.
  destruct H as (Tags0 & ds & ds' & Tags1 & _ & _ & Hc & Hp & _ & ->). simpl.
  split; [|split].
  - assert (H1 : ds = None <-> truthyOpt (definition obj) = false).
    { unfold compileDefinition in Hc. unfold truthyOpt.
      destruct (definition obj) as [d|]; [|inversion Hc; tauto].
      destruct (truthy d); [|inversion Hc; tauto].
      destruct (lintDefinition this stateMachineName d); [discriminate|].
      destruct (assemble this d n) as [x m]. inversion Hc; subst.
      split; discriminate. }
    assert (H2 : ds' = None <-> ds = None).
    { unfold pinVersions in Hp.
      destruct (useExactVersion obj) as [[| [|] | | | |]|];
        try (inversion Hp; subst; tauto).
      destruct ds as [[s|text params]|]; [| |discriminate].
      - inversion Hp; subst. tauto.
      - destruct (rmap _ params); simpl in Hp; inversion Hp; subst.
        split; discriminate. }
    tauto.
  - unfold truthyOpt. destruct (name obj) as [v|]; [|tauto].
    destruct (truthy v); split; intros; try discriminate; reflexivity.
  - intros Ht. now rewrite Ht.
Qed.

Lemma record_definition_and_name_witness :
  exists r,
    compileRecord Sample.env ("m" : str) More.noDefinition 0 = (inr r, 0)
    /\ DefinitionString r = None
    /\ StateMachineName r = None.
Proof.
  destruct (compileRecord Sample.env ("m" : str) More.noDefinition 0) as [[e|r] n'] eqn:E;
    [vm_compute in E; discriminate|].
  destruct (record_definition_and_name Sample.env _ _ _ _ _ E) as (H1 & H2 & _).
  assert (n' = 0) by (vm_compute in E; now inversion E). subst n'.
  exists r. split; [reflexivity|]. split.
  - apply H1. reflexivity.
  - apply H2. reflexivity.
Defined.

(** ** Any failure ends the compilation *)

(** X10. Whatever the exception that the compilation of an entry raises (a
    [TypeError], an error of the version-resolution collaborator, a
    validation error), [compileStateMachines] ends with that exception: the
    entries after it are not compiled, and the shared template holds the
    merges of the entries before it and nothing of this one. The names the
    failed entry has drawn stay drawn. *)
Theorem failure_ends_the_compilation {Template : Type} (this : Env Template)
    (tpl tpl1 : Template) (n n1 n2 : nat)
    (before after : list str) (stateMachineName : str) (e : exn) :
  isStateMachines this = true ->
  getAllStateMachines this = before ++ stateMachineName :: after ->
  forEachStateMachine this before tpl n = (inr tt, tpl1, n1) ->
  compileRecord this stateMachineName (getStateMachine this stateMachineName) n1
  = (inl e, n2) ->
  compileStateMachines this tpl n = (inl e, tpl1, n2).
Proof.
  intros Hs Hall Hbefore Hfail.
  unfold compileStateMachines. rewrite Hs, Hall.
  rewrite (forEachStateMachine_app this _ _ _ _ _ _ Hbefore).
  simpl. unfold compileStateMachine. rewrite Hfail. reflexivity.
Qed.

Lemma failure_ends_the_compilation_witness :
  exists tpl1,
    compileStateMachines
      (Sample.withMachines More.unversioned
         [("ok" : str, Sample.hello); ("pinned" : str, More.twoTasksEntry);
          ("late" : str, Sample.hello)]) [] 0
    = (inl (Thrown ("no version" : str)), tpl1, 4)
    /\ map fst tpl1 = [("ok" : str); ("okArn" : str)].
Proof.
  destruct (forEachStateMachine
              (Sample.withMachines More.unversioned
                 [("ok" : str, Sample.hello); ("pinned" : str, More.twoTasksEntry);
                  ("late" : str, Sample.hello)])
              [("ok" : str)] [] 0) as [[[e|[]] tpl1] n1] eqn:Eb;
    [vm_compute in Eb; discriminate|].
  exists tpl1.
  assert (Hn : n1 = 1 /\ map fst tpl1 = [("ok" : str); ("okArn" : str)]).
  { vm_compute in Eb. inversion Eb. split; reflexivity. }
  destruct Hn as [-> Hk]. split; [|exact Hk].
  apply (failure_ends_the_compilation
           (Sample.withMachines More.unversioned
              [("ok" : str, Sample.hello); ("pinned" : str, More.twoTasksEntry);
               ("late" : str, Sample.hello)])
           [] tpl1 0 1 4 [("ok" : str)] [("late" : str)] ("pinned" : str)).
  - reflexivity.
  - reflexivity.
  - exact Eb.
  - vm_compute. reflexivity.
Defined.

(** ** Different definitions, different texts *)

(** X11. Two definition documents without references that compile to the
    same definition string are the same document: no two different
    definitions share their text. *)
Theorem definitions_differ_in_text {Template : Type} (this : Env Template)
    (d1 d2 : json) (n1 n2 : nat) :
  (forall s, d1 <> JStr s) -> (forall s, d2 <> JStr s) ->
  (forall x, In x (nodes d1) -> isIntrinsic this x = false) ->
  (forall x, In x (nodes d2) -> isIntrinsic this x = false) ->
  uniqueKeys d1 = true -> uniqueKeys d2 = true ->
  fst (assemble this d1 n1) = fst (assemble this d2 n2) ->
  d1 = d2.
Proof.
  intros Hs1 Hs2 Hn1 Hn2 Hu1 Hu2 H.
  rewrite (assemble_document this d1 n1 Hs1), (assemble_document this d2 n2 Hs2) in H.
  rewrite (proj1 (extraction_identity this d1 Hn1) n1) in H.
  rewrite (proj1 (extraction_identity this d2 Hn2) n2) in H.
  simpl in H. inversion H as [Ht].
  assert (Hp1 : JSON_parse (JSON_stringify2 d1) = Some d1).
  { apply JSON_parse_stringify; [assumption|repeat constructor]. }
  assert (Hp2 : JSON_parse (JSON_stringify2 d2) = Some d2).
  { apply JSON_parse_stringify; [assumption|repeat constructor]. }
  rewrite Ht in Hp1. congruence.
Qed.

Lemma definitions_differ_in_text_witness :
  fst (assemble Sample.env Sample.plainDefinition 0)
  <> fst (assemble Sample.env (JObj [("StartAt" : str, JStr ("X" : str))]) 0).
Proof.
  intros H.
  assert (Hd : Sample.plainDefinition = JObj [("StartAt" : str, JStr ("X" : str))]).
  { apply (definitions_differ_in_text Sample.env _ _ 0 0); try discriminate;
      try reflexivity; try exact H;
      intros x Hx; vm_compute in Hx;
      repeat (destruct Hx as [<-|Hx]; [reflexivity|]); destruct Hx. }
  discriminate.
Defined.
